(** * PolyPlayer: a shallow embedding of [src/__init__.py]

    The development follows the source file top to bottom: Python values
    (JSON documents, slices, [str] of an integer), the per-channel player
    and the registry, the scheduler tick [play_queue], the [skip] command,
    the Invidious client and the Translator with its regular expressions
    and its Spotify token cache.  Theorems come after the definitions. *)

From Stdlib Require Import ZArith List String Ascii Bool Lia DecimalString.
Import ListNotations.

#[local] Set Warnings "-register-all".

Local Open Scope string_scope.
Local Open Scope Z_scope.
Local Open Scope list_scope.

(** ** Python values *)

Module Py.

(** A parsed JSON document, as [response.json()] returns it.  A [dict] is
    kept as an association list whose first binding of a key is the one
    [d[k]] and [d.get(k)] see.  [JNull] is Python's [None]. *)
Inductive json : Type :=
| JNull
| JBool (b : bool)
| JNum (n : Z)
| JStr (s : string)
| JArr (items : list json)
| JObj (fields : list (string * json)).

(** The exceptions the modelled code can raise.  A message built by an
    f-string around a run-time value keeps that value next to its prefix. *)
Inductive fstring : Type :=
| FLit (s : string)
| FVal (prefix : string) (v : json).

Inductive exn : Type :=
| BadResponseError (msg : fstring)
| ValueError (msg : string)
| KeyError (key : string)
| IndexError
| TypeError
| AttributeError
| ClientException (msg : string).

Inductive result (A : Type) : Type :=
| Ok (a : A)
| Raise (e : exn).
Arguments Ok {A} a.
Arguments Raise {A} e.

(** [bool(v)] *)
Definition truthy (v : json) : bool :=
  match v with
  | JNull => false
  | JBool b => b
  | JNum n => negb (n =? 0)
  | JStr s => negb (String.eqb s EmptyString)
  | JArr items => match items with [] => false | _ => true end
  | JObj fields => match fields with [] => false | _ => true end
  end.

Fixpoint assoc {A : Type} (k : string) (kv : list (string * A)) : option A :=
  match kv with
  | [] => None
  | (k', v) :: rest => if String.eqb k k' then Some v else assoc k rest
  end.

(** [d[k]] *)
Definition getitem (d : json) (k : string) : result json :=
  match d with
  | JObj fields =>
      match assoc k fields with
      | Some v => Ok v
      | None => Raise (KeyError k)
      end
  | _ => Raise TypeError
  end.

(** [d.get(k)]: [None] when the key is missing *)
Definition get (d : json) (k : string) : result json :=
  match d with
  | JObj fields =>
      match assoc k fields with
      | Some v => Ok v
      | None => Ok JNull
      end
  | _ => Raise AttributeError
  end.

(** [v == s] for a string [s] *)
Definition is_str (v : json) (s : string) : bool :=
  match v with
  | JStr x => String.eqb x s
  | _ => false
  end.

(** Normalisation of one bound of a slice of a sequence of length [len]:
    a negative bound counts from the end, and the result is clamped to
    [0 .. len]. *)
Definition slice_bound (len i : Z) : nat :=
  Z.to_nat (if i <? 0 then Z.max 0 (len + i) else Z.min i len).

(** [l[i:]] *)
Definition slice_from {A : Type} (l : list A) (i : Z) : list A :=
  skipn (slice_bound (Z.of_nat (List.length l)) i) l.

(** [l[:j]] *)
Definition slice_to {A : Type} (l : list A) (j : Z) : list A :=
  firstn (slice_bound (Z.of_nat (List.length l)) j) l.

(** [str(n)] for an [int] *)
Definition str_of_int (n : Z) : string :=
  NilZero.string_of_int (Z.to_int n).

End Py.
Import Py.

(** ** VideoInfo and ChannelPlayer *)

Definition URL := string.

Record VideoInfo : Type := mkVideoInfo {
  data : json;
  audio_url : URL;
  input_url : string;
  yt_url : string
}.

(** A [discord.VoiceClient] is an external object; the model keeps its
    handle. *)
Definition VoiceClient := nat.

Record ChannelPlayer : Type := mkChannelPlayer {
  connection : VoiceClient;
  queue : list VideoInfo;
  now_playing : option VideoInfo;
  loop : bool
}.

Definition set_queue (q : list VideoInfo) (p : ChannelPlayer) : ChannelPlayer :=
  mkChannelPlayer (connection p) q (now_playing p) (loop p).

Definition set_now_playing (v : option VideoInfo) (p : ChannelPlayer) : ChannelPlayer :=
  mkChannelPlayer (connection p) (queue p) v (loop p).

Definition ChannelID := Z.

(** [self.players]: a [dict], which keeps its keys unique and in insertion
    order.  Every [ChannelPlayer] is stored under one key only ([play] puts
    back under [channel.id] the player it found there, or a new one), so a
    mutation of the player object is an update of the entry of its key. *)
Definition Players := list (ChannelID * ChannelPlayer).

Fixpoint players_get (players : Players) (k : ChannelID) : option ChannelPlayer :=
  match players with
  | [] => None
  | (k', p) :: rest => if k =? k' then Some p else players_get rest k
  end.

(** the player stored under [k] is now in state [p] *)
Fixpoint players_update (players : Players) (k : ChannelID) (p : ChannelPlayer) : Players :=
  match players with
  | [] => []
  | (k', p') :: rest =>
      if k =? k' then (k', p) :: rest else (k', p') :: players_update rest k p
  end.

(** [del players[k]] *)
Fixpoint players_del (players : Players) (k : ChannelID) : result Players :=
  match players with
  | [] => Raise (KeyError (str_of_int k))
  | (k', p') :: rest =>
      if k =? k' then Ok rest
      else match players_del rest k with
           | Ok rest' => Ok ((k', p') :: rest')
           | Raise e => Raise e
           end
  end.

Definition keys (players : Players) : list ChannelID := map fst players.

(** ** The command context and replies *)

(** What the commands read of [ctx]: whether the command comes from a
    guild, whether the author is a [discord.Member], and the voice channel
    the author is connected to. *)
Record Context : Type := mkContext {
  guild : bool;
  author_is_member : bool;
  voice_channel : option ChannelID
}.

(** [ctx.reply(content, ephemeral=...)] *)
Record Reply : Type := mkReply {
  content : string;
  ephemeral : bool
}.

Definition in_voice_channel (ctx : Context) : option ChannelID :=
  if guild ctx && author_is_member ctx then voice_channel ctx else None.

(** ** PolyPlayer.skip *)

Definition skip (players : Players) (ctx : Context) (steps : Z) : Players * Reply :=
  match in_voice_channel ctx with
  | None => (players, mkReply "You must be in a voice channel to use this command" true)
  | Some channel =>
      match players_get players channel with
      | None => (players, mkReply "Nothing is currently playing" true)
      | Some player =>
          match queue player with
          | [] => (players, mkReply "Nothing is currently playing" true)
          | _ :: _ =>
              (* player.queue = player.queue[steps:] *)
              let player1 := set_queue (slice_from (queue player) steps) player in
              (* if player.loop: player.queue.extend(player.queue[:steps]) *)
              let player2 :=
                if loop player1
                then set_queue (queue player1 ++ slice_to (queue player1) steps) player1
                else player1 in
              (players_update players channel player2,
               mkReply ("Skipped " ++ str_of_int steps ++ " songs") false)
          end
      end
  end.

(** ** The voice transport, seen from the scheduler *)

(** What [discord.FFmpegPCMAudio(url, before_options=...)] wrapped in a
    [discord.PCMVolumeTransformer] is built from. *)
Record AudioSource : Type := mkAudioSource {
  source_url : string;
  before_options : string
}.

Inductive VoiceCall : Type :=
| IsPlaying (c : VoiceClient)
| IsPaused (c : VoiceClient)
| Disconnect (c : VoiceClient)
| Play (c : VoiceClient) (source : AudioSource).

(** The transport is an external collaborator: what each of its calls
    answers during one tick is given from outside.  [disconnect_raises] and
    [play_raises] are the exception the call raises, if it raises one. *)
Record VoiceStatus : Type := mkVoiceStatus {
  is_playing : bool;
  is_paused : bool;
  disconnect_raises : option exn;
  play_raises : option exn
}.

Definition Transport := VoiceClient -> VoiceStatus.

(** ** PolyPlayer.play_queue *)

(** The state one run of the task works on: the registry, the calls made
    on voice clients so far, and the keys of the loop iterations entered so
    far. *)
Record Tick : Type := mkTick {
  players : Players;
  calls : list VoiceCall;
  visited : list ChannelID
}.

Definition call (c : VoiceCall) (t : Tick) : Tick :=
  mkTick (players t) (calls t ++ [c]) (visited t).

Definition enter (guild_id : ChannelID) (t : Tick) : Tick :=
  mkTick (players t) (calls t) (visited t ++ [guild_id]).

Definition with_players (ps : Players) (t : Tick) : Tick :=
  mkTick ps (calls t) (visited t).

Definition reconnect_options : string :=
  "-reconnect 1 -reconnect_streamed 1 -reconnect_delay_max 3".

(** The body of the [for] loop, for one item [(guild_id, player)] of the
    snapshot.  [player] is the object the snapshot refers to, which is the
    one registered under [guild_id]. *)
Definition play_queue_body (tr : Transport) (guild_id : ChannelID)
    (player : ChannelPlayer) (t : Tick) : result unit * Tick :=
  let c := connection player in
  let t := call (IsPlaying c) (enter guild_id t) in
  if is_playing (tr c) then (Ok tt, t)
  else
    let t := call (IsPaused c) t in
    if is_paused (tr c) then (Ok tt, t)
    else
      match queue player with
      | [] =>
          let t := call (Disconnect c) t in
          match disconnect_raises (tr c) with
          | Some e => (Raise e, t)
          | None =>
              match players_del (players t) guild_id with
              | Ok ps => (Ok tt, with_players ps t)
              | Raise e => (Raise e, t)
              end
          end
      | video_info :: rest =>
          (* video_info = player.queue.pop(0) *)
          let player := set_queue rest player in
          let player :=
            if loop player
            then set_queue (queue player ++ [video_info]) player
            else player in
          let player := set_now_playing (Some video_info) player in
          let t := with_players (players_update (players t) guild_id player) t in
          let t := call (Play c (mkAudioSource (audio_url video_info) reconnect_options)) t in
          match play_raises (tr c) with
          | Some e => (Raise e, t)
          | None => (Ok tt, t)
          end
      end.

(** [for guild_id, player in snapshot: ...]; an exception leaves the loop. *)
Fixpoint play_queue_loop (tr : Transport) (snapshot : Players) (t : Tick)
    : result unit * Tick :=
  match snapshot with
  | [] => (Ok tt, t)
  | (guild_id, player) :: rest =>
      match play_queue_body tr guild_id player t with
      | (Ok _, t') => play_queue_loop tr rest t'
      | (Raise e, t') => (Raise e, t')
      end
  end.

(** One run of the task: the loop over [dict(self.players).items()]. *)
Definition play_queue (tr : Transport) (ps : Players) : result unit * Tick :=
  play_queue_loop tr ps (mkTick ps [] []).

(** ** Regular expressions *)

(** The part of Python's [re] syntax the three patterns of [Translator]
    use, with the matching order of a backtracking matcher: alternatives
    left to right, repetitions and options greedy.  Characters are 8-bit;
    the classes are the ASCII ones. *)
Module Re.

Inductive regex : Type :=
| Lit (s : string)                       (* the characters of [s] *)
| Cat (r1 r2 : regex)                    (* r1 r2 *)
| Alt (r1 r2 : regex)                    (* r1|r2 *)
| Opt (r : regex)                        (* r? *)
| Star (p : ascii -> bool)               (* c* for a class c *)
| Plus (p : ascii -> bool)               (* c+ for a class c *)
| Group (name : string) (r : regex)      (* (?P<name>r) *)
| Dollar.                                (* $ *)

Definition captures := list (string * string).

Fixpoint strip_prefix (p s : string) : option string :=
  match p with
  | EmptyString => Some s
  | String a p' =>
      match s with
      | EmptyString => None
      | String b s' => if Ascii.eqb a b then strip_prefix p' s' else None
      end
  end.

(** [c*] followed by [k]: the longest run first, then shorter ones. *)
Fixpoint star_class {A : Type} (p : ascii -> bool) (s : string) (k : string -> option A)
    : option A :=
  match s with
  | EmptyString => k s
  | String c s' =>
      if p c
      then match star_class p s' k with
           | Some x => Some x
           | None => k s
           end
      else k s
  end.

Definition newline : ascii := Ascii.ascii_of_nat 10.

(** [run r s caps k]: match [r] at the start of [s], then go on with [k]
    on the rest of the string and the groups captured so far. *)
Fixpoint run (r : regex) (s : string) (caps : captures)
    (k : string -> captures -> option captures) : option captures :=
  match r with
  | Lit l =>
      match strip_prefix l s with
      | Some s' => k s' caps
      | None => None
      end
  | Cat r1 r2 => run r1 s caps (fun s' caps' => run r2 s' caps' k)
  | Alt r1 r2 =>
      match run r1 s caps k with
      | Some x => Some x
      | None => run r2 s caps k
      end
  | Opt r1 =>
      match run r1 s caps k with
      | Some x => Some x
      | None => k s caps
      end
  | Star p => star_class p s (fun s' => k s' caps)
  | Plus p =>
      match s with
      | EmptyString => None
      | String c s' => if p c then star_class p s' (fun s'' => k s'' caps) else None
      end
  | Group name r1 =>
      run r1 s caps
        (fun s' caps' =>
           k s' ((name, substring 0 (String.length s - String.length s') s) :: caps'))
  | Dollar =>
      (* the end of the string, or just before a newline that ends it *)
      match s with
      | EmptyString => k s caps
      | String c EmptyString => if Ascii.eqb c newline then k s caps else None
      | _ => None
      end
  end.

(** Every character of [s] is in the class [p]. *)
Fixpoint all_chars (p : ascii -> bool) (s : string) : bool :=
  match s with
  | EmptyString => true
  | String c s' => p c && all_chars p s'
  end.

(** [pattern.match(s)]: anchored at the start only. *)
Definition re_match (r : regex) (s : string) : option captures :=
  run r s [] (fun _ caps => Some caps).

(** [match.group(name)] *)
Definition group (m : captures) (name : string) : json :=
  match assoc name m with
  | Some s => JStr s
  | None => JNull
  end.

Fixpoint seq (rs : list regex) : regex :=
  match rs with
  | [] => Lit ""
  | [r] => r
  | r :: rest => Cat r (seq rest)
  end.

Definition between (lo hi : string) (c : ascii) : bool :=
  match lo, hi with
  | String l _, String h _ =>
      (Ascii.nat_of_ascii l <=? Ascii.nat_of_ascii c)%nat
      && (Ascii.nat_of_ascii c <=? Ascii.nat_of_ascii h)%nat
  | _, _ => false
  end.

Definition char (x : string) (c : ascii) : bool :=
  match x with
  | String a _ => Ascii.eqb a c
  | _ => false
  end.

(** [.] *)
Definition dot (c : ascii) : bool := negb (Ascii.eqb c newline).
(** [[a-z]] *)
Definition lower (c : ascii) : bool := between "a" "z" c.
(** [[a-zA-Z0-9_-]] and [[0-9a-zA-Z-_]]: the same class *)
Definition id_char (c : ascii) : bool :=
  between "a" "z" c || between "A" "Z" c || between "0" "9" c || char "_" c || char "-" c.
(** [\w] *)
Definition word (c : ascii) : bool :=
  between "a" "z" c || between "A" "Z" c || between "0" "9" c || char "_" c.

End Re.
Import Re.

(** ** The network and the clock *)

Inductive Method : Type := GET | POST.

(** A request as the code builds it: the URL string, the query the [%]
    operator of [yarl.URL] adds, the headers and the form data. *)
Record Request : Type := mkRequest {
  meth : Method;
  url : string;
  query : list (string * json);
  headers : list (string * fstring);
  form : list (string * string)
}.

(** What the code reads of a response.  [body] is [await response.json()]. *)
Record Response : Type := mkResponse {
  status : Z;
  reason : string;
  final_url : URL;
  body : json
}.

(** [response.ok] *)
Definition ok (r : Response) : bool := status r <? 400.

(** The outside world: the answer to the [n]-th request sent, and the
    [n]-th reading of [datetime.datetime.now()], in microseconds. *)
Record Env : Type := mkEnv {
  respond : nat -> Request -> Response;
  now : nat -> Z
}.

Record Settings : Type := mkSettings {
  host_url : string;
  client_id : string;
  client_secret : string
}.

(** The state the network code runs in: the requests sent so far, the
    number of clock readings so far, and the two fields of [Translator]. *)
Record State : Type := mkState {
  sent : list Request;
  clock_reads : nat;
  _spotify_token : json;
  _spotify_token_expires_at : option Z
}.

(** A computation may change the state and then return or raise; what it
    changed before raising stays changed. *)
Definition M (A : Type) : Type := State -> result A * State.

Definition ret {A : Type} (a : A) : M A := fun s => (Ok a, s).

Definition bind {A B : Type} (m : M A) (k : A -> M B) : M B :=
  fun s =>
    match m s with
    | (Ok a, s') => k a s'
    | (Raise e, s') => (Raise e, s')
    end.

Definition raise {A : Type} (e : exn) : M A := fun s => (Raise e, s).

Definition lift {A : Type} (r : result A) : M A := fun s => (r, s).

(** [try: m  except ...: handler]; [handler e] is [None] for an exception
    the [except] clause does not name. *)
Definition try_except {A : Type} (m : M A) (handler : exn -> option (M A)) : M A :=
  fun s =>
    match m s with
    | (Ok a, s') => (Ok a, s')
    | (Raise e, s') =>
        match handler e with
        | Some h => h s'
        | None => (Raise e, s')
        end
    end.

Declare Scope py_scope.
Delimit Scope py_scope with py.
Notation "x <- m ;; k" := (bind m (fun x => k))
  (at level 100, m at next level, right associativity) : py_scope.
Notation "m ;;; k" := (bind m (fun _ => k))
  (at level 100, right associativity) : py_scope.
Local Open Scope py_scope.

Definition microseconds_per_second : Z := 1000000.

(** [datetime.timedelta(minutes=m)] and [datetime.timedelta(seconds=s)] *)
Definition timedelta_minutes (m : Z) : Z := m * 60 * microseconds_per_second.
Definition timedelta_seconds (s : Z) : Z := s * microseconds_per_second.

Section Network.

Variable env : Env.
Variable settings : Settings.

(** [async with self.session.get(...) as response] and [session.post] *)
Definition request (r : Request) : M Response :=
  fun s =>
    (Ok (respond env (List.length (sent s)) r),
     mkState (sent s ++ [r]) (clock_reads s) (_spotify_token s) (_spotify_token_expires_at s)).

(** [datetime.datetime.now()] *)
Definition datetime_now : M Z :=
  fun s =>
    (Ok (now env (clock_reads s)),
     mkState (sent s) (S (clock_reads s)) (_spotify_token s) (_spotify_token_expires_at s)).

Definition read_token : M json := fun s => (Ok (_spotify_token s), s).
Definition read_expires_at : M (option Z) := fun s => (Ok (_spotify_token_expires_at s), s).

Definition write_token (tok : json) : M unit :=
  fun s => (Ok tt, mkState (sent s) (clock_reads s) tok (_spotify_token_expires_at s)).

Definition write_expires_at (e : Z) : M unit :=
  fun s => (Ok tt, mkState (sent s) (clock_reads s) (_spotify_token s) (Some e)).

(** *** Invidious *)

(** The nested [inner] of [get_video]. *)
Definition inner (video_id : string) : M json :=
  response <- request (mkRequest GET (host_url settings ++ "/api/v1/videos/" ++ video_id) [] [] []) ;;
  let data := body response in
  error <- lift (get data "error") ;;
  if truthy error
  then raise (BadResponseError (FVal "Error fetching video: " error))
  else ret data.

Definition get_video (video_id : string) : M json :=
  try_except (inner video_id)
    (fun e => match e with
              | BadResponseError _ => Some (inner video_id)
              | _ => None
              end).

Definition search_for (q : string) : M json :=
  response <- request (mkRequest GET (host_url settings ++ "/api/v1/search")
                         [("q"%string, JStr q); ("sort_by"%string, JStr "relevance");
                          ("type"%string, JStr "video")] [] []) ;;
  ret (body response).

(** [for frmt in v]: a list yields its items, a dict its keys, a string
    its characters; nothing else is iterable. *)
Definition iter (v : json) : result (list json) :=
  match v with
  | JArr items => Ok items
  | JObj fields => Ok (map (fun kv => JStr (fst kv)) fields)
  | JStr s => Ok (map (fun c => JStr (String c EmptyString)) (list_ascii_of_string s))
  | _ => Raise TypeError
  end.

(** [v.startswith(prefix)] *)
Definition startswith (v : json) (prefix : string) : result bool :=
  match v with
  | JStr s => Ok (String.prefix prefix s)
  | _ => Raise AttributeError
  end.

Definition as_number (v : json) : option Z :=
  match v with
  | JNum n => Some n
  | JBool b => Some (if b then 1 else 0)
  | _ => None
  end.

(** [a > b] on the values a bitrate can be compared as: numbers by value,
    strings by code point; the other pairings are a [TypeError] here. *)
Definition gt (a b : json) : result bool :=
  match as_number a, as_number b with
  | Some x, Some y => Ok (y <? x)
  | _, _ =>
      match a, b with
      | JStr x, JStr y =>
          Ok (match String.compare x y with Gt => true | _ => false end)
      | _, _ => Raise TypeError
      end
  end.

(** The loop of [max(generator, key=key)] over the items not yet pulled
    from the generator [(item for item in items if keep(item))]; [best] is
    the maximal item so far with its key.  A later item replaces it only
    when its key is strictly greater. *)
Fixpoint max_loop (keep : json -> result bool) (key : json -> result json)
    (items : list json) (best : option (json * json)) : result (option (json * json)) :=
  match items with
  | [] => Ok best
  | item :: rest =>
      match keep item with
      | Raise e => Raise e
      | Ok false => max_loop keep key rest best
      | Ok true =>
          match key item with
          | Raise e => Raise e
          | Ok k =>
              match best with
              | None => max_loop keep key rest (Some (item, k))
              | Some (_, kbest) =>
                  match gt k kbest with
                  | Raise e => Raise e
                  | Ok true => max_loop keep key rest (Some (item, k))
                  | Ok false => max_loop keep key rest best
                  end
              end
          end
      end
  end.

Definition max_by (keep : json -> result bool) (key : json -> result json)
    (items : list json) : result json :=
  match max_loop keep key items None with
  | Raise e => Raise e
  | Ok None => Raise (ValueError "max() arg is an empty sequence")
  | Ok (Some (item, _)) => Ok item
  end.

Definition is_audio (frmt : json) : result bool :=
  match getitem frmt "type" with
  | Raise e => Raise e
  | Ok t => startswith t "audio/"
  end.

Definition bitrate (frmt : json) : result json := getitem frmt "bitrate".

Definition get_audio_url (video : json) : M URL :=
  formats <- lift (getitem video "adaptiveFormats") ;;
  items <- lift (iter formats) ;;
  best <- lift (max_by is_audio bitrate items) ;;
  id <- lift (getitem video "videoId") ;;
  itag <- lift (getitem best "itag") ;;
  response <- request (mkRequest GET (host_url settings ++ "/latest_version")
                         [("id"%string, id); ("itag"%string, itag);
                          ("local"%string, JStr "true")] [] []) ;;
  if negb (ok response)
  then raise (BadResponseError (FLit ("Error fetching audio: " ++ reason response)))
  else ret (final_url response).

(** *** Translator *)

(** [r".+watch\?v=(?P<id>[a-zA-Z0-9_-]+)$"] *)
Definition INVIDIOUS_ID_RE : regex :=
  seq [Plus dot; Lit "watch?v="; Group "id" (Plus id_char); Dollar].

(** The verbose pattern, without its white space:
    [https?://(?:(?:www\.)?youtube\.[a-z]+/watch(?:\?v=|/)|youtu\.be(?:/watch/*\?v=|/))(?P<id>[0-9a-zA-Z-_]+)(?:$|&)] *)
Definition YOUTUBE_ID_RE : regex :=
  seq [Lit "http"; Opt (Lit "s"); Lit "://";
       Alt (seq [Opt (Lit "www."); Lit "youtube."; Plus lower; Lit "/watch";
                 Alt (Lit "?v=") (Lit "/")])
           (seq [Lit "youtu.be";
                 Alt (seq [Lit "/watch"; Star (char "/"); Lit "?v="]) (Lit "/")]);
       Group "id" (Plus id_char);
       Alt Dollar (Lit "&")].

(** [r"https?://open\.spotify\.com/track/(?P<id>\w+)"] *)
Definition SPOTIFY_ID_RE : regex :=
  seq [Lit "http"; Opt (Lit "s"); Lit "://open.spotify.com/track/";
       Group "id" (Plus word)].

Definition fifteen_minutes : Z := timedelta_minutes 15.

Definition update_spotify_token : M unit :=
  expires_at <- read_expires_at ;;
  early <- match expires_at with
           | None => ret false
           | Some e =>
               t <- datetime_now ;;
               ret (e <? t + fifteen_minutes)
           end ;;
  if early : bool then ret tt
  else
    response <- request (mkRequest POST "https://accounts.spotify.com/api/token" [] []
                           [("grant_type"%string, "client_credentials"%string);
                            ("client_id"%string, client_id settings);
                            ("client_secret"%string, client_secret settings)]) ;;
    let data := body response in
    error <- lift (get data "error") ;;
    if is_str error "invalid_client"
    then raise (ValueError "Invalid spotify client id or secret")
    else
      token <- lift (getitem data "access_token") ;;
      write_token token ;;;
      t <- datetime_now ;;
      expires_in <- lift (getitem data "expires_in") ;;
      match as_number expires_in with
      | None => raise TypeError
      | Some seconds => write_expires_at (t + timedelta_seconds seconds)
      end.

(** [a + b] for the operands of the query, which must both be [str] *)
Definition str_add (a : json) (b : string) : result string :=
  match a with
  | JStr s => Ok (s ++ b)%string
  | _ => Raise TypeError
  end.

(** [[artist["name"] for artist in artists]], left to right *)
Fixpoint artist_names (artists : list json) : result (list json) :=
  match artists with
  | [] => Ok []
  | artist :: rest =>
      match getitem artist "name" with
      | Raise e => Raise e
      | Ok n =>
          match artist_names rest with
          | Raise e => Raise e
          | Ok ns => Ok (n :: ns)
          end
      end
  end.

Fixpoint all_str (vs : list json) : result (list string) :=
  match vs with
  | [] => Ok []
  | JStr s :: rest =>
      match all_str rest with
      | Raise e => Raise e
      | Ok ss => Ok (s :: ss)
      end
  | _ :: _ => Raise TypeError
  end.

(** [sep.join(vs)] *)
Definition join (sep : string) (vs : list json) : result string :=
  match all_str vs with
  | Raise e => Raise e
  | Ok ss => Ok (String.concat sep ss)
  end.

(** [data["name"] + " by " + " ".join(artist["name"] for artist in data["artists"])] *)
Definition spotify_query (data : json) : result string :=
  match getitem data "name" with
  | Raise e => Raise e
  | Ok name =>
      match str_add name " by " with
      | Raise e => Raise e
      | Ok lhs =>
          match getitem data "artists" with
          | Raise e => Raise e
          | Ok artists =>
              match iter artists with
              | Raise e => Raise e
              | Ok items =>
                  match artist_names items with
                  | Raise e => Raise e
                  | Ok names =>
                      match join " " names with
                      | Raise e => Raise e
                      | Ok joined => Ok (lhs ++ joined)%string
                      end
                  end
              end
          end
      end
  end.

(** [search[0]] *)
Definition first_item (search : json) : result json :=
  match search with
  | JArr (x :: _) => Ok x
  | JArr [] => Raise IndexError
  | JStr EmptyString => Raise IndexError
  | JStr (String c _) => Ok (JStr (String c EmptyString))
  | JObj _ => Raise (KeyError "0")
  | _ => Raise TypeError
  end.

Definition spotify_to_youtube_id (track_id : string) : M json :=
  update_spotify_token ;;;
  token <- read_token ;;
  response <- request (mkRequest GET ("https://api.spotify.com/v1/tracks/" ++ track_id) []
                         [("Authorization"%string, FVal "Bearer " token)] []) ;;
  if status response =? 401 then raise (BadResponseError (FLit "Invalid spotify token"))
  else if negb (status response =? 200)
  then raise (BadResponseError (FLit "Could not get track data"))
  else if negb (ok response)
  then raise (BadResponseError
                (FLit (str_of_int (status response) ++ " Could not get track data: "
                       ++ reason response)))
  else
    let data := body response in
    q <- lift (spotify_query data) ;;
    search <- search_for q ;;
    first <- lift (first_item search) ;;
    lift (getitem first "videoId").

Definition to_invidious_id (url : string) : M json :=
  match re_match INVIDIOUS_ID_RE url with
  | Some m => ret (group m "id")
  | None =>
      match re_match YOUTUBE_ID_RE url with
      | Some m => ret (group m "id")
      | None =>
          match re_match SPOTIFY_ID_RE url with
          | Some m =>
              match group m "id" with
              | JStr track_id => spotify_to_youtube_id track_id
              | _ => raise TypeError
              end
          | None => ret JNull
          end
      end
  end.

End Network.

(** ** PolyPlayer.loop *)

(** The command [loop]; the name of the field [loop] of [ChannelPlayer] is
    taken, hence [loop_command]. *)
Definition set_loop (b : bool) (p : ChannelPlayer) : ChannelPlayer :=
  mkChannelPlayer (connection p) (queue p) (now_playing p) b.

Definition loop_command (players : Players) (ctx : Context) (value : option bool)
    : Players * Reply :=
  match in_voice_channel ctx with
  | None => (players, mkReply "You must be in a voice channel to use this command" true)
  | Some channel =>
      match players_get players channel with
      | None => (players, mkReply "Nothing is currently playing" true)
      | Some player =>
          let player :=
            match value with
            | None => set_loop (negb (loop player)) player
            | Some b => set_loop b player
            end in
          (players_update players channel player,
           mkReply ("Looping is now " ++ (if loop player then "enabled" else "disabled"))%string
             false)
      end
  end.

(** ** PolyPlayer.queue *)

(** [str(v)] as an f-string applies it to a JSON value.  The text of a
    list or of a dict is given by [repr], which stays a parameter. *)
Definition py_str (repr : json -> string) (v : json) : string :=
  match v with
  | JNull => "None"
  | JBool true => "True"
  | JBool false => "False"
  | JNum n => str_of_int n
  | JStr s => s
  | _ => repr v
  end.

(** [f"[{video_info.data['title']}]({video_info.yt_url})"] *)
Definition markdown_link (repr : json -> string) (video_info : VideoInfo)
    : result string :=
  match getitem (data video_info) "title" with
  | Raise e => Raise e
  | Ok title => Ok ("[" ++ py_str repr title ++ "](" ++ yt_url video_info ++ ")")%string
  end.

(** The list comprehension over [enumerate(player.queue, start=i)]. *)
Fixpoint formated_values (repr : json -> string) (i : Z) (q : list VideoInfo)
    : result (list string) :=
  match q with
  | [] => Ok []
  | video_info :: rest =>
      match markdown_link repr video_info with
      | Raise e => Raise e
      | Ok link =>
          match formated_values repr (i + 1) rest with
          | Raise e => Raise e
          | Ok lines =>
              Ok ((str_of_int i ++ ". " ++ link ++ String Re.newline "")%string :: lines)
          end
      end
  end.

(** The [while] loop: entries are moved from the front of [values] to the
    end of [description] until the next one would take it past 2000
    characters.  Returns the description and the entries left. *)
Fixpoint fill_description (description : string) (values : list string)
    : string * list string :=
  match values with
  | [] => (description, [])
  | value :: rest =>
      if 2000 <? Z.of_nat (String.length description) + Z.of_nat (String.length value)
      then (description, values)
      else fill_description (description ++ value)%string rest
  end.

(** The value of the field "Up next". *)
Definition up_next (values : list string) : string :=
  match fill_description "" values with
  | (description, []) => description
  | (description, remaining) =>
      (description ++ "and " ++ str_of_int (Z.of_nat (List.length remaining))
       ++ " more...")%string
  end.

Record Field : Type := mkField {
  field_name : string;
  field_value : string;
  inline : bool
}.

(** The embed of the reply; its colour, drawn from a seeded random
    generator, is left out. *)
Record Embed : Type := mkEmbed {
  embed_title : string;
  embed_footer : string;
  embed_fields : list Field
}.

Inductive Answer : Type :=
| Text (r : Reply)
| Rich (embed : Embed) (ephemeral : bool).

(** The command [queue]; the name of the field [queue] of [ChannelPlayer]
    is taken, hence [queue_command]. *)
Definition queue_command (repr : json -> string) (players : Players) (tr : Transport)
    (ctx : Context) (ephemeral : bool) : result Answer :=
  match in_voice_channel ctx with
  | None => Ok (Text (mkReply "You must be in a voice channel to use this command" true))
  | Some channel =>
      match players_get players channel with
      | None => Ok (Text (mkReply "Nothing is currently playing" true))
      | Some player =>
          if match queue player with
             | [] => negb (is_playing (tr (connection player)))
             | _ :: _ => false
             end
          then Ok (Text (mkReply "Nothing is currently playing" true))
          else
            match
              match now_playing player with
              | None => Ok []
              | Some playing =>
                  match markdown_link repr playing with
                  | Raise e => Raise e
                  | Ok link => Ok [mkField "Now playing" link false]
                  end
              end
            with
            | Raise e => Raise e
            | Ok fields1 =>
                match queue player with
                | [] => Ok (Rich (mkEmbed "Queue" "PolyPlayer" fields1) ephemeral)
                | _ :: _ =>
                    match formated_values repr 1 (queue player) with
                    | Raise e => Raise e
                    | Ok values =>
                        Ok (Rich (mkEmbed "Queue" "PolyPlayer"
                                    (fields1 ++ [mkField "Up next" (up_next values) false]))
                              ephemeral)
                    end
                end
            end
      end
  end.

(** ** Invidious.__init__, load and find_best_host *)

(** [s.rstrip(c)] for one character [c] *)
Fixpoint rstrip (c : ascii) (s : string) : string :=
  match s with
  | EmptyString => EmptyString
  | String a s' =>
      match rstrip c s' with
      | EmptyString => if Ascii.eqb a c then EmptyString else String a EmptyString
      | r => String a r
      end
  end.

(** The field [host_url] after [__init__]:
    [host_url.rstrip("/") if host_url else None] *)
Definition Invidious_init (host_url : option string) : option string :=
  match host_url with
  | None => None
  | Some EmptyString => None
  | Some h => Some (rstrip "/" h)
  end.

(** [_, instance = entry] *)
Definition unpack2 (entry : json) : result (json * json) :=
  match iter entry with
  | Raise e => Raise e
  | Ok [a; b] => Ok (a, b)
  | Ok [] => Raise (ValueError "not enough values to unpack (expected 2, got 0)")
  | Ok [_] => Raise (ValueError "not enough values to unpack (expected 2, got 1)")
  | Ok _ => Raise (ValueError "too many values to unpack (expected 2)")
  end.

Definition is_none (v : json) : bool :=
  match v with
  | JNull => true
  | _ => false
  end.

(** The condition of the list comprehension; the four items of the tuple
    are evaluated before [all] looks at them. *)
Definition usable (instance : json) : result bool :=
  match get instance "stats" with
  | Raise e => Raise e
  | Ok stats =>
      match get instance "api" with
      | Raise e => Raise e
      | Ok api =>
          match get instance "type" with
          | Raise e => Raise e
          | Ok type =>
              match get instance "uri" with
              | Raise e => Raise e
              | Ok uri =>
                  Ok (negb (is_none stats) && truthy api && is_str type "https"
                      && truthy uri)
              end
          end
      end
  end.

(** [[instance for _, instance in entries if ...]] *)
Fixpoint instances_list (entries : list json) : result (list json) :=
  match entries with
  | [] => Ok []
  | entry :: rest =>
      match unpack2 entry with
      | Raise e => Raise e
      | Ok (_, instance) =>
          match usable instance with
          | Raise e => Raise e
          | Ok keep =>
              match instances_list rest with
              | Raise e => Raise e
              | Ok l => Ok (if keep then instance :: l else l)
              end
          end
      end
  end.

(** [instance["stats"]["usage"]["users"]["activeHalfyear"]] *)
Definition active_users (instance : json) : result json :=
  match getitem instance "stats" with
  | Raise e => Raise e
  | Ok stats =>
      match getitem stats "usage" with
      | Raise e => Raise e
      | Ok usage =>
          match getitem usage "users" with
          | Raise e => Raise e
          | Ok users => getitem users "activeHalfyear"
          end
      end
  end.

Definition instances_request : Request :=
  mkRequest GET "https://api.invidious.io/instances.json" [] [] [].

Definition find_best_host (env : Env) : M json :=
  response <- request env instances_request ;;
  entries <- lift (iter (body response)) ;;
  instances <- lift (instances_list entries) ;;
  best <- lift (max_by (fun _ => Ok true) active_users instances) ;;
  lift (getitem best "uri").

(** [load]: the host to use, found when none is configured. *)
Definition load (env : Env) (host_url : option string) : M json :=
  match host_url with
  | None | Some EmptyString => find_best_host env
  | Some h => ret (JStr h)
  end.

(** ** PolyPlayer.play *)

(** [players[k] = p]: the entry of an existing key is replaced where it
    stands, a new key goes to the end. *)
Fixpoint players_set (players : Players) (k : ChannelID) (p : ChannelPlayer) : Players :=
  match players with
  | [] => [(k, p)]
  | (k', p') :: rest =>
      if k =? k' then (k', p) :: rest else (k', p') :: players_set rest k p
  end.

(** [str(error)] for the message of an exception. *)
Definition render (repr : json -> string) (msg : fstring) : string :=
  match msg with
  | FLit s => s
  | FVal prefix v => (prefix ++ py_str repr v)%string
  end.

(** What the command does besides the requests: calls on voice clients,
    [channel.connect()] and replies. *)
Inductive PlayCall : Type :=
| Voice (c : VoiceCall)
| Resume (c : VoiceClient)
| Connect (channel : ChannelID).

Record Bot : Type := mkBot {
  registry : Players;
  network : State;
  voice : list PlayCall;
  replies : list Reply
}.

Definition say (r : Reply) (b : Bot) : Bot :=
  mkBot (registry b) (network b) (voice b) (replies b ++ [r]).

Definition did (c : PlayCall) (b : Bot) : Bot :=
  mkBot (registry b) (network b) (voice b ++ [c]) (replies b).

Definition with_network (s : State) (b : Bot) : Bot :=
  mkBot (registry b) s (voice b) (replies b).

Definition with_registry (ps : Players) (b : Bot) : Bot :=
  mkBot ps (network b) (voice b) (replies b).

(** The body of the [try]: the id, the metadata and the audio URL, or
    [None] when the input is no URL the translator knows. *)
Definition resolution (repr : json -> string) (env : Env) (settings : Settings)
    (url : string) : M (option (json * json * URL)) :=
  video_id <- to_invidious_id env settings url ;;
  if is_none video_id then ret None
  else
    video <- get_video env settings (py_str repr video_id) ;;
    audio_url <- get_audio_url env settings video ;;
    ret (Some (video_id, video, audio_url)).

(** The item [play] puts into the queue. *)
Definition new_item (repr : json -> string) (url : string) (video_id video : json)
    (audio_url : URL) : VideoInfo :=
  mkVideoInfo video audio_url url
    ("https://www.youtube.com/watch?v=" ++ py_str repr video_id)%string.

(** The command [play].  [connect channel] is what [channel.connect()]
    gives; the registry is the same before and after the requests. *)
Definition play (repr : json -> string) (env : Env) (settings : Settings)
    (tr : Transport) (connect : ChannelID -> result VoiceClient)
    (ctx : Context) (url : option string) (b : Bot) : result unit * Bot :=
  match in_voice_channel ctx with
  | None =>
      (Ok tt, say (mkReply "You must be in a voice channel to use this command" true) b)
  | Some channel =>
      let resumed_b :=
        match players_get (registry b) channel with
        | None => (false, b)
        | Some player =>
            let b := did (Voice (IsPaused (connection player))) b in
            if is_paused (tr (connection player))
            then match queue player with
                 | [] => (true, did (Resume (connection player)) b)
                 | _ :: _ => (false, b)
                 end
            else (false, b)
        end in
      let resumed := fst resumed_b in
      let b := snd resumed_b in
      match url with
      | None =>
          if resumed then (Ok tt, b)
          else (Ok tt, say (mkReply "You must provide a URL" true) b)
      | Some url =>
          match resolution repr env settings url (network b) with
          | (Raise (BadResponseError error), s) =>
              (Ok tt,
               say (mkReply ("Error: " ++ render repr error) false) (with_network s b))
          | (Raise e, s) => (Raise e, with_network s b)
          | (Ok None, s) => (Ok tt, say (mkReply "Invalid URL" true) (with_network s b))
          | (Ok (Some (video_id, video, audio_url)), s) =>
              let b := with_network s b in
              let item := new_item repr url video_id video audio_url in
              match
                match players_get (registry b) channel with
                | Some player => (Ok player, b)
                | None =>
                    match connect channel with
                    | Ok c => (Ok (mkChannelPlayer c [] None false), did (Connect channel) b)
                    | Raise e => (Raise e, did (Connect channel) b)
                    end
                end
              with
              | (Raise e, b) => (Raise e, b)
              | (Ok player, b) =>
                  let player := set_queue (queue player ++ [item]) player in
                  let b := with_registry (players_set (registry b) channel player) b in
                  match getitem video "title" with
                  | Raise e => (Raise e, b)
                  | Ok title =>
                      (Ok tt,
                       say (mkReply ("Added [" ++ py_str repr title ++ "](<"
                                     ++ yt_url item ++ ">) to the queue") false) b)
                  end
              end
          end
      end
  end.

(** ** Readings of the registry *)

(** The pending sequence of the channel [k], when it has a queue. *)
Definition pending (ps : Players) (k : ChannelID) : option (list VideoInfo) :=
  option_map queue (players_get ps k).

(** What [skip] does to a player with a non-empty queue: the two
    assignments of the source, one after the other. *)
Definition skipped (player : ChannelPlayer) (steps : Z) : ChannelPlayer :=
  let q := slice_from (queue player) steps in
  set_queue (if loop player then q ++ slice_to q steps else q) player.

(** ** Readings of a tick *)

(** No call of the tick raises. *)
Definition quiet (tr : Transport) : Prop :=
  forall c, disconnect_raises (tr c) = None /\ play_raises (tr c) = None.

(** The voice client [c] reports neither playing nor paused. *)
Definition idle_on (tr : Transport) (c : VoiceClient) : Prop :=
  is_playing (tr c) = false /\ is_paused (tr c) = false.

(** The sources [play] was called with on the voice client [c], in order. *)
Fixpoint plays_on (c : VoiceClient) (l : list VoiceCall) : list AudioSource :=
  match l with
  | [] => []
  | Play c' src :: rest =>
      if Nat.eqb c' c then src :: plays_on c rest else plays_on c rest
  | _ :: rest => plays_on c rest
  end.

(** What [play] is called with for the item [x]. *)
Definition source_of (x : VideoInfo) : AudioSource :=
  mkAudioSource (audio_url x) reconnect_options.

(** Every player registered under another key than [k] has another voice
    client than [c]. *)
Definition own_connection (k : ChannelID) (c : VoiceClient) (ps : Players) : Prop :=
  forall k' p', In (k', p') ps -> k' <> k -> connection p' <> c.

(** What the iterations for the channels [over] leave alone, seen from the
    channel [k] with the voice client [c]: its entry, the sources played
    on [c], the shape of the registry and the keys not in [over]. *)
Definition framed (k : ChannelID) (c : VoiceClient) (t t' : Tick)
    (over : list ChannelID) : Prop :=
  players_get (players t') k = players_get (players t) k
  /\ plays_on c (calls t') = plays_on c (calls t)
  /\ (NoDup (keys (players t)) -> NoDup (keys (players t')))
  /\ (own_connection k c (players t) -> own_connection k c (players t'))
  /\ (forall g', In g' (keys (players t)) -> ~ In g' over ->
                 In g' (keys (players t'))).

(** Consecutive runs of the task, one per transport reading, up to the
    first that raises; the calls of all of them, in order. *)
Fixpoint ticks (trs : list Transport) (ps : Players)
    : result unit * Players * list VoiceCall :=
  match trs with
  | [] => (Ok tt, ps, [])
  | tr :: rest =>
      match play_queue tr ps with
      | (Ok _, t) =>
          match ticks rest (players t) with
          | (r, ps', cs) => (r, ps', calls t ++ cs)
          end
      | (Raise e, t) => (Raise e, players t, calls t)
      end
  end.

(** The voice client [c] was asked to disconnect. *)
Definition disconnected (c : VoiceClient) (l : list VoiceCall) : Prop :=
  In (Disconnect c) l.

(** The strings of [l], one after the other. *)
Definition glue (l : list string) : string := fold_right String.append "" l.

(** ** Readings of the patterns *)

(** A pattern without a group. *)
Fixpoint groupless (r : regex) : bool :=
  match r with
  | Cat r1 r2 | Alt r1 r2 => groupless r1 && groupless r2
  | Opt r1 => groupless r1
  | Group _ _ => false
  | Lit _ | Star _ | Plus _ | Dollar => true
  end.

(** Any character but the question mark. *)
Definition no_query (c : ascii) : bool := negb (char "?" c).

(** The end of a match: record the groups. *)
Definition done : string -> captures -> option captures := fun _ caps => Some caps.

(** ** Readings of exceptions *)

(** Every exception a computation can raise is one of [P]. *)
Definition raises_only {A : Type} (P : exn -> Prop) (m : M A) : Prop :=
  forall s e, fst (m s) = Raise e -> P e.

(** Any exception but [BadResponseError]. *)
Definition not_bad_response (e : exn) : Prop :=
  match e with
  | BadResponseError _ => False
  | _ => True
  end.

(** The two [BadResponseError]s of [spotify_to_youtube_id], or another
    kind of exception. *)
Definition track_error (e : exn) : Prop :=
  e = BadResponseError (FLit "Invalid spotify token")
  \/ e = BadResponseError (FLit "Could not get track data")
  \/ not_bad_response e.

(** The request for the metadata of a track, with the token sent. *)
Definition track_request (track_id : string) (token : json) : Request :=
  mkRequest GET ("https://api.spotify.com/v1/tracks/" ++ track_id) []
    [("Authorization", FVal "Bearer " token)] [].

(** ** Readings of max *)

(** An item whose filter gives a boolean and whose key is a number. *)
Definition rated (keep : json -> result bool) (key : json -> result json)
    (item : json) : Prop :=
  exists (b : bool) (n : Z), keep item = Ok b /\ key item = Ok (JNum n).

(** [best], of key [n], is the first of the kept items of [items] that
    have the greatest key. *)
Definition first_greatest (keep : json -> result bool) (key : json -> result json)
    (items : list json) (best : json) (n : Z) : Prop :=
  exists l1 l2,
    items = l1 ++ best :: l2
    /\ keep best = Ok true
    /\ key best = Ok (JNum n)
    /\ (forall item r, In item l1 -> keep item = Ok true -> key item = Ok (JNum r) ->
                       r < n)
    /\ (forall item r, In item l2 -> keep item = Ok true -> key item = Ok (JNum r) ->
                       r <= n).

(** The instance of a directory entry qualifies. *)
Definition qualifies (instance : json) : bool :=
  match usable instance with
  | Ok b => b
  | Raise _ => false
  end.

(** A directory as the endpoint returns it: a list of pairs of a name and
    an instance. *)
Definition directory (l : list (json * json)) : json :=
  JArr (map (fun e => JArr [fst e; snd e]) l).

(** The last character of [s] is [c]. *)
Fixpoint ends_with (c : ascii) (s : string) : bool :=
  match s with
  | EmptyString => false
  | String a EmptyString => Ascii.eqb a c
  | String _ s' => ends_with c s'
  end.

(** [n] times the character [c]. *)
Fixpoint times (c : ascii) (n : nat) : string :=
  match n with
  | O => EmptyString
  | S n' => String c (times c n')
  end.

(** ** Readings of the network code *)

(** The test [inner] makes on a response: [data.get("error")] is there
    and true as a condition. *)
Definition carries_error (data : json) : bool :=
  match get data "error" with
  | Ok e => truthy e
  | Raise _ => false
  end.

(** The request [inner] sends for [video_id]. *)
Definition video_request (settings : Settings) (video_id : string) : Request :=
  mkRequest GET (host_url settings ++ "/api/v1/videos/" ++ video_id) [] [] [].

(** The request [update_spotify_token] sends. *)
Definition token_request (settings : Settings) : Request :=
  mkRequest POST "https://accounts.spotify.com/api/token" [] []
    [("grant_type"%string, "client_credentials"%string);
     ("client_id"%string, client_id settings);
     ("client_secret"%string, client_secret settings)].

(** The token exchanges among the requests sent. *)
Definition token_exchanges (l : list Request) : nat :=
  List.length (filter (fun r => match meth r with POST => true | GET => false end) l).

(** What follows [.+] in [INVIDIOUS_ID_RE]. *)
Definition after_dots : regex :=
  seq [Lit "watch?v="; Group "id" (Plus id_char); Dollar].

(** A format whose media type is a string and whose bitrate is a number. *)
Definition numeric_format (frmt : json) : Prop :=
  exists (audio : bool) (rate : Z),
    is_audio frmt = Ok audio /\ bitrate frmt = Ok (JNum rate).

(** The request [get_audio_url] sends for the format tagged [itag]. *)
Definition audio_request (settings : Settings) (id itag : json) : Request :=
  mkRequest GET (host_url settings ++ "/latest_version")
    [("id", id); ("itag", itag); ("local", JStr "true")] [] [].

(** A computation that sends no request, whatever its outcome. *)
Definition silent {A : Type} (m : M A) : Prop :=
  forall s, sent (snd (m s)) = sent s.

Definition succeeded {A : Type} (r : result A) : bool :=
  match r with
  | Ok _ => true
  | Raise _ => false
  end.

(** ** Sample values *)

Definition item (name : string) : VideoInfo :=
  mkVideoInfo (JObj [("title"%string, JStr name)])
    ("https://audio.example/" ++ name)%string
    ("https://input.example/" ++ name)%string
    ("https://www.youtube.com/watch?v=" ++ name)%string.

(** A command sent by a guild member connected to the voice channel [k]. *)
Definition member_in (k : ChannelID) : Context := mkContext true true (Some k).

(** A transport on which nothing plays and no call raises, and one on
    which the voice client 2 is playing. *)
Definition all_idle : Transport := fun _ => mkVoiceStatus false false None None.

Definition busy_2 : Transport :=
  fun c => if Nat.eqb c 2 then mkVoiceStatus true false None None
           else mkVoiceStatus false false None None.

(** Two channels: 7 loops over [X, Y], 8 has one item pending. *)
Definition two_channels : Players :=
  [(7, mkChannelPlayer 1%nat [item "X"; item "Y"] None true);
   (8, mkChannelPlayer 2%nat [item "Z"] None false)].

(** A transport on which [play] on the voice client 1 raises. *)
Definition play_fails_1 : Transport :=
  fun c => if Nat.eqb c 1
           then mkVoiceStatus false false None
                  (Some (ClientException "Not connected to voice."))
           else mkVoiceStatus false false None None.

(** An upstream whose first answer to a lookup carries an error and whose
    later answers are the metadata. *)
Definition flaky_env : Env :=
  mkEnv (fun n r =>
           match n with
           | O => mkResponse 200 "OK" (url r)
                    (JObj [("error"%string,
                            JStr "The video returned by YouTube isn't the requested one")])
           | _ => mkResponse 200 "OK" (url r)
                    (JObj [("videoId"%string, JStr "abc123");
                           ("title"%string, JStr "Song")])
           end)
        (fun _ => 0).

Definition sample_settings : Settings := mkSettings "https://inv.example" "id" "secret".

Definition fresh_state : State := mkState [] 0 JNull None.

Definition format (type : string) (rate : Z) (itag : string) : json :=
  JObj [("type"%string, JStr type); ("bitrate"%string, JNum rate);
        ("itag"%string, JStr itag)].

(** Metadata with two audio formats, and metadata with none. *)
Definition video_with_audio : json :=
  JObj [("videoId"%string, JStr "abc123");
        ("adaptiveFormats"%string,
         JArr [format "video/mp4" 900000 "137"; format "audio/mp4" 130000 "140";
               format "audio/webm" 160000 "251"; format "audio/webm" 70000 "250"])].

Definition video_without_audio : json :=
  JObj [("videoId"%string, JStr "abc123");
        ("adaptiveFormats"%string,
         JArr [format "video/mp4" 900000 "137"; format "video/webm" 500000 "248"])].

(** Track metadata as the Spotify API returns it, reduced to what the
    code reads. *)
Definition artist (name : string) : json := JObj [("name"%string, JStr name)].

Definition track (name : string) (artists : list string) : json :=
  JObj [("name"%string, JStr name); ("artists"%string, JArr (map artist artists))].

(** The token endpoint grants a token for an hour, the track endpoint
    knows one track, the search finds two videos.  The clock stands at
    [1000] seconds. *)
Definition spotify_env : Env :=
  mkEnv (fun _ r =>
           match meth r with
           | POST => mkResponse 200 "OK" (url r)
                       (JObj [("access_token"%string, JStr "granted");
                              ("expires_in"%string, JNum 3600)])
           | GET =>
               if String.prefix "https://api.spotify.com/" (url r)
               then mkResponse 200 "OK" (url r) (track "Song" ["Artist"])
               else mkResponse 200 "OK" (url r)
                      (JArr [JObj [("videoId"%string, JStr "first")];
                             JObj [("videoId"%string, JStr "second")]])
           end)
        (fun _ => timedelta_seconds 1000).

(** A cached token that expires in an hour, one that expires in a minute
    and one that expired a minute ago, on the clock of [spotify_env]. *)
Definition cached (expires_at : Z) : State :=
  mkState [] 0 (JStr "cached") (Some expires_at).

Definition valid_state : State := cached (timedelta_seconds 1000 + timedelta_minutes 60).
Definition expiring_state : State := cached (timedelta_seconds 1000 + timedelta_minutes 1).
Definition expired_state : State := cached (timedelta_seconds 1000 - timedelta_minutes 1).

(** Two resolutions of a third-party track, one after the other. *)
Definition resolve_twice (env : Env) (settings : Settings) (track_id : string) : M json :=
  bind (spotify_to_youtube_id env settings track_id)
       (fun _ => spotify_to_youtube_id env settings track_id).

(** A directory of three instances: one without statistics, and two that
    qualify. *)
Definition instance (uri type : string) (users : option Z) : json :=
  JObj [("uri", JStr uri); ("type", JStr type); ("api", JBool true);
        ("stats",
         match users with
         | None => JNull
         | Some n =>
             JObj [("usage", JObj [("users", JObj [("activeHalfyear", JNum n)])])]
         end)].

Definition sample_directory : list (json * json) :=
  [(JStr "quiet.example", instance "https://quiet.example" "https" None);
   (JStr "small.example", instance "https://small.example" "https" (Some 120));
   (JStr "large.example", instance "https://large.example" "https" (Some 4500))].

Definition directory_env : Env :=
  mkEnv (fun _ r => mkResponse 200 "OK" (url r) (directory sample_directory))
        (fun _ => 0).

(** An upstream for a whole [play]: the item lookup, then the audio URL. *)
Definition video_env : Env :=
  mkEnv (fun _ r =>
           if String.prefix "https://inv.example/api/v1/videos/" (url r)
           then mkResponse 200 "OK" (url r) video_with_audio
           else mkResponse 200 "OK" "https://inv.example/videoplayback?itag=251" JNull)
        (fun _ => 0).

Definition no_repr : json -> string := fun _ => "".

Definition new_bot (ps : Players) : Bot := mkBot ps fresh_state [] [].

(** * Properties *)

(** ** Slices and the registry *)

Lemma slice_from_nonneg {A : Type} (l : list A) (n : Z) :
  0 <= n -> slice_from l n = skipn (Z.to_nat n) l.
Proof.
  intros Hn. unfold slice_from, slice_bound.
  destruct (Z.ltb_spec n 0) as [H|H]; [lia|].
  destruct (Z.le_gt_cases n (Z.of_nat (List.length l))) as [Hle|Hgt].
  - rewrite Z.min_l by lia. reflexivity.
  - rewrite Z.min_r by lia. rewrite Nat2Z.id.
    rewrite skipn_all. symmetry. apply skipn_all2. lia.
Qed.

Lemma slice_to_nonneg {A : Type} (l : list A) (n : Z) :
  0 <= n -> slice_to l n = firstn (Z.to_nat n) l.
Proof.
  intros Hn. unfold slice_to, slice_bound.
  destruct (Z.ltb_spec n 0) as [H|H]; [lia|].
  destruct (Z.le_gt_cases n (Z.of_nat (List.length l))) as [Hle|Hgt].
  - rewrite Z.min_l by lia. reflexivity.
  - rewrite Z.min_r by lia. rewrite Nat2Z.id.
    rewrite firstn_all. symmetry. apply firstn_all2. lia.
Qed.

Lemma slice_from_neg {A : Type} (l : list A) (k : Z) :
  0 < k <= Z.of_nat (List.length l) ->
  slice_from l (- k) = skipn (List.length l - Z.to_nat k) l.
Proof.
  intros Hk. unfold slice_from, slice_bound.
  destruct (Z.ltb_spec (- k) 0) as [H|H]; [|lia].
  f_equal. lia.
Qed.

Lemma slice_to_neg_all {A : Type} (l : list A) (k : Z) :
  Z.of_nat (List.length l) <= k -> 0 < k -> slice_to l (- k) = [].
Proof.
  intros Hk Hpos. unfold slice_to, slice_bound.
  destruct (Z.ltb_spec (- k) 0) as [H|H]; [|lia].
  rewrite Z.max_l by lia. reflexivity.
Qed.

Lemma players_get_update (ps : Players) (k : ChannelID) (p p' : ChannelPlayer) :
  players_get ps k = Some p -> players_get (players_update ps k p') k = Some p'.
Proof.
  induction ps as [|[k0 p0] ps IH]; simpl; [discriminate|].
  destruct (k =? k0) eqn:E; simpl; rewrite E; auto.
Qed.

Lemma players_get_update_other (ps : Players) (k k' : ChannelID) (p' : ChannelPlayer) :
  k' <> k -> players_get (players_update ps k p') k' = players_get ps k'.
Proof.
  intros Hne. induction ps as [|[k0 p0] ps IH]; simpl; [reflexivity|].
  destruct (k =? k0) eqn:E; simpl.
  - apply Z.eqb_eq in E. subst k0.
    destruct (Z.eqb_spec k' k) as [->|_]; [contradiction|reflexivity].
  - rewrite IH. reflexivity.
Qed.

Lemma keys_update (ps : Players) (k : ChannelID) (p' : ChannelPlayer) :
  keys (players_update ps k p') = keys ps.
Proof.
  induction ps as [|[k0 p0] ps IH]; simpl; [reflexivity|].
  destruct (k =? k0); simpl; [reflexivity|]. f_equal. exact IH.
Qed.

(** ** skip *)

Lemma skip_nonempty (ps : Players) (ctx : Context) (k : ChannelID)
    (p : ChannelPlayer) (steps : Z) :
  in_voice_channel ctx = Some k ->
  players_get ps k = Some p ->
  queue p <> [] ->
  skip ps ctx steps =
    (players_update ps k (skipped p steps),
     mkReply ("Skipped " ++ str_of_int steps ++ " songs") false).
Proof.
  intros Hctx Hget Hq. unfold skip. rewrite Hctx, Hget.
  destruct (queue p) as [|x q] eqn:E; [congruence|].
  unfold skipped. rewrite E. simpl loop.
  destruct (loop p); reflexivity.
Qed.

Lemma skip_empty (ps : Players) (ctx : Context) (k : ChannelID) (p : ChannelPlayer)
    (steps : Z) :
  in_voice_channel ctx = Some k ->
  players_get ps k = Some p ->
  queue p = [] ->
  skip ps ctx steps = (ps, mkReply "Nothing is currently playing" true).
Proof.
  intros Hctx Hget Hq. unfold skip. rewrite Hctx, Hget, Hq. reflexivity.
Qed.

Lemma pending_skip (ps : Players) (ctx : Context) (k : ChannelID)
    (p : ChannelPlayer) (steps : Z) :
  in_voice_channel ctx = Some k ->
  players_get ps k = Some p ->
  queue p <> [] ->
  players_get (fst (skip ps ctx steps)) k = Some (skipped p steps).
Proof.
  intros Hctx Hget Hq. rewrite (skip_nonempty ps ctx k p steps Hctx Hget Hq).
  simpl. apply players_get_update with (p := p). exact Hget.
Qed.

(** With the loop flag set and [0 < n <= len(P)], the items appended are
    the first [n] of what is left after the cut, not the [n] removed. *)
Lemma skipped_loop (p : ChannelPlayer) (n : Z) :
  loop p = true ->
  0 < n <= Z.of_nat (List.length (queue p)) ->
  queue (skipped p n) =
    skipn (Z.to_nat n) (queue p) ++ firstn (Z.to_nat n) (skipn (Z.to_nat n) (queue p)).
Proof.
  intros Hl Hn. unfold skipped. rewrite Hl. simpl.
  rewrite slice_from_nonneg by lia. rewrite slice_to_nonneg by lia. reflexivity.
Qed.

(** The pending sequence after a skip of [0 < n <= len(P)] items of a
    looping channel. *)
Lemma skip_loop_pending (ps : Players) (ctx : Context) (k : ChannelID)
    (p : ChannelPlayer) (n : Z) :
  in_voice_channel ctx = Some k ->
  players_get ps k = Some p ->
  loop p = true ->
  0 < n <= Z.of_nat (List.length (queue p)) ->
  pending (fst (skip ps ctx n)) k
  = Some (skipn (Z.to_nat n) (queue p)
          ++ firstn (Z.to_nat n) (skipn (Z.to_nat n) (queue p))).
Proof.
  intros Hctx Hget Hloop Hn.
  assert (Hq : queue p <> []).
  { intros E. rewrite E in Hn. simpl in Hn. lia. }
  unfold pending. rewrite (pending_skip ps ctx k p n Hctx Hget Hq). simpl.
  f_equal. apply (skipped_loop p n Hloop Hn).
Qed.

(** C2.  With the loop flag set, [skip] does not put back the items it
    removed: on pending [A, B, C] and one step it leaves [B, C, B], where
    the items removed followed by the rest would be [B, C, A].  The slice
    [player.queue[:steps]] is taken after [player.queue] was cut. *)
Theorem skip_loop_appends_kept_items :
  let P := [item "A"; item "B"; item "C"] in
  let ps := [(7, mkChannelPlayer 1%nat P None true)] in
  pending (fst (skip ps (member_in 7) 1)) 7 = Some [item "B"; item "C"; item "B"]
  /\ skipn 1 P ++ firstn 1 P = [item "B"; item "C"; item "A"]
  /\ [item "B"; item "C"; item "B"] <> skipn 1 P ++ firstn 1 P.
Proof.
  cbv zeta. split; [reflexivity|]. split; [reflexivity|].
  intros H. vm_compute in H. discriminate H.
Qed.

(** C6, as stated, fails when pending is empty: the command does not
    report a skip, it gives the ephemeral reply it gives for a channel
    that has no queue at all. *)
Lemma skip_empty_pending_is_refused :
  let ps := [(7, mkChannelPlayer 1%nat [] None false)] in
  snd (skip ps (member_in 7) 1) <> mkReply "Skipped 1 songs" false
  /\ snd (skip ps (member_in 7) 1) = mkReply "Nothing is currently playing" true
  /\ snd (skip ps (member_in 7) 1) = snd (skip [] (member_in 7) 1).
Proof.
  cbv zeta. split; [|split; reflexivity].
  intros H. vm_compute in H. discriminate H.
Qed.

(** C6, amended.  For a channel with a queue and [n >= len(pending)], the
    pending sequence is empty after [skip]; when it was not empty before,
    the command replies that it skipped [n] songs, and when it was already
    empty the registry is unchanged and the reply is the ephemeral
    "Nothing is currently playing". *)
Theorem skip_at_least_pending (ps : Players) (ctx : Context) (k : ChannelID)
    (p : ChannelPlayer) (n : Z) :
  in_voice_channel ctx = Some k ->
  players_get ps k = Some p ->
  Z.of_nat (List.length (queue p)) <= n ->
  pending (fst (skip ps ctx n)) k = Some []
  /\ (queue p <> [] ->
        snd (skip ps ctx n) = mkReply ("Skipped " ++ str_of_int n ++ " songs") false)
  /\ (queue p = [] ->
        skip ps ctx n = (ps, mkReply "Nothing is currently playing" true)).
Proof.
  intros Hctx Hget Hn. split; [|split].
  - destruct (queue p) as [|x q] eqn:E.
    + rewrite (skip_empty ps ctx k p n Hctx Hget E). simpl.
      unfold pending. rewrite Hget. simpl. rewrite E. reflexivity.
    + assert (Hq : queue p <> []) by (rewrite E; discriminate).
      unfold pending. rewrite (pending_skip ps ctx k p n Hctx Hget Hq). simpl.
      f_equal. rewrite E in *.
      assert (Hs : slice_from (x :: q) n = []).
      { rewrite slice_from_nonneg by lia. apply skipn_all2. lia. }
      rewrite Hs. destruct (loop p); [|reflexivity].
      unfold slice_to. simpl. apply firstn_nil.
  - intros Hq. rewrite (skip_nonempty ps ctx k p n Hctx Hget Hq). reflexivity.
  - intros Hq. apply (skip_empty ps ctx k p n Hctx Hget Hq).
Qed.

Lemma skip_at_least_pending_witness :
  pending (fst (skip [(7, mkChannelPlayer 1%nat [item "A"; item "B"] None true)]
                  (member_in 7) 5)) 7 = Some [].
Proof.
  apply (skip_at_least_pending
           [(7, mkChannelPlayer 1%nat [item "A"; item "B"] None true)]
           (member_in 7) 7 (mkChannelPlayer 1%nat [item "A"; item "B"] None true) 5).
  - reflexivity.
  - reflexivity.
  - simpl. lia.
Defined.

(** C10.  On a non-empty pending sequence [P], [skip] with 0 steps leaves
    [P] as it is, and [skip] with [-k] steps, [0 < k <= len(P)], leaves the
    last [k] items of [P], whatever the loop flag; for [k < len(P)] that
    is not [P]. *)
Theorem skip_nonpositive_steps (ps : Players) (ctx : Context) (c : ChannelID)
    (p : ChannelPlayer) :
  in_voice_channel ctx = Some c ->
  players_get ps c = Some p ->
  queue p <> [] ->
  pending (fst (skip ps ctx 0)) c = Some (queue p)
  /\ forall k : Z,
       0 < k <= Z.of_nat (List.length (queue p)) ->
       let last_k := skipn (List.length (queue p) - Z.to_nat k) (queue p) in
       pending (fst (skip ps ctx (- k))) c = Some last_k
       /\ List.length last_k = Z.to_nat k
       /\ (k < Z.of_nat (List.length (queue p)) -> last_k <> queue p).
Proof.
  intros Hctx Hget Hq. split.
  - unfold pending. rewrite (pending_skip ps ctx c p 0 Hctx Hget Hq). simpl.
    f_equal. rewrite slice_from_nonneg by lia. simpl.
    destruct (loop p); [|reflexivity].
    rewrite slice_to_nonneg by lia. simpl. apply app_nil_r.
  - intros k Hk. cbv zeta.
    assert (Hlen : List.length (skipn (List.length (queue p) - Z.to_nat k) (queue p))
                   = Z.to_nat k) by (rewrite length_skipn; lia).
    split; [|split].
    + unfold pending. rewrite (pending_skip ps ctx c p (- k) Hctx Hget Hq). simpl.
      f_equal. rewrite slice_from_neg by exact Hk.
      destruct (loop p); [|reflexivity].
      rewrite slice_to_neg_all; [apply app_nil_r| rewrite Hlen |]; lia.
    + exact Hlen.
    + intros Hlt Heq. rewrite Heq in Hlen. lia.
Qed.

Lemma skip_nonpositive_steps_witness :
  pending (fst (skip [(7, mkChannelPlayer 1%nat [item "A"; item "B"; item "C"] None true)]
                  (member_in 7) (- 2))) 7 = Some [item "B"; item "C"].
Proof.
  assert (Hq : queue (mkChannelPlayer 1%nat [item "A"; item "B"; item "C"] None true) <> [])
    by discriminate.
  destruct (skip_nonpositive_steps
              [(7, mkChannelPlayer 1%nat [item "A"; item "B"; item "C"] None true)]
              (member_in 7) 7
              (mkChannelPlayer 1%nat [item "A"; item "B"; item "C"] None true)
              eq_refl eq_refl Hq) as [_ Hneg].
  assert (Hk : 0 < 2 <= Z.of_nat (List.length [item "A"; item "B"; item "C"]))
    by (simpl; lia).
  destruct (Hneg 2 Hk) as [Hlast _]. exact Hlast.
Defined.

(** ** play_queue *)

Lemma players_get_In (ps : Players) (k : ChannelID) (p : ChannelPlayer) :
  players_get ps k = Some p -> In (k, p) ps.
Proof.
  induction ps as [|[k0 p0] ps IH]; simpl; [discriminate|].
  destruct (Z.eqb_spec k k0) as [->|Hne]; intros H.
  - injection H as ->. left. reflexivity.
  - right. apply IH. exact H.
Qed.

Lemma players_get_split (ps : Players) (k : ChannelID) (p : ChannelPlayer) :
  NoDup (keys ps) ->
  players_get ps k = Some p ->
  exists pre post,
    ps = pre ++ (k, p) :: post /\ ~ In k (keys pre) /\ ~ In k (keys post).
Proof.
  induction ps as [|[k0 p0] ps IH]; simpl; [discriminate|].
  intros Hnd Hget. inversion Hnd as [|? ? Hnin Hnd']; subst.
  destruct (Z.eqb_spec k k0) as [->|Hne].
  - injection Hget as ->. exists [], ps. simpl. auto.
  - destruct (IH Hnd' Hget) as (pre & post & -> & Hpre & Hpost).
    exists ((k0, p0) :: pre), post. simpl. repeat split; auto.
    intros [H|H]; [congruence|contradiction].
Qed.

Lemma In_players_update (ps : Players) (g : ChannelID) (pl : ChannelPlayer)
    (k' : ChannelID) (p' : ChannelPlayer) :
  In (k', p') (players_update ps g pl) -> In (k', p') ps \/ (k' = g /\ p' = pl).
Proof.
  induction ps as [|[k0 p0] ps IH]; simpl; [tauto|].
  destruct (Z.eqb_spec g k0) as [->|Hne]; simpl.
  - intros [H|H]; [injection H as <- <-; right; auto | left; right; exact H].
  - intros [H|H]; [left; left; exact H|].
    destruct (IH H) as [H'|H']; [left; right; exact H' | right; exact H'].
Qed.

Lemma players_del_present (ps : Players) (g : ChannelID) :
  In g (keys ps) -> exists ps', players_del ps g = Ok ps'.
Proof.
  induction ps as [|[k0 p0] ps IH]; simpl; [tauto|].
  intros Hin. destruct (Z.eqb_spec g k0) as [->|Hne]; [eauto|].
  destruct Hin as [H|H]; [congruence|].
  destruct (IH H) as [ps' ->]. eauto.
Qed.

Lemma players_del_In (ps ps' : Players) (g : ChannelID) (k' : ChannelID)
    (p' : ChannelPlayer) :
  players_del ps g = Ok ps' -> In (k', p') ps' -> In (k', p') ps.
Proof.
  revert ps'. induction ps as [|[k0 p0] ps IH]; simpl; [discriminate|].
  intros ps' Hdel Hin. destruct (Z.eqb_spec g k0) as [->|Hne].
  - injection Hdel as <-. right. exact Hin.
  - destruct (players_del ps g) as [rest|e] eqn:E; [|discriminate].
    injection Hdel as <-. destruct Hin as [H|H]; [left; exact H|].
    right. apply (IH rest eq_refl H).
Qed.

Lemma players_del_keys (ps ps' : Players) (g k' : ChannelID) :
  players_del ps g = Ok ps' ->
  (In k' (keys ps') -> In k' (keys ps))
  /\ (In k' (keys ps) -> k' <> g -> In k' (keys ps')).
Proof.
  revert ps'. induction ps as [|[k0 p0] ps IH]; simpl; [discriminate|].
  intros ps' Hdel. destruct (Z.eqb_spec g k0) as [->|Hne].
  - injection Hdel as <-. split; [auto|]. intros [H|H] Hk; [congruence|exact H].
  - destruct (players_del ps g) as [rest|e] eqn:E; [|discriminate].
    injection Hdel as <-. destruct (IH rest eq_refl) as [H1 H2]. simpl.
    split; intros [H|H]; auto.
Qed.

Lemma players_del_NoDup (ps ps' : Players) (g : ChannelID) :
  players_del ps g = Ok ps' -> NoDup (keys ps) -> NoDup (keys ps').
Proof.
  revert ps'. induction ps as [|[k0 p0] ps IH]; simpl; [discriminate|].
  intros ps' Hdel Hnd. inversion Hnd as [|? ? Hnin Hnd']; subst.
  destruct (Z.eqb_spec g k0) as [->|Hne].
  - injection Hdel as <-. exact Hnd'.
  - destruct (players_del ps g) as [rest|e] eqn:E; [|discriminate].
    injection Hdel as <-. simpl. constructor.
    + intros Hin. apply Hnin. apply (players_del_keys ps rest g k0 E). exact Hin.
    + apply (IH rest eq_refl Hnd').
Qed.

Lemma players_del_get_other (ps ps' : Players) (g k : ChannelID) :
  players_del ps g = Ok ps' -> k <> g -> players_get ps' k = players_get ps k.
Proof.
  revert ps'. induction ps as [|[k0 p0] ps IH]; simpl; [discriminate|].
  intros ps' Hdel Hne. destruct (Z.eqb_spec g k0) as [->|Hg].
  - injection Hdel as <-.
    destruct (Z.eqb_spec k k0) as [->|_]; [contradiction|reflexivity].
  - destruct (players_del ps g) as [rest|e] eqn:E; [|discriminate].
    injection Hdel as <-. simpl. rewrite (IH rest eq_refl Hne). reflexivity.
Qed.

Lemma plays_on_app (c : VoiceClient) (l1 l2 : list VoiceCall) :
  plays_on c (l1 ++ l2) = plays_on c l1 ++ plays_on c l2.
Proof.
  induction l1 as [|x l1 IH]; simpl; [reflexivity|].
  destruct x; try exact IH.
  destruct (Nat.eqb c0 c); simpl; rewrite IH; reflexivity.
Qed.

Lemma play_queue_loop_app (tr : Transport) (l1 l2 : Players) (t : Tick) :
  play_queue_loop tr (l1 ++ l2) t =
    match play_queue_loop tr l1 t with
    | (Ok _, t1) => play_queue_loop tr l2 t1
    | (Raise e, t1) => (Raise e, t1)
    end.
Proof.
  revert t. induction l1 as [|[g pl] l1 IH]; intros t; simpl; [reflexivity|].
  destruct (play_queue_body tr g pl t) as [[[]|e] t1]; [apply IH|reflexivity].
Qed.

Section OneChannel.

(** The channel [k] under observation and its voice client [c]. *)
Variable tr : Transport.
Variable k : ChannelID.
Variable c : VoiceClient.
Hypothesis tr_quiet : quiet tr.

Lemma play_queue_body_other (g : ChannelID) (pl : ChannelPlayer) (t : Tick) :
  g <> k ->
  connection pl <> c ->
  In g (keys (players t)) ->
  exists t', play_queue_body tr g pl t = (Ok tt, t') /\ framed k c t t' [g].
Proof.
  intros Hg Hc Hin. unfold play_queue_body, framed.
  destruct (tr_quiet (connection pl)) as [Hd Hp].
  destruct (is_playing (tr (connection pl))).
  { eexists. split; [reflexivity|]. simpl. repeat split; auto.
    rewrite plays_on_app. simpl. apply app_nil_r. }
  destruct (is_paused (tr (connection pl))).
  { eexists. split; [reflexivity|]. simpl. repeat split; auto.
    rewrite !plays_on_app. simpl. rewrite !app_nil_r. reflexivity. }
  destruct (queue pl) as [|x rest] eqn:Eq.
  - rewrite Hd. simpl players.
    destruct (players_del_present (players t) g Hin) as [ps' Hdel]. rewrite Hdel.
    eexists. split; [reflexivity|]. simpl. repeat split.
    + apply (players_del_get_other _ _ _ _ Hdel). congruence.
    + rewrite !plays_on_app. simpl. rewrite !app_nil_r. reflexivity.
    + apply (players_del_NoDup _ _ _ Hdel).
    + intros Hown k' p' Hin' Hk'. apply (Hown k' p'); [|exact Hk'].
      apply (players_del_In _ _ _ _ _ Hdel Hin').
    + intros g' Hg' Hnot. apply (players_del_keys _ _ g g' Hdel); [exact Hg'|].
      intros ->. apply Hnot. left. reflexivity.
  - rewrite Hp. eexists. split; [reflexivity|]. simpl. repeat split.
    + apply players_get_update_other. congruence.
    + rewrite !plays_on_app. simpl.
      destruct (Nat.eqb_spec (connection pl) c) as [E|_]; [contradiction|].
      rewrite !app_nil_r. reflexivity.
    + rewrite keys_update. auto.
    + intros Hown k' p' Hin' Hk'.
      destruct (In_players_update _ _ _ _ _ Hin') as [H|[-> ->]].
      * apply (Hown k' p' H Hk').
      * destruct (loop pl); exact Hc.
    + intros g' Hg' _. rewrite keys_update. exact Hg'.
Qed.

Lemma framed_trans (t t1 t2 : Tick) (l1 l2 : list ChannelID) :
  framed k c t t1 l1 -> framed k c t1 t2 l2 -> framed k c t t2 (l1 ++ l2).
Proof.
  intros (A1 & A2 & A3 & A4 & A5) (B1 & B2 & B3 & B4 & B5).
  unfold framed. repeat split.
  - congruence.
  - congruence.
  - auto.
  - auto.
  - intros g' Hg' Hnot. apply B5.
    + apply A5; [exact Hg'|]. intros H. apply Hnot. apply in_or_app. left. exact H.
    + intros H. apply Hnot. apply in_or_app. right. exact H.
Qed.

(** A run of the loop over channels other than [k], none of which raises. *)
Lemma play_queue_loop_others (snapshot : Players) (t : Tick) :
  NoDup (keys snapshot) ->
  ~ In k (keys snapshot) ->
  (forall g pl, In (g, pl) snapshot -> connection pl <> c) ->
  (forall g, In g (keys snapshot) -> In g (keys (players t))) ->
  exists t', play_queue_loop tr snapshot t = (Ok tt, t') /\ framed k c t t' (keys snapshot).
Proof.
  revert t. induction snapshot as [|[g pl] snapshot IH]; intros t Hnd Hk Hconn Hkeys.
  - exists t. split; [reflexivity|]. unfold framed. repeat split; auto.
  - simpl in *. inversion Hnd as [|? ? Hnin Hnd']; subst.
    destruct (play_queue_body_other g pl t) as (t1 & Hbody & Hframe).
    + intros ->. apply Hk. left. reflexivity.
    + apply (Hconn g pl). left. reflexivity.
    + apply Hkeys. left. reflexivity.
    + rewrite Hbody.
      destruct (IH t1 Hnd') as (t2 & Hloop & Hframe2).
      * intros H. apply Hk. right. exact H.
      * intros g' pl' H. apply (Hconn g' pl'). right. exact H.
      * intros g' Hg'. destruct Hframe as (_ & _ & _ & _ & Hkeep).
        apply Hkeep; [apply Hkeys; right; exact Hg'|].
        intros [->|[]]. contradiction.
      * exists t2. split; [exact Hloop|].
        apply (framed_trans t t1 t2 [g] (keys snapshot) Hframe Hframe2).
Qed.

End OneChannel.

(** One tick, seen from a looping channel that is idle and has something
    pending: the head goes to the tail and is the one item played. *)
Lemma play_queue_rotates (tr : Transport) (ps : Players) (k : ChannelID)
    (p : ChannelPlayer) (x : VideoInfo) (rest : list VideoInfo) :
  quiet tr ->
  idle_on tr (connection p) ->
  NoDup (keys ps) ->
  own_connection k (connection p) ps ->
  players_get ps k = Some p ->
  loop p = true ->
  queue p = x :: rest ->
  exists t,
    play_queue tr ps = (Ok tt, t)
    /\ players_get (players t) k
       = Some (mkChannelPlayer (connection p) (rest ++ [x]) (Some x) true)
    /\ plays_on (connection p) (calls t) = [source_of x]
    /\ NoDup (keys (players t))
    /\ own_connection k (connection p) (players t).
Proof.
  intros Hquiet [Hplaying Hpaused] Hnd Hown Hget Hloop Hq.
  set (c := connection p) in *.
  destruct (players_get_split ps k p Hnd Hget) as (pre & post & Eps & Hpre & Hpost).
  assert (Hkeys : keys ps = keys pre ++ k :: keys post).
  { rewrite Eps. unfold keys. rewrite map_app. reflexivity. }
  assert (Hnd2 : NoDup (keys pre ++ k :: keys post)) by (rewrite <- Hkeys; exact Hnd).
  unfold play_queue.
  assert (Hsnap : play_queue_loop tr ps (mkTick ps [] [])
                  = play_queue_loop tr (pre ++ (k, p) :: post) (mkTick ps [] []))
    by (rewrite <- Eps; reflexivity).
  rewrite Hsnap. clear Hsnap. rewrite play_queue_loop_app.
  (* the channels before k *)
  destruct (play_queue_loop_others tr k c Hquiet pre (mkTick ps [] []))
    as (t1 & Hloop1 & F1 & F2 & F3 & F4 & F5).
  { apply (NoDup_app_remove_r _ _ Hnd2). }
  { exact Hpre. }
  { intros g pl Hin. apply (Hown g pl).
    - rewrite Eps. apply in_or_app. left. exact Hin.
    - intros ->. apply Hpre. apply (in_map fst _ _ Hin). }
  { intros g Hg. simpl. rewrite Hkeys. apply in_or_app. left. exact Hg. }
  rewrite Hloop1. simpl in F1, F2, F3, F4, F5.
  (* the channel k *)
  simpl. unfold play_queue_body. fold c. rewrite Hplaying, Hpaused, Hq.
  destruct (Hquiet c) as [_ Hplay]. rewrite Hplay. simpl.
  rewrite Hloop. simpl.
  set (p' := set_now_playing (Some x) (set_queue (rest ++ [x]) (set_queue rest p))).
  set (t2 := call _ _).
  assert (Hp' : p' = mkChannelPlayer c (rest ++ [x]) (Some x) true).
  { unfold p', set_now_playing, set_queue. simpl. rewrite Hloop. reflexivity. }
  assert (Hget1 : players_get (players t1) k = Some p) by (rewrite F1; exact Hget).
  (* the channels after k *)
  destruct (play_queue_loop_others tr k c Hquiet post t2)
    as (t3 & Hloop3 & G1 & G2 & G3 & G4 & G5).
  { apply NoDup_app_remove_l in Hnd2. inversion Hnd2; assumption. }
  { exact Hpost. }
  { intros g pl Hin. apply (Hown g pl).
    - rewrite Eps. apply in_or_app. right. right. exact Hin.
    - intros ->. apply Hpost. apply (in_map fst _ _ Hin). }
  { intros g Hg. unfold t2. simpl. rewrite keys_update. apply F5.
    - rewrite Hkeys. apply in_or_app. right. right. exact Hg.
    - intros Hin. apply (NoDup_remove_2 _ _ _ Hnd2). apply in_or_app.
      apply NoDup_remove_1 in Hnd2.
      exfalso. revert Hnd2 Hin Hg. clear. intros Hnd Hin Hg.
      induction (keys pre) as [|a l IH]; simpl in *; [contradiction|].
      inversion Hnd as [|? ? Hnin Hnd']; subst.
      destruct Hin as [->|Hin]; [apply Hnin; apply in_or_app; right; exact Hg|].
      apply (IH Hnd' Hin). }
  exists t3. split; [exact Hloop3|].
  unfold t2 in G1, G2, G3, G4. simpl in G1, G2, G3, G4.
  repeat split.
  - rewrite G1. rewrite <- Hp'. apply players_get_update with (p := p). exact Hget1.
  - rewrite G2. rewrite !plays_on_app. rewrite F2. simpl.
    rewrite Nat.eqb_refl. reflexivity.
  - apply G3. rewrite keys_update. apply F3. exact Hnd.
  - apply G4. intros k' pl Hin Hk'.
    destruct (In_players_update _ _ _ _ _ Hin) as [H|[-> _]]; [|contradiction].
    apply (F4 Hown k' pl H Hk').
Qed.

(** C3.  A looping channel with pending [X, Y], idle at each of three
    consecutive ticks none of which raises: the ticks play X, then Y, then
    X on its voice client, each item going from the head to the tail, so
    that two items are pending after every tick. *)
Theorem three_ticks_loop (tr1 tr2 tr3 : Transport) (ps : Players) (k : ChannelID)
    (p : ChannelPlayer) (X Y : VideoInfo) :
  quiet tr1 -> quiet tr2 -> quiet tr3 ->
  idle_on tr1 (connection p) -> idle_on tr2 (connection p) -> idle_on tr3 (connection p) ->
  NoDup (keys ps) ->
  own_connection k (connection p) ps ->
  players_get ps k = Some p ->
  loop p = true ->
  queue p = [X; Y] ->
  exists t1 t2 t3,
    play_queue tr1 ps = (Ok tt, t1)
    /\ play_queue tr2 (players t1) = (Ok tt, t2)
    /\ play_queue tr3 (players t2) = (Ok tt, t3)
    /\ plays_on (connection p) (calls t1) = [source_of X]
    /\ plays_on (connection p) (calls t2) = [source_of Y]
    /\ plays_on (connection p) (calls t3) = [source_of X]
    /\ players_get (players t1) k
       = Some (mkChannelPlayer (connection p) [Y; X] (Some X) true)
    /\ players_get (players t2) k
       = Some (mkChannelPlayer (connection p) [X; Y] (Some Y) true)
    /\ players_get (players t3) k
       = Some (mkChannelPlayer (connection p) [Y; X] (Some X) true).
Proof.
  intros Q1 Q2 Q3 I1 I2 I3 Hnd Hown Hget Hloop Hq.
  destruct (play_queue_rotates tr1 ps k p X [Y] Q1 I1 Hnd Hown Hget Hloop Hq)
    as (t1 & R1 & G1 & P1 & N1 & O1).
  simpl in G1.
  destruct (play_queue_rotates tr2 (players t1) k
              (mkChannelPlayer (connection p) [Y; X] (Some X) true) Y [X]
              Q2 I2 N1 O1 G1 eq_refl eq_refl)
    as (t2 & R2 & G2 & P2 & N2 & O2).
  simpl in G2, P2, O2.
  destruct (play_queue_rotates tr3 (players t2) k
              (mkChannelPlayer (connection p) [X; Y] (Some Y) true) X [Y]
              Q3 I3 N2 O2 G2 eq_refl eq_refl)
    as (t3 & R3 & G3 & P3 & N3 & O3).
  simpl in G3, P3.
  exists t1, t2, t3. repeat split; assumption.
Qed.

Lemma three_ticks_loop_witness :
  exists t1 t2 t3,
    play_queue all_idle two_channels = (Ok tt, t1)
    /\ play_queue busy_2 (players t1) = (Ok tt, t2)
    /\ play_queue all_idle (players t2) = (Ok tt, t3)
    /\ plays_on 1%nat (calls t1) = [source_of (item "X")]
    /\ plays_on 1%nat (calls t2) = [source_of (item "Y")]
    /\ plays_on 1%nat (calls t3) = [source_of (item "X")]
    /\ players_get (players t1) 7
       = Some (mkChannelPlayer 1%nat [item "Y"; item "X"] (Some (item "X")) true)
    /\ players_get (players t2) 7
       = Some (mkChannelPlayer 1%nat [item "X"; item "Y"] (Some (item "Y")) true)
    /\ players_get (players t3) 7
       = Some (mkChannelPlayer 1%nat [item "Y"; item "X"] (Some (item "X")) true).
Proof.
  apply (three_ticks_loop all_idle busy_2 all_idle two_channels 7
           (mkChannelPlayer 1%nat [item "X"; item "Y"] None true) (item "X") (item "Y")).
  - intros c. split; reflexivity.
  - intros c. unfold busy_2. destruct (Nat.eqb c 2); split; reflexivity.
  - intros c. split; reflexivity.
  - split; reflexivity.
  - split; reflexivity.
  - split; reflexivity.
  - simpl. constructor.
    + simpl. intros [H|[]]. discriminate H.
    + constructor; [intros []|constructor].
  - intros k' p' [H|[H|[]]] Hk'.
    + injection H as <- _. contradiction.
    + injection H as _ <-. simpl. discriminate.
  - reflexivity.
  - reflexivity.
  - reflexivity.
Defined.

(** Whatever its outcome, the body of the loop enters one iteration and
    touches the entry of its own key only. *)
Lemma play_queue_body_local (tr : Transport) (g : ChannelID) (pl : ChannelPlayer)
    (t : Tick) :
  visited (snd (play_queue_body tr g pl t)) = visited t ++ [g]
  /\ forall k', k' <> g ->
       players_get (players (snd (play_queue_body tr g pl t))) k'
       = players_get (players t) k'.
Proof.
  unfold play_queue_body.
  destruct (is_playing (tr (connection pl))); [simpl; auto|].
  destruct (is_paused (tr (connection pl))); [simpl; auto|].
  destruct (queue pl) as [|x rest].
  - destruct (disconnect_raises (tr (connection pl))); [simpl; auto|].
    simpl players. destruct (players_del (players t) g) as [ps'|e] eqn:E; simpl.
    + split; [reflexivity|]. intros k' Hk'. apply (players_del_get_other _ _ _ _ E Hk').
    + auto.
  - destruct (play_raises (tr (connection pl))); simpl;
      (split; [reflexivity|]); intros k' Hk'; apply players_get_update_other; exact Hk'.
Qed.

Lemma play_queue_loop_visits (tr : Transport) (snapshot : Players) (t : Tick) :
  match play_queue_loop tr snapshot t with
  | (Ok _, t') =>
      visited t' = visited t ++ keys snapshot
  | (Raise e, t') =>
      exists pre g pl post t1,
        snapshot = pre ++ (g, pl) :: post
        /\ play_queue_loop tr pre t = (Ok tt, t1)
        /\ play_queue_body tr g pl t1 = (Raise e, t')
        /\ visited t' = visited t ++ keys pre ++ [g]
        /\ forall k', ~ In k' (keys pre ++ [g]) ->
             players_get (players t') k' = players_get (players t) k'
  end.
Proof.
  revert t. induction snapshot as [|[g pl] snapshot IH]; intros t; simpl.
  - symmetry. apply app_nil_r.
  - destruct (play_queue_body_local tr g pl t) as [Hv Hp].
    destruct (play_queue_body tr g pl t) as [[[]|e] t1] eqn:Hbody; simpl in Hv, Hp.
    + specialize (IH t1).
      destruct (play_queue_loop tr snapshot t1) as [[[]|e] t'] eqn:Hloop.
      * rewrite IH, Hv. rewrite <- app_assoc. reflexivity.
      * destruct IH as (pre & g' & pl' & post & t2 & -> & Hpre & Hb & Hvis & Hsame).
        exists ((g, pl) :: pre), g', pl', post, t2. simpl. rewrite Hbody.
        repeat split; auto.
        -- rewrite Hvis, Hv. rewrite <- app_assoc. reflexivity.
        -- intros k' Hk'. simpl in Hk'.
           rewrite Hsame by (intros H; apply Hk'; right; exact H).
           apply Hp. intros ->. apply Hk'. left. reflexivity.
    + exists [], g, pl, snapshot, t. simpl. repeat split; auto.
Qed.

(** C7, as stated, fails: when [play] raises for the first channel of the
    snapshot, the tick ends with that exception after one iteration; the
    second channel is not visited, nothing is played on its voice client
    and its entry is as before, although it would be played in a tick in
    which nothing raises. *)
Lemma play_queue_exception_ends_tick :
  fst (play_queue play_fails_1 two_channels)
    = Raise (ClientException "Not connected to voice.")
  /\ visited (snd (play_queue play_fails_1 two_channels)) = [7]
  /\ plays_on 2%nat (calls (snd (play_queue play_fails_1 two_channels))) = []
  /\ players_get (players (snd (play_queue play_fails_1 two_channels))) 8
     = players_get two_channels 8
  /\ plays_on 2%nat (calls (snd (play_queue all_idle two_channels)))
     = [source_of (item "Z")].
Proof.
  repeat split; reflexivity.
Qed.

(** The item is moved to the tail before [play] is called: when [play]
    raises, the queue is already rotated and the item is already the one
    now playing. *)
Example rotation_precedes_play :
  players_get (players (snd (play_queue play_fails_1 two_channels))) 7
  = Some (mkChannelPlayer 1%nat [item "Y"; item "X"] (Some (item "X")) true).
Proof. reflexivity. Qed.

(** C7, amended.  A tick goes through the snapshot in order.  When no
    iteration raises, it has visited every channel of the snapshot.  When
    the iteration of one channel raises, the tick ends there with that
    exception: it has visited the channels before that one and that one,
    and the entries of all other channels are as they were when the tick
    started. *)
Theorem play_queue_ends_at_first_exception (tr : Transport) (ps : Players) :
  match play_queue tr ps with
  | (Ok _, t) => visited t = keys ps
  | (Raise e, t) =>
      exists pre g pl post t1,
        ps = pre ++ (g, pl) :: post
        /\ play_queue_loop tr pre (mkTick ps [] []) = (Ok tt, t1)
        /\ play_queue_body tr g pl t1 = (Raise e, t)
        /\ visited t = keys pre ++ [g]
        /\ forall k', ~ In k' (keys pre ++ [g]) ->
             players_get (players t) k' = players_get ps k'
  end.
Proof.
  unfold play_queue. apply (play_queue_loop_visits tr ps (mkTick ps [] [])).
Qed.

(** ** Invidious.get_video *)

Lemma inner_run (env : Env) (settings : Settings) (video_id : string) (s : State)
    (fields : list (string * json)) :
  let r := respond env (List.length (sent s)) (video_request settings video_id) in
  let s' := mkState (sent s ++ [video_request settings video_id]) (clock_reads s)
              (_spotify_token s) (_spotify_token_expires_at s) in
  body r = JObj fields ->
  inner env settings video_id s =
    if carries_error (body r)
    then (Raise (BadResponseError
                   (FVal "Error fetching video: "
                      match assoc "error" fields with Some e => e | None => JNull end)),
          s')
    else (Ok (body r), s').
Proof.
  intros r s' Hbody. unfold inner, bind, request, lift, carries_error.
  fold (video_request settings video_id). fold r. rewrite Hbody. simpl.
  destruct (assoc "error" fields) as [e|]; simpl.
  - destruct (truthy e); reflexivity.
  - reflexivity.
Qed.

(** C4.  [get_video] looks the item up once; when the answer carries an
    error it looks it up once more and no further.  It returns the first
    answer free of an error among these two, and raises
    [BadResponseError] when both carry one. *)
Theorem get_video_retries_once (env : Env) (settings : Settings) (video_id : string)
    (s : State) (f1 f2 : list (string * json)) :
  let req := video_request settings video_id in
  let r1 := respond env (List.length (sent s)) req in
  let r2 := respond env (S (List.length (sent s))) req in
  let out := get_video env settings video_id s in
  body r1 = JObj f1 ->
  body r2 = JObj f2 ->
  (carries_error (body r1) = false ->
     fst out = Ok (body r1) /\ sent (snd out) = sent s ++ [req])
  /\ (carries_error (body r1) = true ->
        sent (snd out) = sent s ++ [req; req]
        /\ (carries_error (body r2) = false -> fst out = Ok (body r2))
        /\ (carries_error (body r2) = true ->
              exists msg, fst out = Raise (BadResponseError msg)))
  /\ (succeeded (fst out) = true <->
        carries_error (body r1) = false \/ carries_error (body r2) = false).
Proof.
  intros req r1 r2 out H1 H2.
  pose proof (inner_run env settings video_id s f1 H1) as E1. fold req r1 in E1.
  set (s1 := mkState (sent s ++ [req]) (clock_reads s) (_spotify_token s)
               (_spotify_token_expires_at s)) in *.
  assert (H2' : body (respond env (List.length (sent s1)) req) = JObj f2).
  { unfold s1. simpl. rewrite length_app. simpl. rewrite Nat.add_1_r. exact H2. }
  pose proof (inner_run env settings video_id s1 f2 H2') as E2. fold req in E2.
  assert (Er : respond env (List.length (sent s1)) req = r2).
  { unfold s1, r2. simpl. rewrite length_app. simpl. rewrite Nat.add_1_r. reflexivity. }
  rewrite Er in E2. clear Er H2'.
  assert (Es : sent s1 ++ [req] = sent s ++ [req; req]).
  { unfold s1. simpl. rewrite <- app_assoc. reflexivity. }
  unfold out, get_video, try_except. rewrite E1.
  destruct (carries_error (body r1)) eqn:C1.
  - rewrite E2. destruct (carries_error (body r2)) eqn:C2; simpl.
    + split; [discriminate|]. split.
      * intros _. split; [exact Es|]. split; [discriminate|]. intros _. eauto.
      * split; [discriminate|]. intros [H|H]; discriminate H.
    + split; [discriminate|]. split.
      * intros _. split; [exact Es|]. split; [reflexivity|discriminate].
      * split; auto.
  - simpl. split; [auto|]. split; [discriminate|]. split; auto.
Qed.

Lemma get_video_retries_once_witness :
  sent (snd (get_video flaky_env sample_settings "abc123" fresh_state))
    = [video_request sample_settings "abc123"; video_request sample_settings "abc123"]
  /\ fst (get_video flaky_env sample_settings "abc123" fresh_state)
     = Ok (JObj [("videoId"%string, JStr "abc123"); ("title"%string, JStr "Song")]).
Proof.
  destruct (get_video_retries_once flaky_env sample_settings "abc123" fresh_state
              [("error"%string,
                JStr "The video returned by YouTube isn't the requested one")]
              [("videoId"%string, JStr "abc123"); ("title"%string, JStr "Song")]
              eq_refl eq_refl) as (_ & Hretry & _).
  destruct (Hretry eq_refl) as (Hsent & Hok & _).
  split; [exact Hsent | exact (Hok eq_refl)].
Defined.

(** ** Invidious.get_audio_url *)

Lemma max_loop_none_kept (key : json -> result json) (items : list json)
    (best : option (json * json)) :
  Forall (fun item => is_audio item = Ok false) items ->
  max_loop is_audio key items best = Ok best.
Proof.
  induction 1 as [|item items Hitem _ IH]; simpl; [reflexivity|].
  rewrite Hitem. exact IH.
Qed.

(** Without an audio format, [max] gets an empty sequence. *)
Lemma max_by_no_audio (items : list json) :
  Forall (fun item => is_audio item = Ok false) items ->
  max_by is_audio bitrate items = Raise (ValueError "max() arg is an empty sequence").
Proof.
  intros H. unfold max_by. rewrite (max_loop_none_kept bitrate items None H). reflexivity.
Qed.

(** On formats with numeric bitrates, the loop of [max] ends with an audio
    format of the list, or the one it started with, whose bitrate is not
    below that of any audio format of the list nor of the starting one. *)
Lemma max_loop_numeric (items : list json) :
  Forall numeric_format items ->
  forall (b0 : json) (n0 : Z),
  exists (b : json) (n : Z),
    max_loop is_audio bitrate items (Some (b0, JNum n0)) = Ok (Some (b, JNum n))
    /\ n0 <= n
    /\ ((b = b0 /\ n = n0)
        \/ (In b items /\ is_audio b = Ok true /\ bitrate b = Ok (JNum n)))
    /\ forall frmt rate,
         In frmt items -> is_audio frmt = Ok true -> bitrate frmt = Ok (JNum rate) ->
         rate <= n.
Proof.
  induction 1 as [|item items (audio & rate & Ha & Hb) _ IH]; intros b0 n0.
  - exists b0, n0. simpl. repeat split; [lia|auto|]. intros ? ? [].
  - simpl. rewrite Ha. destruct audio.
    + rewrite Hb. simpl. destruct (Z.ltb_spec n0 rate) as [Hlt|Hge].
      * destruct (IH item rate) as (b & n & Hrun & Hle & Hwho & Hmax).
        exists b, n. split; [exact Hrun|]. split; [lia|]. split.
        -- right. destruct Hwho as [[-> ->]|(Hin & Hau & Hbr)]; auto.
        -- intros frmt r [<-|Hin] Hau Hbr; [|eauto].
           rewrite Hb in Hbr. injection Hbr as <-. exact Hle.
      * destruct (IH b0 n0) as (b & n & Hrun & Hle & Hwho & Hmax).
        exists b, n. split; [exact Hrun|]. split; [exact Hle|]. split.
        -- destruct Hwho as [H|(Hin & Hau & Hbr)]; auto.
        -- intros frmt r [<-|Hin] Hau Hbr; [|eauto].
           rewrite Hb in Hbr. injection Hbr as <-. lia.
    + destruct (IH b0 n0) as (b & n & Hrun & Hle & Hwho & Hmax).
      exists b, n. split; [exact Hrun|]. split; [exact Hle|]. split.
      * destruct Hwho as [H|(Hin & Hau & Hbr)]; auto.
      * intros frmt r [<-|Hin] Hau Hbr; [|eauto]. congruence.
Qed.

(** [max] over formats with numeric bitrates: an error when none is audio,
    otherwise an audio format of greatest bitrate. *)
Lemma max_by_numeric (items : list json) :
  Forall numeric_format items ->
  match max_by is_audio bitrate items with
  | Ok best =>
      exists n, In best items /\ is_audio best = Ok true /\ bitrate best = Ok (JNum n)
                /\ forall frmt rate,
                     In frmt items -> is_audio frmt = Ok true ->
                     bitrate frmt = Ok (JNum rate) -> rate <= n
  | Raise e =>
      e = ValueError "max() arg is an empty sequence"
      /\ Forall (fun frmt => is_audio frmt = Ok false) items
  end.
Proof.
  unfold max_by.
  induction 1 as [|item items (audio & rate & Ha & Hb) Hrest IH]; simpl.
  - auto.
  - rewrite Ha. destruct audio.
    + rewrite Hb.
      destruct (max_loop_numeric items Hrest item rate)
        as (b & n & Hrun & Hle & Hwho & Hmax).
      rewrite Hrun. exists n. split; [|split; [|split]].
      * destruct Hwho as [[-> _]|(Hin & _)]; [left; reflexivity|right; exact Hin].
      * destruct Hwho as [[-> _]|(_ & Hau & _)]; assumption.
      * destruct Hwho as [[-> ->]|(_ & _ & Hbr)]; assumption.
      * intros frmt r [<-|Hin] Hau Hbr; [|eauto].
        rewrite Hb in Hbr. injection Hbr as <-. exact Hle.
    + destruct (max_loop is_audio bitrate items None) as [[[best kbest]|]|e].
      * destruct IH as (n & Hin & Hau & Hbr & Hmax). exists n.
        repeat split; auto.
        intros frmt r [<-|Hin'] Hau' Hbr'; [congruence|eauto].
      * destruct IH as [He Hall]. split; [exact He|]. constructor; assumption.
      * destruct IH as [He Hall]. split; [exact He|]. constructor; assumption.
Qed.

(** Without an audio format [get_audio_url] raises the error of [max] and
    sends nothing, whatever the upstream and the state. *)
Lemma get_audio_url_without_audio (env : Env) (settings : Settings) (video : json)
    (items : list json) (s : State) :
  getitem video "adaptiveFormats" = Ok (JArr items) ->
  Forall (fun frmt => is_audio frmt = Ok false) items ->
  get_audio_url env settings video s
    = (Raise (ValueError "max() arg is an empty sequence"), s).
Proof.
  intros Hformats Hnone. unfold get_audio_url, bind, lift.
  rewrite Hformats. simpl. rewrite (max_by_no_audio items Hnone). reflexivity.
Qed.

(** With an audio format, the one request sent is for an audio format of
    greatest bitrate. *)
Lemma get_audio_url_requests_best (env : Env) (settings : Settings) (video : json)
    (items : list json) (id : json) (s : State) :
  getitem video "adaptiveFormats" = Ok (JArr items) ->
  getitem video "videoId" = Ok id ->
  Forall numeric_format items ->
  Forall (fun frmt => exists itag, getitem frmt "itag" = Ok itag) items ->
  Exists (fun frmt => is_audio frmt = Ok true) items ->
  exists best n itag,
    In best items /\ is_audio best = Ok true /\ bitrate best = Ok (JNum n)
    /\ getitem best "itag" = Ok itag
    /\ (forall frmt rate,
          In frmt items -> is_audio frmt = Ok true ->
          bitrate frmt = Ok (JNum rate) -> rate <= n)
    /\ sent (snd (get_audio_url env settings video s))
       = sent s ++ [audio_request settings id itag].
Proof.
  intros Hformats Hid Hnum Htags Hsome.
  pose proof (max_by_numeric items Hnum) as Hmax.
  unfold get_audio_url, bind, lift. rewrite Hformats. simpl.
  destruct (max_by is_audio bitrate items) as [best|e].
  - destruct Hmax as (n & Hin & Hau & Hbr & Hle).
    rewrite Forall_forall in Htags. destruct (Htags best Hin) as [itag Htag].
    exists best, n, itag. rewrite Hid, Htag. unfold request.
    fold (audio_request settings id itag).
    repeat split; auto.
    destruct (negb (ok (respond env (List.length (sent s)) (audio_request settings id itag))));
      reflexivity.
  - exfalso. destruct Hmax as [_ Hall].
    rewrite Exists_exists in Hsome. destruct Hsome as (frmt & Hin & Hau).
    rewrite Forall_forall in Hall. rewrite (Hall frmt Hin) in Hau. discriminate Hau.
Qed.

(** With audio formats, the request is for the one of greatest bitrate. *)
Example get_audio_url_best :
  sent (snd (get_audio_url flaky_env sample_settings video_with_audio fresh_state))
  = [mkRequest GET "https://inv.example/latest_version"
       [("id"%string, JStr "abc123"); ("itag"%string, JStr "251");
        ("local"%string, JStr "true")] [] []].
Proof. reflexivity. Qed.

(** C8.  On metadata with no audio format, and on metadata with no format
    at all, [get_audio_url] raises the [ValueError] of [max] on an empty
    sequence, which is not the [BadResponseError] its callers handle; no
    request is sent. *)
Theorem get_audio_url_no_audio_format :
  get_audio_url flaky_env sample_settings video_without_audio fresh_state
    = (Raise (ValueError "max() arg is an empty sequence"), fresh_state)
  /\ get_audio_url flaky_env sample_settings
       (JObj [("videoId"%string, JStr "abc123"); ("adaptiveFormats"%string, JArr [])])
       fresh_state
     = (Raise (ValueError "max() arg is an empty sequence"), fresh_state).
Proof.
  split; reflexivity.
Qed.

(** ** Strings *)

Lemma append_assoc (a b c : string) : ((a ++ b) ++ c = a ++ (b ++ c))%string.
Proof.
  induction a as [|ch a IH]; simpl; [reflexivity|]. rewrite IH. reflexivity.
Qed.

Lemma append_nil_r (a : string) : (a ++ "" = a)%string.
Proof.
  induction a as [|ch a IH]; simpl; [reflexivity|]. rewrite IH. reflexivity.
Qed.

(** ** Translator.spotify_to_youtube_id: the search query *)

Lemma join_strings (sep : string) (names : list string) :
  join sep (map JStr names) = Ok (String.concat sep names).
Proof.
  unfold join.
  assert (H : all_str (map JStr names) = Ok names).
  { induction names as [|n names IH]; simpl; [reflexivity|]. rewrite IH. reflexivity. }
  rewrite H. reflexivity.
Qed.

Lemma artist_names_named (artists : list json) (names : list string) :
  Forall2 (fun a n => getitem a "name" = Ok (JStr n)) artists names ->
  artist_names artists = Ok (map JStr names).
Proof.
  induction 1 as [|a n artists names Ha _ IH]; simpl; [reflexivity|].
  rewrite Ha, IH. reflexivity.
Qed.

(** C9, as stated, fails for a track with two artists: their names are
    joined by a space, not by a comma. *)
Lemma spotify_query_two_artists :
  spotify_query (track "Song" ["Artist"; "Guest"]) = Ok "Song by Artist Guest"%string
  /\ spotify_query (track "Song" ["Artist"; "Guest"]) <> Ok "Song by Artist, Guest"%string.
Proof.
  split; [reflexivity|]. intros H. vm_compute in H. discriminate H.
Qed.

(** C9, amended.  The query built from track metadata is the track name,
    the word "by" between two spaces, and the artist names separated by
    single spaces. *)
Theorem spotify_query_spec (data : json) (name : string) (artists : list json)
    (names : list string) :
  getitem data "name" = Ok (JStr name) ->
  getitem data "artists" = Ok (JArr artists) ->
  Forall2 (fun a n => getitem a "name" = Ok (JStr n)) artists names ->
  spotify_query data = Ok (name ++ " by " ++ String.concat " " names)%string.
Proof.
  intros Hname Hartists Hnames. unfold spotify_query.
  rewrite Hname. simpl. rewrite Hartists. simpl.
  rewrite (artist_names_named artists names Hnames).
  rewrite join_strings.
  f_equal. apply append_assoc.
Qed.

Lemma spotify_query_spec_witness :
  spotify_query (track "Song" ["Artist"]) = Ok "Song by Artist"%string.
Proof.
  apply (spotify_query_spec (track "Song" ["Artist"]) "Song" [artist "Artist"] ["Artist"]).
  - reflexivity.
  - reflexivity.
  - constructor; [reflexivity|constructor].
Defined.

(** The query is what the search is asked, and the first result is the id:
    the third-party track "7x9" from a state without a token. *)
Example spotify_to_youtube_id_run :
  fst (spotify_to_youtube_id spotify_env sample_settings "7x9" fresh_state)
    = Ok (JStr "first")
  /\ sent (snd (spotify_to_youtube_id spotify_env sample_settings "7x9" fresh_state))
     = [token_request sample_settings;
        mkRequest GET "https://api.spotify.com/v1/tracks/7x9" []
          [("Authorization"%string, FVal "Bearer " (JStr "granted"))] [];
        mkRequest GET "https://inv.example/api/v1/search"
          [("q"%string, JStr "Song by Artist"); ("sort_by"%string, JStr "relevance");
           ("type"%string, JStr "video")] [] []].
Proof. split; reflexivity. Qed.

(** ** Translator.update_spotify_token *)

Lemma silent_ret {A : Type} (a : A) : silent (ret a).
Proof. intros s. reflexivity. Qed.

Lemma silent_raise {A : Type} (e : exn) : silent (@raise A e).
Proof. intros s. reflexivity. Qed.

Lemma silent_lift {A : Type} (r : result A) : silent (lift r).
Proof. intros s. reflexivity. Qed.

Lemma silent_bind {A B : Type} (m : M A) (k : A -> M B) :
  silent m -> (forall a, silent (k a)) -> silent (bind m k).
Proof.
  intros Hm Hk s. unfold bind. specialize (Hm s).
  destruct (m s) as [[a|e] s']; simpl in *; [|exact Hm].
  rewrite (Hk a s'). exact Hm.
Qed.

Lemma silent_datetime_now (env : Env) : silent (datetime_now env).
Proof. intros s. reflexivity. Qed.

Lemma silent_write_token (tok : json) : silent (write_token tok).
Proof. intros s. reflexivity. Qed.

Lemma silent_write_expires_at (e : Z) : silent (write_expires_at e).
Proof. intros s. reflexivity. Qed.

(** A request followed by steps that send nothing. *)
Lemma request_then_silent {A : Type} (env : Env) (r : Request) (k : Response -> M A) :
  (forall response, silent (k response)) ->
  forall s, sent (snd (bind (request env r) k s)) = sent s ++ [r].
Proof.
  intros Hk s. unfold bind, request. rewrite Hk. reflexivity.
Qed.

(** When the exchange takes place: with no expiry recorded, and with an
    expiry that is not before the current time plus fifteen minutes. *)
Lemma update_spotify_token_requests (env : Env) (settings : Settings) (s : State) :
  sent (snd (update_spotify_token env settings s)) =
    match _spotify_token_expires_at s with
    | None => sent s ++ [token_request settings]
    | Some e =>
        if e <? now env (clock_reads s) + fifteen_minutes
        then sent s
        else sent s ++ [token_request settings]
    end.
Proof.
  assert (Hsilent : forall response : Response,
    silent (let data := body response in
            error <- lift (get data "error") ;;
            if is_str error "invalid_client"
            then raise (ValueError "Invalid spotify client id or secret")
            else
              token <- lift (getitem data "access_token") ;;
              write_token token ;;;
              t <- datetime_now env ;;
              expires_in <- lift (getitem data "expires_in") ;;
              match as_number expires_in with
              | None => raise TypeError
              | Some seconds => write_expires_at (t + timedelta_seconds seconds)
              end)).
  { intros response. cbv zeta.
    apply silent_bind; [apply silent_lift|]. intros error.
    destruct (is_str error "invalid_client"); [apply silent_raise|].
    apply silent_bind; [apply silent_lift|]. intros token.
    apply silent_bind; [apply silent_write_token|]. intros _.
    apply silent_bind; [apply silent_datetime_now|]. intros t.
    apply silent_bind; [apply silent_lift|]. intros expires_in.
    destruct (as_number expires_in); [apply silent_write_expires_at|apply silent_raise]. }
  pose proof (request_then_silent env (token_request settings) _ Hsilent) as Hpost.
  unfold update_spotify_token. fold (token_request settings).
  unfold bind at 1 2, read_expires_at, ret.
  destruct (_spotify_token_expires_at s) as [e|] eqn:E.
  - unfold bind at 1, datetime_now. simpl.
    destruct (e <? now env (clock_reads s) + fifteen_minutes); [reflexivity|].
    rewrite Hpost. reflexivity.
  - simpl. rewrite Hpost. reflexivity.
Qed.

(** C1.  The guard of [update_spotify_token] is the wrong way round.  With
    a cached token that expires in an hour the exchange is made again, so
    that two resolutions make two exchanges; with a cached token that
    expires in a minute, or expired a minute ago, no exchange is made and
    the cached token stays, so that a resolution after expiry sends the
    expired token. *)
Theorem update_spotify_token_guard_inverted :
  sent (snd (update_spotify_token spotify_env sample_settings valid_state))
    = [token_request sample_settings]
  /\ token_exchanges
       (sent (snd (resolve_twice spotify_env sample_settings "7x9" valid_state))) = 2%nat
  /\ update_spotify_token spotify_env sample_settings expiring_state
     = (Ok tt, mkState [] 1 (JStr "cached") (_spotify_token_expires_at expiring_state))
  /\ update_spotify_token spotify_env sample_settings expired_state
     = (Ok tt, mkState [] 1 (JStr "cached") (_spotify_token_expires_at expired_state))
  /\ sent (snd (spotify_to_youtube_id spotify_env sample_settings "7x9" expired_state))
     = [mkRequest GET "https://api.spotify.com/v1/tracks/7x9" []
          [("Authorization", FVal "Bearer " (JStr "cached"))] [];
        mkRequest GET "https://inv.example/api/v1/search"
          [("q", JStr "Song by Artist"); ("sort_by", JStr "relevance");
           ("type", JStr "video")] [] []].
Proof.
  repeat split; reflexivity.
Qed.

(** ** Regular expressions *)

Lemma strip_prefix_app (p r : string) : strip_prefix p (p ++ r) = Some r.
Proof.
  induction p as [|a p IH]; simpl; [reflexivity|].
  rewrite Ascii.eqb_refl. exact IH.
Qed.

Lemma strip_prefix_Some (p s r : string) :
  strip_prefix p s = Some r -> s = (p ++ r)%string.
Proof.
  revert s. induction p as [|a p IH]; intros s; simpl.
  - intros H. injection H as ->. reflexivity.
  - destruct s as [|b s]; [discriminate|].
    destruct (Ascii.eqb_spec a b) as [->|_]; [|discriminate].
    intros H. rewrite (IH s H). reflexivity.
Qed.

Lemma all_chars_app (p : ascii -> bool) (a b : string) :
  all_chars p (a ++ b) = all_chars p a && all_chars p b.
Proof.
  induction a as [|ch a IH]; simpl; [reflexivity|].
  rewrite IH. apply andb_assoc.
Qed.

(** A run of class characters in front does not take a match away: the
    longest run is tried first. *)
Lemma star_class_prefix {A : Type} (p : ascii -> bool) (pre t : string)
    (k : string -> option A) (x : A) :
  all_chars p pre = true ->
  star_class p t k = Some x ->
  star_class p (pre ++ t) k = Some x.
Proof.
  intros Hpre Ht. induction pre as [|ch pre IH]; simpl in *; [exact Ht|].
  apply andb_prop in Hpre. destruct Hpre as [Hch Hpre].
  rewrite Hch, (IH Hpre). reflexivity.
Qed.

(** On a string of class characters the whole string is tried first. *)
Lemma star_class_all {A : Type} (p : ascii -> bool) (s : string)
    (k : string -> option A) (x : A) :
  all_chars p s = true ->
  k "" = Some x ->
  star_class p s k = Some x.
Proof.
  intros Hs Hk. rewrite <- (append_nil_r s).
  apply star_class_prefix; [exact Hs|exact Hk].
Qed.

(** When the continuation fails on every string of class-[q] characters
    and [s] is one, there is no match in [s]. *)
Lemma star_class_none {A : Type} (p q : ascii -> bool) (s : string)
    (k : string -> option A) :
  (forall u, all_chars q u = true -> k u = None) ->
  all_chars q s = true ->
  star_class p s k = None.
Proof.
  intros Hk. induction s as [|ch s IH]; intros Hs.
  - simpl. apply Hk. reflexivity.
  - simpl. pose proof Hs as Hs'. simpl in Hs'. apply andb_prop in Hs'.
    rewrite (IH (proj2 Hs')). rewrite (Hk _ Hs).
    destruct (p ch); reflexivity.
Qed.

Lemma substring_all (s : string) : substring 0 (String.length s) s = s.
Proof.
  induction s as [|ch s IH]; simpl; [reflexivity|]. rewrite IH. reflexivity.
Qed.

Lemma star_class_step {A : Type} (p : ascii -> bool) (c : ascii) (s : string)
    (k : string -> option A) :
  star_class p s k = None ->
  star_class p (String c s) k = k (String c s).
Proof.
  intros H. simpl. rewrite H. destruct (p c); reflexivity.
Qed.

Lemma after_dots_needs_question_mark (u : string) (caps : captures)
    (k : string -> captures -> option captures) :
  all_chars id_char u = true -> run after_dots u caps k = None.
Proof.
  intros Hu. unfold after_dots. cbn [seq run].
  destruct (strip_prefix "watch?v=" u) as [r|] eqn:E; [|reflexivity].
  apply strip_prefix_Some in E. subst u.
  rewrite all_chars_app in Hu. vm_compute in Hu. discriminate Hu.
Qed.

Lemma after_dots_id (id : string) :
  id <> "" ->
  all_chars id_char id = true ->
  run after_dots ("watch?v=" ++ id) [] (fun _ caps => Some caps) = Some [("id", id)].
Proof.
  intros Hne Hid. unfold after_dots. cbn [seq run].
  rewrite strip_prefix_app.
  destruct id as [|c id]; [congruence|].
  simpl in Hid. apply andb_prop in Hid. destruct Hid as [Hc Hid].
  rewrite Hc. apply star_class_all; [exact Hid|].
  simpl. rewrite substring_all. reflexivity.
Qed.

(** [INVIDIOUS_ID_RE] on a watch URL: some characters other than a
    newline, then [watch?v=] and an id to the end of the string. *)
Lemma INVIDIOUS_ID_RE_watch (prefix id : string) :
  prefix <> "" ->
  all_chars dot prefix = true ->
  id <> "" ->
  all_chars id_char id = true ->
  re_match INVIDIOUS_ID_RE (prefix ++ "watch?v=" ++ id) = Some [("id", id)].
Proof.
  intros Hpre Hdots Hne Hid.
  unfold re_match, INVIDIOUS_ID_RE.
  change (seq [Plus dot; Lit "watch?v="; Group "id" (Plus id_char); Dollar])
    with (Cat (Plus dot) after_dots).
  cbn [run].
  destruct prefix as [|c pre]; [congruence|].
  simpl in Hdots. apply andb_prop in Hdots. destruct Hdots as [Hc Hdots].
  cbn [append]. rewrite Hc.
  set (K := fun s'' : string => run after_dots s'' [] (fun _ caps => Some caps)).
  apply star_class_prefix; [exact Hdots|].
  assert (H0 : star_class dot id K = None).
  { apply star_class_none with (q := id_char); [|exact Hid].
    intros u Hu. apply after_dots_needs_question_mark. exact Hu. }
  assert (Hfail : forall (c0 : ascii) (s0 : string),
            Ascii.eqb "w" c0 = false ->
            star_class dot s0 K = None -> star_class dot (String c0 s0) K = None).
  { intros c0 s0 Hc0 Hs0. rewrite (star_class_step dot c0 s0 K Hs0).
    unfold K, after_dots. cbn [seq run strip_prefix]. rewrite Hc0. reflexivity. }
  cbn [append].
  rewrite star_class_step.
  - unfold K. apply (after_dots_id id Hne Hid).
  - repeat (apply Hfail; [reflexivity|]). exact H0.
Qed.

(** ** Translator.to_invidious_id *)

(** C5.  [to_invidious_id] takes the id from the first of the three
    patterns that matches, in the order watch URL with an id parameter,
    YouTube URL, Spotify track URL, the last one through the third-party
    lookup; when none matches it returns [None] and raises nothing.  On a
    watch URL, that is some characters other than a newline followed by
    [watch?v=] and an id to the end, such as one ending in [watch?v=abc123],
    it returns that id and leaves the state as it is: no request is sent
    and the token cache is not touched. *)
Theorem to_invidious_id_first_match (env : Env) (settings : Settings) (url : string)
    (s : State) :
  (forall m, re_match INVIDIOUS_ID_RE url = Some m ->
             to_invidious_id env settings url s = (Ok (group m "id"), s))
  /\ (re_match INVIDIOUS_ID_RE url = None ->
      forall m, re_match YOUTUBE_ID_RE url = Some m ->
                to_invidious_id env settings url s = (Ok (group m "id"), s))
  /\ (re_match INVIDIOUS_ID_RE url = None ->
      re_match YOUTUBE_ID_RE url = None ->
      forall m track_id,
        re_match SPOTIFY_ID_RE url = Some m ->
        group m "id" = JStr track_id ->
        to_invidious_id env settings url s = spotify_to_youtube_id env settings track_id s)
  /\ (re_match INVIDIOUS_ID_RE url = None ->
      re_match YOUTUBE_ID_RE url = None ->
      re_match SPOTIFY_ID_RE url = None ->
      to_invidious_id env settings url s = (Ok JNull, s))
  /\ (forall prefix id,
        url = (prefix ++ "watch?v=" ++ id)%string ->
        prefix <> "" -> all_chars dot prefix = true ->
        id <> "" -> all_chars id_char id = true ->
        to_invidious_id env settings url s = (Ok (JStr id), s)).
Proof.
  unfold to_invidious_id. repeat split.
  - intros m ->. reflexivity.
  - intros -> m ->. reflexivity.
  - intros -> -> m track_id -> ->. reflexivity.
  - intros -> -> ->. reflexivity.
  - intros prefix id -> Hpre Hdots Hne Hid.
    rewrite (INVIDIOUS_ID_RE_watch prefix id Hpre Hdots Hne Hid). reflexivity.
Qed.

Lemma to_invidious_id_first_match_witness :
  to_invidious_id spotify_env sample_settings "https://yewtu.be/watch?v=abc123" valid_state
  = (Ok (JStr "abc123"), valid_state).
Proof.
  destruct (to_invidious_id_first_match spotify_env sample_settings
              "https://yewtu.be/watch?v=abc123" valid_state) as (_ & _ & _ & _ & Hwatch).
  apply (Hwatch "https://yewtu.be/" "abc123").
  - reflexivity.
  - discriminate.
  - reflexivity.
  - discriminate.
  - reflexivity.
Defined.

(** Inputs that reach the other branches. *)
Example to_invidious_id_short_url :
  to_invidious_id spotify_env sample_settings "https://youtu.be/abc123" fresh_state
  = (Ok (JStr "abc123"), fresh_state).
Proof. reflexivity. Qed.

Example to_invidious_id_track_url :
  fst (to_invidious_id spotify_env sample_settings
         "https://open.spotify.com/track/7x9" fresh_state) = Ok (JStr "first").
Proof. reflexivity. Qed.

Example to_invidious_id_no_match :
  to_invidious_id spotify_env sample_settings "abc123" fresh_state = (Ok JNull, fresh_state).
Proof. reflexivity. Qed.

(** * Further properties *)

(** ** play_queue: what a tick can do to one channel *)

Lemma players_del_get_same (ps ps' : Players) (g : ChannelID) :
  NoDup (keys ps) -> players_del ps g = Ok ps' -> players_get ps' g = None.
Proof.
  revert ps'. induction ps as [|[k0 p0] ps IH]; simpl; [discriminate|].
  intros ps' Hnd Hdel. inversion Hnd as [|? ? Hnin Hnd']; subst.
  destruct (Z.eqb_spec g k0) as [->|Hne].
  - injection Hdel as <-.
    destruct (players_get ps k0) as [p|] eqn:E; [|reflexivity].
    exfalso. apply Hnin. apply (in_map fst _ _ (players_get_In _ _ _ E)).
  - destruct (players_del ps g) as [rest|e] eqn:E; [|discriminate].
    injection Hdel as <-. simpl.
    destruct (Z.eqb_spec g k0) as [->|_]; [contradiction|].
    apply (IH rest Hnd' eq_refl).
Qed.

Lemma play_queue_body_keys (tr : Transport) (g : ChannelID) (pl : ChannelPlayer)
    (t : Tick) :
  (NoDup (keys (players t)) -> NoDup (keys (players (snd (play_queue_body tr g pl t)))))
  /\ incl (keys (players (snd (play_queue_body tr g pl t)))) (keys (players t)).
Proof.
  unfold play_queue_body.
  destruct (is_playing (tr (connection pl))); [simpl; split; [auto|apply incl_refl]|].
  destruct (is_paused (tr (connection pl))); [simpl; split; [auto|apply incl_refl]|].
  destruct (queue pl) as [|x rest].
  - destruct (disconnect_raises (tr (connection pl)));
      [simpl; split; [auto|apply incl_refl]|].
    simpl players. destruct (players_del (players t) g) as [ps'|e] eqn:E; simpl.
    + split; [apply (players_del_NoDup _ _ _ E)|].
      intros k' Hk'. apply (players_del_keys _ _ g k' E). exact Hk'.
    + split; [auto|apply incl_refl].
  - destruct (play_raises (tr (connection pl))); simpl; rewrite keys_update;
      (split; [auto|apply incl_refl]).
Qed.

Lemma play_queue_loop_keys (tr : Transport) (snapshot : Players) (t : Tick) :
  (NoDup (keys (players t)) ->
   NoDup (keys (players (snd (play_queue_loop tr snapshot t)))))
  /\ incl (keys (players (snd (play_queue_loop tr snapshot t)))) (keys (players t)).
Proof.
  revert t. induction snapshot as [|[g pl] snapshot IH]; intros t; simpl.
  - split; [auto|apply incl_refl].
  - destruct (play_queue_body_keys tr g pl t) as [Hnd Hincl].
    destruct (play_queue_body tr g pl t) as [[[]|e] t1]; simpl in Hnd, Hincl.
    + destruct (IH t1) as [Hnd1 Hincl1]. split; [auto|].
      apply (incl_tran Hincl1 Hincl).
    + simpl. split; assumption.
Qed.

Lemma play_queue_loop_untouched (tr : Transport) (k : ChannelID) (snapshot : Players)
    (t : Tick) :
  ~ In k (keys snapshot) ->
  players_get (players (snd (play_queue_loop tr snapshot t))) k
  = players_get (players t) k.
Proof.
  revert t. induction snapshot as [|[g pl] snapshot IH]; intros t Hk; simpl;
    [reflexivity|].
  simpl in Hk.
  destruct (play_queue_body_local tr g pl t) as [_ Hp].
  assert (Hg : k <> g) by (intros ->; apply Hk; left; reflexivity).
  specialize (Hp k Hg).
  destruct (play_queue_body tr g pl t) as [[[]|e] t1]; simpl in Hp.
  - rewrite IH by (intros H; apply Hk; right; exact H). exact Hp.
  - exact Hp.
Qed.

(** The three things the body of the loop can do to the entry of its own
    channel. *)
Lemma play_queue_body_own (tr : Transport) (k : ChannelID) (p : ChannelPlayer)
    (t : Tick) :
  NoDup (keys (players t)) ->
  players_get (players t) k = Some p ->
  let t' := snd (play_queue_body tr k p t) in
  players_get (players t') k = Some p
  \/ (idle_on tr (connection p) /\ queue p = []
      /\ players_get (players t') k = None)
  \/ (idle_on tr (connection p)
      /\ exists x rest,
           queue p = x :: rest
           /\ players_get (players t') k
              = Some (mkChannelPlayer (connection p)
                        (if loop p then rest ++ [x] else rest) (Some x) (loop p))).
Proof.
  intros Hnd Hget. unfold play_queue_body.
  destruct (is_playing (tr (connection p))) eqn:Hplaying; [left; exact Hget|].
  destruct (is_paused (tr (connection p))) eqn:Hpaused; [left; exact Hget|].
  assert (Hidle : idle_on tr (connection p)) by (split; assumption).
  destruct (queue p) as [|x rest] eqn:Hq.
  - destruct (disconnect_raises (tr (connection p))); [left; exact Hget|].
    simpl players. destruct (players_del (players t) k) as [ps'|e] eqn:E.
    + right. left. repeat split; try apply Hidle.
      simpl. apply (players_del_get_same _ _ _ Hnd E).
    + left. exact Hget.
  - right. right. split; [exact Hidle|]. exists x, rest. split; [reflexivity|].
    assert (Hupd : forall t0 : Tick,
      players t0 = players_update (players t) k
                     (set_now_playing (Some x)
                        (if loop (set_queue rest p)
                         then set_queue (queue (set_queue rest p) ++ [x]) (set_queue rest p)
                         else set_queue rest p)) ->
      players_get (players t0) k
      = Some (mkChannelPlayer (connection p)
                (if loop p then rest ++ [x] else rest) (Some x) (loop p))).
    { intros t0 ->. rewrite (players_get_update _ _ p _ Hget).
      simpl. destruct (loop p) eqn:El; unfold set_now_playing, set_queue; simpl;
        rewrite ?El; reflexivity. }
    destruct (play_raises (tr (connection p))); apply Hupd; reflexivity.
Qed.

(** X1.  Whatever the other channels do and whether or not the tick ends
    with an exception, one tick does one of three things to a registered
    channel: it leaves its entry as it is; or, the channel being idle with
    nothing pending, it removes the entry; or, the channel being idle, it
    takes the head of pending, makes it the item now playing and, when the
    loop flag is set, puts it back at the tail.  The voice client and the
    loop flag never change and no other reordering happens. *)
Theorem play_queue_entry (tr : Transport) (ps : Players) (k : ChannelID)
    (p : ChannelPlayer) :
  NoDup (keys ps) ->
  players_get ps k = Some p ->
  let after := players (snd (play_queue tr ps)) in
  players_get after k = Some p
  \/ (idle_on tr (connection p) /\ queue p = [] /\ players_get after k = None)
  \/ (idle_on tr (connection p)
      /\ exists x rest,
           queue p = x :: rest
           /\ players_get after k
              = Some (mkChannelPlayer (connection p)
                        (if loop p then rest ++ [x] else rest) (Some x) (loop p))).
Proof.
  intros Hnd Hget. cbv zeta.
  destruct (players_get_split ps k p Hnd Hget) as (pre & post & Eps & Hpre & Hpost).
  unfold play_queue. set (t0 := mkTick ps [] []).
  assert (Hsnap : play_queue_loop tr ps t0
                  = play_queue_loop tr (pre ++ (k, p) :: post) t0)
    by (rewrite <- Eps; reflexivity).
  rewrite Hsnap. clear Hsnap. rewrite play_queue_loop_app.
  pose proof (play_queue_loop_untouched tr k pre t0 Hpre) as Hsame.
  destruct (play_queue_loop_keys tr pre t0) as [Hnd1 _].
  destruct (play_queue_loop tr pre t0) as [[[]|e] t1]; simpl in Hsame, Hnd1.
  - simpl play_queue_loop.
    assert (Hget1 : players_get (players t1) k = Some p) by (rewrite Hsame; exact Hget).
    pose proof (play_queue_body_own tr k p t1 (Hnd1 Hnd) Hget1) as Hown.
    cbv zeta in Hown.
    pose proof (play_queue_loop_untouched tr k post) as Hpost'.
    destruct (play_queue_body tr k p t1) as [[[]|e] t2]; simpl in Hown.
    + rewrite (Hpost' t2 Hpost). exact Hown.
    + exact Hown.
  - left. simpl. rewrite Hsame. exact Hget.
Qed.

Lemma play_queue_entry_witness :
  players_get (players (snd (play_queue play_fails_1 two_channels))) 8
  = Some (mkChannelPlayer 2%nat [item "Z"] None false)
  \/ (idle_on play_fails_1 2%nat /\ [item "Z"] = []
      /\ players_get (players (snd (play_queue play_fails_1 two_channels))) 8 = None)
  \/ (idle_on play_fails_1 2%nat
      /\ exists x rest,
           [item "Z"] = x :: rest
           /\ players_get (players (snd (play_queue play_fails_1 two_channels))) 8
              = Some (mkChannelPlayer 2%nat (if false then rest ++ [x] else rest)
                        (Some x) false)).
Proof.
  apply (play_queue_entry play_fails_1 two_channels 8
           (mkChannelPlayer 2%nat [item "Z"] None false)).
  - simpl. constructor.
    + simpl. intros [H|[]]. discriminate H.
    + constructor; [intros []|constructor].
  - reflexivity.
Defined.

(** X2.  A tick never adds a channel to the registry and keeps its keys
    unique, also when it ends with an exception. *)
Theorem play_queue_keys (tr : Transport) (ps : Players) :
  NoDup (keys ps) ->
  NoDup (keys (players (snd (play_queue tr ps))))
  /\ incl (keys (players (snd (play_queue tr ps)))) (keys ps).
Proof.
  intros Hnd. unfold play_queue.
  destruct (play_queue_loop_keys tr ps (mkTick ps [] [])) as [H1 H2].
  split; [apply H1; exact Hnd|exact H2].
Qed.

Lemma play_queue_keys_witness :
  NoDup (keys (players (snd (play_queue all_idle two_channels))))
  /\ incl (keys (players (snd (play_queue all_idle two_channels)))) (keys two_channels).
Proof.
  apply (play_queue_keys all_idle two_channels).
  simpl. constructor.
  - simpl. intros [H|[]]. discriminate H.
  - constructor; [intros []|constructor].
Defined.

(** ** play_queue: draining a queue *)

(** Calls are only ever added to the record of a tick. *)
Lemma play_queue_body_calls (tr : Transport) (g : ChannelID) (pl : ChannelPlayer)
    (t : Tick) :
  exists more, calls (snd (play_queue_body tr g pl t)) = calls t ++ more.
Proof.
  unfold play_queue_body.
  destruct (is_playing (tr (connection pl))); [simpl; eauto|].
  destruct (is_paused (tr (connection pl))).
  { simpl. rewrite <- app_assoc. eauto. }
  destruct (queue pl).
  - destruct (disconnect_raises (tr (connection pl))).
    { simpl. rewrite <- !app_assoc. eauto. }
    simpl players. destruct (players_del (players t) g);
      simpl; rewrite <- !app_assoc; eauto.
  - destruct (play_raises (tr (connection pl))); simpl; rewrite <- !app_assoc; eauto.
Qed.

Lemma play_queue_loop_calls (tr : Transport) (snapshot : Players) (t : Tick) :
  exists more, calls (snd (play_queue_loop tr snapshot t)) = calls t ++ more.
Proof.
  revert t. induction snapshot as [|[g pl] snapshot IH]; intros t; simpl.
  - exists []. symmetry. apply app_nil_r.
  - destruct (play_queue_body_calls tr g pl t) as [m1 H1].
    destruct (play_queue_body tr g pl t) as [[[]|e] t1]; simpl in H1.
    + destruct (IH t1) as [m2 H2]. exists (m1 ++ m2).
      rewrite H2, H1. symmetry. apply app_assoc.
    + exists m1. exact H1.
Qed.

(** One tick in which nothing raises, seen from an idle channel. *)
Lemma play_queue_idle (tr : Transport) (ps : Players) (k : ChannelID)
    (p : ChannelPlayer) :
  quiet tr ->
  idle_on tr (connection p) ->
  NoDup (keys ps) ->
  own_connection k (connection p) ps ->
  players_get ps k = Some p ->
  exists t,
    play_queue tr ps = (Ok tt, t)
    /\ NoDup (keys (players t))
    /\ own_connection k (connection p) (players t)
    /\ match queue p with
       | [] =>
           players_get (players t) k = None
           /\ plays_on (connection p) (calls t) = []
           /\ disconnected (connection p) (calls t)
       | x :: rest =>
           players_get (players t) k
           = Some (mkChannelPlayer (connection p)
                     (if loop p then rest ++ [x] else rest) (Some x) (loop p))
           /\ plays_on (connection p) (calls t) = [source_of x]
       end.
Proof.
  intros Hquiet [Hplaying Hpaused] Hnd Hown Hget.
  set (c := connection p) in *.
  destruct (players_get_split ps k p Hnd Hget) as (pre & post & Eps & Hpre & Hpost).
  assert (Hkeys : keys ps = keys pre ++ k :: keys post).
  { rewrite Eps. unfold keys. rewrite map_app. reflexivity. }
  assert (Hnd2 : NoDup (keys pre ++ k :: keys post)) by (rewrite <- Hkeys; exact Hnd).
  assert (Hdisj : forall g, In g (keys post) -> ~ In g (keys pre)).
  { intros g Hg Hin. apply NoDup_remove_1 in Hnd2.
    revert Hnd2 Hin Hg. clear. intros Hnd Hin Hg.
    induction (keys pre) as [|a l IH]; simpl in *; [contradiction|].
    inversion Hnd as [|? ? Hnin Hnd']; subst.
    destruct Hin as [->|Hin]; [apply Hnin; apply in_or_app; right; exact Hg|].
    apply (IH Hnd' Hin). }
  unfold play_queue.
  assert (Hsnap : play_queue_loop tr ps (mkTick ps [] [])
                  = play_queue_loop tr (pre ++ (k, p) :: post) (mkTick ps [] []))
    by (rewrite <- Eps; reflexivity).
  rewrite Hsnap. clear Hsnap. rewrite play_queue_loop_app.
  destruct (play_queue_loop_others tr k c Hquiet pre (mkTick ps [] []))
    as (t1 & Hloop1 & F1 & F2 & F3 & F4 & F5).
  { apply (NoDup_app_remove_r _ _ Hnd2). }
  { exact Hpre. }
  { intros g pl Hin. apply (Hown g pl).
    - rewrite Eps. apply in_or_app. left. exact Hin.
    - intros ->. apply Hpre. apply (in_map fst _ _ Hin). }
  { intros g Hg. simpl. rewrite Hkeys. apply in_or_app. left. exact Hg. }
  rewrite Hloop1. simpl in F1, F2, F3, F4, F5.
  assert (Hget1 : players_get (players t1) k = Some p) by (rewrite F1; exact Hget).
  assert (Hpostnd : NoDup (keys post)).
  { apply NoDup_app_remove_l in Hnd2. inversion Hnd2; assumption. }
  assert (Hpostc : forall g pl, In (g, pl) post -> connection pl <> c).
  { intros g pl Hin. apply (Hown g pl).
    - rewrite Eps. apply in_or_app. right. right. exact Hin.
    - intros ->. apply Hpost. apply (in_map fst _ _ Hin). }
  assert (Hpostk : forall g, In g (keys post) -> In g (keys (players t1))).
  { intros g Hg. apply F5; [|apply Hdisj; exact Hg].
    rewrite Hkeys. apply in_or_app. right. right. exact Hg. }
  simpl. unfold play_queue_body. fold c. rewrite Hplaying, Hpaused.
  destruct (Hquiet c) as [Hdisc Hplay].
  destruct (queue p) as [|x rest] eqn:Hq.
  - rewrite Hdisc. simpl players.
    destruct (players_del_present (players t1) k) as [ps' Hdel].
    { apply (in_map fst _ _ (players_get_In _ _ _ Hget1)). }
    rewrite Hdel. set (t2 := with_players ps' _).
    destruct (play_queue_loop_others tr k c Hquiet post t2 Hpostnd Hpost Hpostc)
      as (t3 & Hloop3 & G1 & G2 & G3 & G4 & G5).
    { intros g Hg. unfold t2. simpl.
      apply (players_del_keys _ _ k g Hdel); [apply Hpostk; exact Hg|].
      intros ->. contradiction. }
    exists t3. split; [exact Hloop3|].
    unfold t2 in G1, G2, G3, G4. simpl in G1, G2, G3, G4.
    split; [|split; [|split; [|split]]].
    + apply G3. apply (players_del_NoDup _ _ _ Hdel). apply F3. exact Hnd.
    + apply G4. intros k' pl Hin Hk'.
      apply (F4 Hown k' pl); [|exact Hk'].
      apply (players_del_In _ _ _ _ _ Hdel Hin).
    + rewrite G1. apply (players_del_get_same _ _ _ (F3 Hnd) Hdel).
    + rewrite G2. rewrite !plays_on_app. rewrite F2. reflexivity.
    + unfold disconnected.
      assert (Hin2 : In (Disconnect c) (calls t2)).
      { unfold t2. simpl. apply in_or_app. right. left. reflexivity. }
      destruct (play_queue_loop_calls tr post t2) as [more Hmore].
      rewrite Hloop3 in Hmore. simpl in Hmore. rewrite Hmore.
      apply in_or_app. left. exact Hin2.
  - rewrite Hplay. simpl.
    set (p' := set_now_playing (Some x) _).
    set (t2 := call _ _).
    assert (Hp' : p' = mkChannelPlayer c (if loop p then rest ++ [x] else rest)
                         (Some x) (loop p)).
    { unfold p'. destruct (loop p) eqn:El; unfold set_now_playing, set_queue; simpl;
        rewrite ?El; reflexivity. }
    destruct (play_queue_loop_others tr k c Hquiet post t2 Hpostnd Hpost Hpostc)
      as (t3 & Hloop3 & G1 & G2 & G3 & G4 & G5).
    { intros g Hg. unfold t2. simpl. rewrite keys_update. apply Hpostk. exact Hg. }
    exists t3. split; [exact Hloop3|].
    unfold t2 in G1, G2, G3, G4. simpl in G1, G2, G3, G4.
    split; [|split; [|split]].
    + apply G3. rewrite keys_update. apply F3. exact Hnd.
    + apply G4. intros k' pl Hin Hk'.
      destruct (In_players_update _ _ _ _ _ Hin) as [H|[-> _]]; [|contradiction].
      apply (F4 Hown k' pl H Hk').
    + rewrite G1. rewrite <- Hp'. apply players_get_update with (p := p). exact Hget1.
    + rewrite G2. rewrite !plays_on_app. rewrite F2. simpl.
      rewrite Nat.eqb_refl. reflexivity.
Qed.

(** X3.  Without the loop flag, a channel that is idle at every tick and has
    [n] items pending is played out by [n + 1] ticks in which nothing
    raises: the items are played in the order of the queue, each once, and
    the last tick disconnects the voice client and removes the channel. *)
Theorem ticks_drain (k : ChannelID) (c : VoiceClient) (q : list VideoInfo) :
  forall (trs : list Transport) (ps : Players) (p : ChannelPlayer),
  List.length trs = S (List.length q) ->
  Forall (fun tr => quiet tr /\ idle_on tr c) trs ->
  NoDup (keys ps) ->
  own_connection k c ps ->
  players_get ps k = Some p ->
  connection p = c ->
  loop p = false ->
  queue p = q ->
  exists ps' cs,
    ticks trs ps = (Ok tt, ps', cs)
    /\ plays_on c cs = map source_of q
    /\ disconnected c cs
    /\ players_get ps' k = None.
Proof.
  induction q as [|x rest IH]; intros trs ps p Hlen Htrs Hnd Hown Hget Hc Hloop Hq.
  - destruct trs as [|tr [|? ?]]; try discriminate Hlen.
    inversion Htrs as [|? ? [Hquiet Hidle] _]; subst.
    destruct (play_queue_idle tr ps k p Hquiet Hidle Hnd Hown Hget)
      as (t & Hrun & _ & _ & Hcase).
    rewrite Hq in Hcase. destruct Hcase as (Hgone & Hplays & Hdisc).
    exists (players t), (calls t ++ []). simpl. rewrite Hrun.
    rewrite app_nil_r. repeat split; assumption.
  - destruct trs as [|tr trs]; [discriminate Hlen|].
    inversion Htrs as [|? ? [Hquiet Hidle] Htrs']; subst.
    destruct (play_queue_idle tr ps k p Hquiet Hidle Hnd Hown Hget)
      as (t & Hrun & Hnd1 & Hown1 & Hcase).
    rewrite Hq, Hloop in Hcase. destruct Hcase as (Hget1 & Hplays).
    destruct (IH trs (players t) _ ltac:(simpl in Hlen; lia) Htrs' Hnd1 Hown1 Hget1
                eq_refl eq_refl eq_refl) as (ps' & cs & Hticks & Hp & Hd & Hgone).
    exists ps', (calls t ++ cs). simpl ticks. rewrite Hrun, Hticks.
    split; [reflexivity|]. split; [|split; [|exact Hgone]].
    + rewrite plays_on_app, Hplays, Hp. reflexivity.
    + unfold disconnected. apply in_or_app. right. exact Hd.
Qed.

Lemma ticks_drain_witness :
  exists ps' cs,
    ticks [all_idle; all_idle] two_channels = (Ok tt, ps', cs)
    /\ plays_on 2%nat cs = map source_of [item "Z"]
    /\ disconnected 2%nat cs
    /\ players_get ps' 8 = None.
Proof.
  apply (ticks_drain 8 2%nat [item "Z"] [all_idle; all_idle] two_channels
           (mkChannelPlayer 2%nat [item "Z"] None false)).
  - reflexivity.
  - repeat constructor.
  - simpl. constructor.
    + simpl. intros [H|[]]. discriminate H.
    + constructor; [intros []|constructor].
  - intros k' p' [H|[H|[]]] Hk'.
    + injection H as _ <-. simpl. discriminate.
    + injection H as <- _. contradiction.
  - reflexivity.
  - reflexivity.
  - reflexivity.
  - reflexivity.
Defined.

(** X4.  With the loop flag, as many ticks as there are items in a prefix
    [q1] of the pending sequence [q1 ++ q2] of a channel idle at every
    tick play the items of [q1] in order and leave [q2 ++ q1] pending;
    with [q2] empty: a full round plays every item once and leaves the
    queue as it was. *)
Theorem ticks_rotate (k : ChannelID) (c : VoiceClient) (q1 : list VideoInfo) :
  forall (q2 : list VideoInfo) (trs : list Transport) (ps : Players)
         (p : ChannelPlayer),
  List.length trs = List.length q1 ->
  Forall (fun tr => quiet tr /\ idle_on tr c) trs ->
  NoDup (keys ps) ->
  own_connection k c ps ->
  players_get ps k = Some p ->
  connection p = c ->
  loop p = true ->
  queue p = q1 ++ q2 ->
  exists ps' cs p',
    ticks trs ps = (Ok tt, ps', cs)
    /\ plays_on c cs = map source_of q1
    /\ players_get ps' k = Some p'
    /\ queue p' = q2 ++ q1
    /\ loop p' = true
    /\ connection p' = c.
Proof.
  induction q1 as [|x rest IH];
    intros q2 trs ps p Hlen Htrs Hnd Hown Hget Hc Hloop Hq.
  - destruct trs; [|discriminate Hlen].
    exists ps, [], p. simpl. rewrite app_nil_r. repeat split; assumption.
  - destruct trs as [|tr trs]; [discriminate Hlen|].
    inversion Htrs as [|? ? [Hquiet Hidle] Htrs']; subst.
    destruct (play_queue_idle tr ps k p Hquiet Hidle Hnd Hown Hget)
      as (t & Hrun & Hnd1 & Hown1 & Hcase).
    rewrite Hq, Hloop in Hcase. simpl in Hcase. destruct Hcase as (Hget1 & Hplays).
    destruct (IH (q2 ++ [x]) trs (players t) _ ltac:(simpl in Hlen; lia) Htrs' Hnd1 Hown1
                Hget1 eq_refl eq_refl ltac:(simpl; symmetry; apply app_assoc))
      as (ps' & cs & p' & Hticks & Hp & Hget' & Hq' & Hl' & Hc').
    exists ps', (calls t ++ cs), p'. simpl ticks. rewrite Hrun, Hticks.
    split; [reflexivity|]. split; [|split; [exact Hget'|split; [|split; assumption]]].
    + rewrite plays_on_app, Hplays, Hp. reflexivity.
    + rewrite Hq'. rewrite <- app_assoc. reflexivity.
Qed.

Lemma ticks_rotate_witness :
  exists ps' cs p',
    ticks [all_idle; busy_2] two_channels = (Ok tt, ps', cs)
    /\ plays_on 1%nat cs = map source_of [item "X"; item "Y"]
    /\ players_get ps' 7 = Some p'
    /\ queue p' = [] ++ [item "X"; item "Y"]
    /\ loop p' = true
    /\ connection p' = 1%nat.
Proof.
  apply (ticks_rotate 7 1%nat [item "X"; item "Y"] [] [all_idle; busy_2] two_channels
           (mkChannelPlayer 1%nat [item "X"; item "Y"] None true)).
  - reflexivity.
  - constructor; [repeat constructor|].
    constructor; [|constructor].
    split; [|split; reflexivity].
    intros c. unfold busy_2. destruct (Nat.eqb c 2); split; reflexivity.
  - simpl. constructor.
    + simpl. intros [H|[]]. discriminate H.
    + constructor; [intros []|constructor].
  - intros k' p' [H|[H|[]]] Hk'.
    + injection H as <- _. contradiction.
    + injection H as _ <-. simpl. discriminate.
  - reflexivity.
  - reflexivity.
  - reflexivity.
  - reflexivity.
Defined.

(** ** skip and loop: what they leave alone *)

Lemma set_queue_same (p : ChannelPlayer) : set_queue (queue p) p = p.
Proof. destruct p. reflexivity. Qed.

Lemma players_update_same (ps : Players) (k : ChannelID) (p : ChannelPlayer) :
  players_get ps k = Some p -> players_update ps k p = ps.
Proof.
  induction ps as [|[k0 p0] ps IH]; simpl; [reflexivity|].
  destruct (Z.eqb_spec k k0) as [->|Hne]; intros H.
  - injection H as ->. reflexivity.
  - rewrite (IH H). reflexivity.
Qed.

Lemma players_update_twice (ps : Players) (k : ChannelID) (p1 p2 : ChannelPlayer) :
  players_update (players_update ps k p1) k p2 = players_update ps k p2.
Proof.
  induction ps as [|[k0 p0] ps IH]; simpl; [reflexivity|].
  destruct (Z.eqb_spec k k0) as [->|Hne]; simpl.
  - rewrite Z.eqb_refl. reflexivity.
  - destruct (Z.eqb_spec k k0) as [->|_]; [contradiction|]. rewrite IH. reflexivity.
Qed.

(** X5.  [skip] changes nothing but the pending sequence of the caller's
    channel: the channels registered stay the same, every other channel
    keeps its entry, and the caller's channel keeps its voice client, its
    item now playing and its loop flag.  Without the loop flag the new
    pending sequence is the old one without some items at its front,
    whatever the step count, negative ones included. *)
Theorem skip_frame (ps : Players) (ctx : Context) (steps : Z) :
  keys (fst (skip ps ctx steps)) = keys ps
  /\ (forall k, in_voice_channel ctx <> Some k ->
                players_get (fst (skip ps ctx steps)) k = players_get ps k)
  /\ (forall k p,
        players_get ps k = Some p ->
        exists q,
          players_get (fst (skip ps ctx steps)) k = Some (set_queue q p)
          /\ (loop p = false -> exists n, q = skipn n (queue p))).
Proof.
  unfold skip. destruct (in_voice_channel ctx) as [channel|] eqn:Hctx.
  2:{ simpl. repeat split; auto. intros k p Hget. exists (queue p).
      rewrite set_queue_same. split; [exact Hget|]. intros _. exists 0%nat. reflexivity. }
  destruct (players_get ps channel) as [player|] eqn:Hget.
  2:{ simpl. repeat split; auto. intros k p Hk. exists (queue p).
      rewrite set_queue_same. split; [exact Hk|]. intros _. exists 0%nat. reflexivity. }
  destruct (queue player) as [|x rest] eqn:Hq.
  { simpl. repeat split; auto. intros k p Hk. exists (queue p).
    rewrite set_queue_same. split; [exact Hk|]. intros _. exists 0%nat. reflexivity. }
  simpl fst. split; [apply keys_update|]. split.
  - intros k Hk. apply players_get_update_other. congruence.
  - intros k p Hk. destruct (Z.eq_dec k channel) as [->|Hne].
    + rewrite Hget in Hk. injection Hk as <-.
      rewrite (players_get_update _ _ player _ Hget).
      simpl loop. destruct (loop player) eqn:Hl.
      * eexists. split; [reflexivity|]. intros H. discriminate H.
      * eexists. split; [reflexivity|]. intros _.
        rewrite Hq. unfold slice_from. eauto.
    + rewrite players_get_update_other by exact Hne.
      exists (queue p). rewrite set_queue_same. split; [exact Hk|].
      intros _. exists 0%nat. reflexivity.
Qed.

(** X6.  [loop] sets the flag of the caller's channel to the value given,
    or to its opposite when none is given, and changes nothing else in the
    registry; two calls without a value put the registry back as it was. *)
Theorem loop_command_toggle (ps : Players) (ctx : Context) (k : ChannelID)
    (p : ChannelPlayer) :
  in_voice_channel ctx = Some k ->
  players_get ps k = Some p ->
  (forall v : option bool,
     fst (loop_command ps ctx v)
     = players_update ps k
         (set_loop (match v with Some b => b | None => negb (loop p) end) p))
  /\ fst (loop_command (fst (loop_command ps ctx None)) ctx None) = ps
  /\ (forall b, fst (loop_command (fst (loop_command ps ctx (Some b))) ctx (Some b))
                = fst (loop_command ps ctx (Some b))).
Proof.
  intros Hctx Hget.
  assert (Hone : forall (qs : Players) (q : ChannelPlayer) (v : option bool),
            players_get qs k = Some q ->
            fst (loop_command qs ctx v)
            = players_update qs k
                (set_loop (match v with Some b => b | None => negb (loop q) end) q)).
  { intros qs q v Hq. unfold loop_command. rewrite Hctx, Hq.
    destruct v; reflexivity. }
  split; [intros v; apply (Hone ps p v Hget)|]. split.
  - rewrite (Hone ps p None Hget).
    rewrite (Hone _ _ None (players_get_update ps k p _ Hget)).
    rewrite players_update_twice. simpl. rewrite negb_involutive.
    replace (set_loop (loop p) (set_loop (negb (loop p)) p)) with p
      by (destruct p; reflexivity).
    apply (players_update_same ps k p Hget).
  - intros b. rewrite (Hone ps p (Some b) Hget).
    rewrite (Hone _ _ (Some b) (players_get_update ps k p _ Hget)).
    rewrite players_update_twice. reflexivity.
Qed.

Lemma loop_command_toggle_witness :
  fst (loop_command (fst (loop_command two_channels (member_in 7) None))
         (member_in 7) None) = two_channels.
Proof.
  destruct (loop_command_toggle two_channels (member_in 7) 7
              (mkChannelPlayer 1%nat [item "X"; item "Y"] None true)
              eq_refl eq_refl) as (_ & Htwice & _).
  exact Htwice.
Defined.

(** ** queue: the field "Up next" *)

Lemma length_append (a b : string) :
  String.length (a ++ b) = (String.length a + String.length b)%nat.
Proof.
  induction a as [|ch a IH]; simpl; [reflexivity|]. rewrite IH. reflexivity.
Qed.

Lemma fill_description_spec (values : list string) :
  forall description : string,
  exists shown remaining,
    values = shown ++ remaining
    /\ fill_description description values
       = ((description ++ glue shown)%string, remaining)
    /\ (shown <> [] ->
        Z.of_nat (String.length (description ++ glue shown)) <= 2000)
    /\ match remaining with
       | [] => True
       | value :: _ =>
           2000 < Z.of_nat (String.length (description ++ glue shown))
                  + Z.of_nat (String.length value)
       end.
Proof.
  induction values as [|value values IH]; intros description; simpl.
  - exists [], []. simpl. rewrite append_nil_r. repeat split; congruence.
  - destruct (Z.ltb_spec 2000 (Z.of_nat (String.length description)
                                + Z.of_nat (String.length value))) as [Hover|Hfits].
    + exists [], (value :: values). simpl. rewrite append_nil_r.
      repeat split; [congruence|exact Hover].
    + destruct (IH (description ++ value)%string)
        as (shown & remaining & -> & Hfill & Hlen & Hnext).
      exists (value :: shown), remaining. simpl. rewrite <- append_assoc.
      split; [reflexivity|]. split; [exact Hfill|]. split.
      * intros _. destruct shown as [|s shown].
        -- simpl. rewrite append_nil_r. rewrite length_append. lia.
        -- apply Hlen. discriminate.
      * exact Hnext.
Qed.

(** X7.  The field "Up next" shows the entries of the queue from the first
    on, as many as fit into 2000 characters, and not one less; when some
    are left, it ends with their count. *)
Theorem up_next_spec (values : list string) :
  exists shown remaining,
    values = shown ++ remaining
    /\ Z.of_nat (String.length (glue shown)) <= 2000
    /\ match remaining with
       | [] => up_next values = glue shown
       | value :: _ =>
           2000 < Z.of_nat (String.length (glue shown))
                  + Z.of_nat (String.length value)
           /\ up_next values
              = (glue shown ++ "and " ++ str_of_int (Z.of_nat (List.length remaining))
                 ++ " more...")%string
       end.
Proof.
  destruct (fill_description_spec values "")
    as (shown & remaining & Hsplit & Hfill & Hlen & Hnext).
  simpl in Hfill, Hlen, Hnext.
  exists shown, remaining. split; [exact Hsplit|]. split.
  - destruct shown as [|s shown]; [simpl; lia|]. apply Hlen. discriminate.
  - unfold up_next. rewrite Hfill.
    destruct remaining as [|value remaining]; [reflexivity|].
    split; [exact Hnext|reflexivity].
Qed.

(** ** Regular expressions: what a match consumes *)

Lemma star_class_Some {A : Type} (p : ascii -> bool) (s : string)
    (k : string -> option A) (x : A) :
  star_class p s k = Some x ->
  exists a b, s = (a ++ b)%string /\ all_chars p a = true /\ k b = Some x.
Proof.
  induction s as [|c s IH]; simpl.
  - intros H. exists "", "". auto.
  - destruct (p c) eqn:Hc.
    + destruct (star_class p s k) as [y|] eqn:E.
      * intros H. injection H as ->.
        destruct (IH eq_refl) as (a & b & -> & Ha & Hk).
        exists (String c a), b. simpl. rewrite Hc, Ha. auto.
      * intros H. exists "", (String c s). auto.
    + intros H. exists "", (String c s). auto.
Qed.

(** A pattern without a group hands the rest of the string and the groups
    it was given to what follows it. *)
Lemma run_groupless (r : regex) :
  groupless r = true ->
  forall s caps k m,
    run r s caps k = Some m ->
    exists a s', s = (a ++ s')%string /\ k s' caps = Some m.
Proof.
  induction r as [l|r1 IH1 r2 IH2|r1 IH1 r2 IH2|r1 IH1|p|p|n r1 IH1|];
    simpl; intros Hg s caps k m Hrun.
  - destruct (strip_prefix l s) as [s'|] eqn:E; [|discriminate].
    exists l, s'. split; [apply (strip_prefix_Some _ _ _ E)|exact Hrun].
  - apply andb_prop in Hg. destruct Hg as [Hg1 Hg2].
    destruct (IH1 Hg1 _ _ _ _ Hrun) as (a & s1 & -> & H1).
    destruct (IH2 Hg2 _ _ _ _ H1) as (b & s2 & -> & H2).
    exists (a ++ b)%string, s2. rewrite append_assoc. auto.
  - apply andb_prop in Hg. destruct Hg as [Hg1 Hg2].
    destruct (run r1 s caps k) as [y|] eqn:E.
    + injection Hrun as ->. apply (IH1 Hg1 _ _ _ _ E).
    + apply (IH2 Hg2 _ _ _ _ Hrun).
  - destruct (run r1 s caps k) as [y|] eqn:E.
    + injection Hrun as ->. apply (IH1 Hg _ _ _ _ E).
    + exists "", s. auto.
  - destruct (star_class_Some _ _ _ _ Hrun) as (a & b & -> & _ & Hk). eauto.
  - destruct s as [|c s]; [discriminate|]. destruct (p c); [|discriminate].
    destruct (star_class_Some _ _ _ _ Hrun) as (a & b & -> & _ & Hk).
    exists (String c a), b. auto.
  - discriminate.
  - exists "", s. split; [reflexivity|].
    destruct s as [|c [|? ?]]; try discriminate; [exact Hrun|].
    destruct (Ascii.eqb c newline); [exact Hrun|discriminate].
Qed.

Lemma substring_prefix (a b : string) :
  substring 0 (String.length a) (a ++ b) = a.
Proof.
  induction a as [|c a IH]; simpl.
  - destruct b; reflexivity.
  - rewrite IH. reflexivity.
Qed.

(** The group [(?P<id>[a-zA-Z0-9_-]+)] takes a non-empty run of id
    characters and records it. *)
Lemma run_id_group (s : string) (caps : captures)
    (k : string -> captures -> option captures) (m : captures) :
  run (Group "id" (Plus id_char)) s caps k = Some m ->
  exists id s',
    s = (id ++ s')%string /\ id <> "" /\ all_chars id_char id = true
    /\ k s' (("id", id) :: caps) = Some m.
Proof.
  simpl. destruct s as [|c s]; [discriminate|].
  destruct (id_char c) eqn:Hc; [|discriminate].
  intros Hrun. destruct (star_class_Some _ _ _ _ Hrun) as (a & b & -> & Ha & Hk).
  exists (String c a), b. split; [reflexivity|]. split; [discriminate|].
  split; [simpl; rewrite Hc; exact Ha|].
  replace (String.length (String c (a ++ b)) - String.length b)%nat
    with (String.length (String c a)) in Hk
    by (cbn [String.length]; rewrite length_append; lia).
  change (String c (a ++ b)) with (String c a ++ b)%string in Hk.
  rewrite substring_prefix in Hk. exact Hk.
Qed.

(** X8.  An id that [to_invidious_id] takes from the input itself, through
    the watch-URL pattern or the YouTube pattern, is a non-empty run of
    the characters [a-z], [A-Z], [0-9], [_] and [-] that stands in the
    input; nothing else is recorded by the match. *)
Theorem direct_id_is_clean (url : string) (m : captures) :
  re_match INVIDIOUS_ID_RE url = Some m \/ re_match YOUTUBE_ID_RE url = Some m ->
  exists before id rest,
    url = (before ++ id ++ rest)%string
    /\ id <> ""
    /\ all_chars id_char id = true
    /\ m = [("id", id)]
    /\ group m "id" = JStr id.
Proof.
  unfold re_match. fold done.
  assert (Hend : forall s caps r,
            groupless r = true -> run r s caps done = Some m -> m = caps).
  { intros s caps r Hg Hrun.
    destruct (run_groupless r Hg _ _ _ _ Hrun) as (? & ? & _ & H).
    unfold done in H. congruence. }
  intros [Hrun|Hrun].
  - unfold INVIDIOUS_ID_RE in Hrun. cbn [seq] in Hrun.
    change (run (Plus dot) url []
              (fun s caps =>
                 run (Lit "watch?v=") s caps
                   (fun s1 caps1 =>
                      run (Group "id" (Plus id_char)) s1 caps1
                        (fun s2 caps2 => run Dollar s2 caps2 done))) = Some m) in Hrun.
    destruct (run_groupless (Plus dot) eq_refl _ _ _ _ Hrun) as (a & s1 & -> & H1).
    destruct (run_groupless (Lit "watch?v=") eq_refl _ _ _ _ H1) as (b & s2 & -> & H2).
    destruct (run_id_group _ _ _ _ H2) as (id & s3 & -> & Hne & Hid & H3).
    rewrite (Hend _ _ Dollar eq_refl H3).
    exists (a ++ b)%string, id, s3. rewrite append_assoc. auto.
  - unfold YOUTUBE_ID_RE in Hrun. cbn [seq] in Hrun.
    match type of Hrun with
    | run (Cat ?r1 (Cat ?r2 (Cat ?r3 (Cat ?r4 (Cat ?r5 ?r6))))) _ _ _ = _ =>
        change (run r1 url []
                  (fun s1 c1 =>
                     run r2 s1 c1
                       (fun s2 c2 =>
                          run r3 s2 c2
                            (fun s3 c3 =>
                               run r4 s3 c3
                                 (fun s4 c4 =>
                                    run r5 s4 c4 (fun s5 c5 => run r6 s5 c5 done)))))
                = Some m) in Hrun;
        destruct (run_groupless r1 eq_refl _ _ _ _ Hrun) as (a1 & s1 & -> & H1);
        destruct (run_groupless r2 eq_refl _ _ _ _ H1) as (a2 & s2 & -> & H2);
        destruct (run_groupless r3 eq_refl _ _ _ _ H2) as (a3 & s3 & -> & H3);
        destruct (run_groupless r4 eq_refl _ _ _ _ H3) as (a4 & s4 & -> & H4);
        destruct (run_id_group _ _ _ _ H4) as (id & s5 & -> & Hne & Hid & H5);
        rewrite (Hend _ _ r6 eq_refl H5)
    end.
    exists (a1 ++ a2 ++ a3 ++ a4)%string, id, s5.
    rewrite !append_assoc. auto.
Qed.

Lemma direct_id_is_clean_witness :
  exists before id rest,
    "https://youtu.be/abc-123&t=5" = (before ++ id ++ rest)%string
    /\ id <> ""
    /\ all_chars id_char id = true
    /\ [("id", "abc-123")] = [("id", id)]
    /\ group [("id", "abc-123")] "id" = JStr id.
Proof.
  apply (direct_id_is_clean "https://youtu.be/abc-123&t=5" [("id", "abc-123")]).
  right. reflexivity.
Defined.

(** ** Regular expressions: inputs without a question mark *)

Lemma all_chars_impl (p q : ascii -> bool) (s : string) :
  (forall c, p c = true -> q c = true) ->
  all_chars p s = true -> all_chars q s = true.
Proof.
  intros Hpq. induction s as [|c s IH]; simpl; [reflexivity|].
  intros H. apply andb_prop in H. destruct H as [Hc Hs].
  rewrite (Hpq c Hc), (IH Hs). reflexivity.
Qed.

Lemma id_char_no_query (c : ascii) : id_char c = true -> no_query c = true.
Proof.
  destruct c as [[] [] [] [] [] [] [] []]; intros H; try reflexivity; discriminate H.
Qed.

(** When what follows a pattern fails on every string free of a class of
    characters, so does the pattern followed by it. *)
Lemma run_none (q : ascii -> bool) (r : regex) :
  forall s caps k,
    (forall u c, all_chars q u = true -> k u c = None) ->
    all_chars q s = true ->
    run r s caps k = None.
Proof.
  induction r as [l|r1 IH1 r2 IH2|r1 IH1 r2 IH2|r1 IH1|p|p|n r1 IH1|];
    simpl; intros s caps k Hk Hs.
  - destruct (strip_prefix l s) as [s'|] eqn:E; [|reflexivity].
    apply strip_prefix_Some in E. subst s.
    rewrite all_chars_app in Hs. apply andb_prop in Hs. apply Hk. apply Hs.
  - apply IH1; [|exact Hs]. intros u c Hu. apply IH2; assumption.
  - rewrite (IH1 _ _ _ Hk Hs). apply (IH2 _ _ _ Hk Hs).
  - rewrite (IH1 _ _ _ Hk Hs). apply (Hk _ _ Hs).
  - apply star_class_none with (q := q); [|exact Hs]. intros u Hu. apply Hk. exact Hu.
  - destruct s as [|c s]; [reflexivity|]. destruct (p c); [|reflexivity].
    simpl in Hs. apply andb_prop in Hs.
    apply star_class_none with (q := q); [|apply Hs]. intros u Hu. apply Hk. exact Hu.
  - apply IH1; [|exact Hs]. intros u c Hu. apply Hk. exact Hu.
  - destruct s as [|c [|? ?]]; [apply Hk; exact Hs| |reflexivity].
    destruct (Ascii.eqb c newline); [apply Hk; exact Hs|reflexivity].
Qed.

(** A literal with a question mark in it does not match at the start of a
    string without one. *)
Lemma run_Lit_query (l s : string) (caps : captures)
    (k : string -> captures -> option captures) :
  all_chars no_query l = false ->
  all_chars no_query s = true ->
  run (Lit l) s caps k = None.
Proof.
  intros Hl Hs. simpl. destruct (strip_prefix l s) as [s'|] eqn:E; [|reflexivity].
  apply strip_prefix_Some in E. subst s.
  rewrite all_chars_app, Hl in Hs. discriminate Hs.
Qed.

(** The watch-URL pattern needs a question mark. *)
Lemma INVIDIOUS_ID_RE_needs_query (url : string) :
  all_chars no_query url = true -> re_match INVIDIOUS_ID_RE url = None.
Proof.
  intros Hurl. unfold re_match, INVIDIOUS_ID_RE. cbn [seq].
  change (run (Plus dot) url []
            (fun s caps =>
               run (Lit "watch?v=") s caps
                 (fun s1 caps1 =>
                    run (Group "id" (Plus id_char)) s1 caps1
                      (fun s2 caps2 => run Dollar s2 caps2 (fun _ c => Some c))))
          = None).
  apply run_none with (q := no_query); [|exact Hurl].
  intros u c Hu. apply run_Lit_query; [reflexivity|exact Hu].
Qed.

(** *** Steps of a successful match *)

Lemma run_Cat_then (a b : regex) (s : string) (caps : captures)
    (k : string -> captures -> option captures) :
  run (Cat a b) s caps k = run a s caps (fun s' caps' => run b s' caps' k).
Proof. reflexivity. Qed.

Lemma run_Cat_assoc (a b r : regex) (s : string) (caps : captures)
    (k : string -> captures -> option captures) :
  run (Cat (Cat a b) r) s caps k = run (Cat a (Cat b r)) s caps k.
Proof. reflexivity. Qed.

Lemma run_Cat_Lit (l : string) (r : regex) (s : string) (caps : captures)
    (k : string -> captures -> option captures) :
  run (Cat (Lit l) r) (l ++ s) caps k = run r s caps k.
Proof. cbn [run]. rewrite strip_prefix_app. reflexivity. Qed.

Lemma run_Cat_Opt_hit (l : string) (r : regex) (s : string) (caps : captures)
    (k : string -> captures -> option captures) (x : captures) :
  run r s caps k = Some x ->
  run (Cat (Opt (Lit l)) r) (l ++ s) caps k = Some x.
Proof. intros H. cbn [run]. rewrite strip_prefix_app, H. reflexivity. Qed.

Lemma run_Cat_Opt_miss (l : string) (r : regex) (s : string) (caps : captures)
    (k : string -> captures -> option captures) :
  strip_prefix l s = None ->
  run (Cat (Opt (Lit l)) r) s caps k = run r s caps k.
Proof. intros H. cbn [run]. rewrite H. reflexivity. Qed.

Lemma run_Cat_Alt_left (a b r : regex) (s : string) (caps : captures)
    (k : string -> captures -> option captures) (x : captures) :
  run (Cat a r) s caps k = Some x ->
  run (Cat (Alt a b) r) s caps k = Some x.
Proof. cbn [run]. intros H. rewrite H. reflexivity. Qed.

Lemma run_Cat_Alt_right (a b r : regex) (s : string) (caps : captures)
    (k : string -> captures -> option captures) :
  run (Cat a r) s caps k = None ->
  run (Cat (Alt a b) r) s caps k = run (Cat b r) s caps k.
Proof. cbn [run]. intros H. rewrite H. reflexivity. Qed.

Lemma star_class_stop {A : Type} (p : ascii -> bool) (c : ascii) (s : string)
    (k : string -> option A) :
  p c = false -> star_class p (String c s) k = k (String c s).
Proof. intros H. simpl. rewrite H. reflexivity. Qed.

(** A non-empty run of class characters is taken whole by [c+] when the
    match goes on from its end. *)
Lemma run_Cat_Plus (p : ascii -> bool) (r : regex) (c : ascii) (w s : string)
    (caps : captures) (k : string -> captures -> option captures) (x : captures) :
  all_chars p (String c w) = true ->
  star_class p s (fun s' => run r s' caps k) = Some x ->
  run (Cat (Plus p) r) (String c w ++ s) caps k = Some x.
Proof.
  intros Hw Hs. simpl in Hw. apply andb_prop in Hw. destruct Hw as [Hc Hw].
  cbn [run append]. rewrite Hc. apply star_class_prefix; assumption.
Qed.

(** The id group takes a non-empty run of id characters whole when what
    comes after it is the end of the string or another character. *)
Lemma run_id_take (id rest : string) (caps : captures)
    (k : string -> captures -> option captures) (x : captures) :
  id <> "" ->
  all_chars id_char id = true ->
  match rest with
  | "" => True
  | String c _ => id_char c = false
  end ->
  k rest (("id", id) :: caps) = Some x ->
  run (Group "id" (Plus id_char)) (id ++ rest) caps k = Some x.
Proof.
  intros Hne Hid Hrest Hk. destruct id as [|c id]; [congruence|].
  simpl in Hid. apply andb_prop in Hid. destruct Hid as [Hc Hid].
  cbn [run append]. rewrite Hc. apply star_class_prefix; [exact Hid|].
  assert (Hcap : substring 0 (String.length (String c (id ++ rest)) - String.length rest)
                   (String c (id ++ rest)) = String c id).
  { replace (String.length (String c (id ++ rest)) - String.length rest)%nat
      with (String.length (String c id))
      by (cbn [String.length]; rewrite length_append; lia).
    apply (substring_prefix (String c id) rest). }
  destruct rest as [|c' rest].
  - cbn [star_class]. rewrite Hcap. exact Hk.
  - rewrite star_class_stop by exact Hrest. rewrite Hcap. exact Hk.
Qed.

(** *** Where the watch-URL pattern matches *)

Lemma run_Lit_Some (l s : string) (caps : captures)
    (k : string -> captures -> option captures) (m : captures) :
  run (Lit l) s caps k = Some m ->
  exists s', s = (l ++ s')%string /\ k s' caps = Some m.
Proof.
  simpl. destruct (strip_prefix l s) as [s'|] eqn:E; [|discriminate].
  intros H. exists s'. split; [apply (strip_prefix_Some _ _ _ E)|exact H].
Qed.

Lemma run_Dollar_Some (s : string) (caps : captures)
    (k : string -> captures -> option captures) (m : captures) :
  run Dollar s caps k = Some m -> s = "" \/ s = String newline "".
Proof.
  simpl. destruct s as [|c [|? ?]]; [auto| |discriminate].
  destruct (Ascii.eqb_spec c newline) as [->|_]; [auto|discriminate].
Qed.

Lemma INVIDIOUS_ID_RE_shape (url : string) (m : captures) :
  re_match INVIDIOUS_ID_RE url = Some m ->
  exists a id tail,
    url = (a ++ "watch?v=" ++ id ++ tail)%string
    /\ all_chars id_char id = true
    /\ (tail = "" \/ tail = String newline "").
Proof.
  unfold re_match, INVIDIOUS_ID_RE. cbn [seq]. intros Hrun.
  change (run (Plus dot) url []
            (fun s caps =>
               run (Lit "watch?v=") s caps
                 (fun s1 caps1 =>
                    run (Group "id" (Plus id_char)) s1 caps1
                      (fun s2 caps2 => run Dollar s2 caps2 (fun _ c => Some c))))
          = Some m) in Hrun.
  destruct (run_groupless (Plus dot) eq_refl _ _ _ _ Hrun) as (a & s1 & -> & H1).
  destruct (run_Lit_Some _ _ _ _ _ H1) as (s2 & -> & H2).
  destruct (run_id_group _ _ _ _ H2) as (id & s3 & -> & _ & Hid & H3).
  exists a, id, s3. repeat split; [exact Hid|apply (run_Dollar_Some _ _ _ _ H3)].
Qed.

(** The text after the last question mark of a string. *)
Lemma after_last_query (x1 x2 y1 y2 : string) :
  all_chars no_query y1 = true ->
  all_chars no_query y2 = true ->
  (x1 ++ "?" ++ y1 = x2 ++ "?" ++ y2)%string ->
  y1 = y2.
Proof.
  intros H1 H2. revert x2. induction x1 as [|c x1 IH]; intros x2 E.
  - destruct x2 as [|c x2]; simpl in E.
    + injection E as E. exact E.
    + injection E as <- E. subst y1. rewrite all_chars_app in H1.
      simpl in H1. rewrite andb_false_r in H1. discriminate H1.
  - destruct x2 as [|c2 x2]; simpl in E.
    + injection E as -> E. subst y2. rewrite all_chars_app in H2.
      simpl in H2. rewrite andb_false_r in H2. discriminate H2.
    + injection E as _ E. apply (IH x2 E).
Qed.

(** An id followed by [&] is not an id followed by the end of the string. *)
Lemma id_then_ampersand (id' id tail rest : string) :
  all_chars id_char id' = true ->
  all_chars id_char id = true ->
  tail = "" \/ tail = String newline "" ->
  (id' ++ tail)%string <> (id ++ "&" ++ rest)%string.
Proof.
  intros H' H Htail. revert id H. induction id' as [|c' id' IH]; intros id H E.
  - simpl in E. destruct id as [|c id]; simpl in E.
    + destruct Htail as [->| ->]; discriminate E.
    + destruct Htail as [->| ->]; [discriminate E|].
      injection E as <- _. simpl in H. discriminate H.
  - simpl in H'. apply andb_prop in H'. destruct H' as [Hc' H'].
    destruct id as [|c id]; simpl in E.
    + injection E as -> _. discriminate Hc'.
    + injection E as _ E. simpl in H. apply andb_prop in H.
      apply (IH H' id (proj2 H) E).
Qed.

Lemma INVIDIOUS_ID_RE_parameters (before id rest : string) :
  all_chars no_query before = true ->
  all_chars id_char id = true ->
  all_chars no_query rest = true ->
  re_match INVIDIOUS_ID_RE (before ++ "?v=" ++ id ++ "&" ++ rest) = None.
Proof.
  intros Hb Hid Hrest.
  destruct (re_match INVIDIOUS_ID_RE (before ++ "?v=" ++ id ++ "&" ++ rest))
    as [m|] eqn:E; [|reflexivity].
  exfalso. destruct (INVIDIOUS_ID_RE_shape _ _ E) as (a & id' & tail & Heq & Hid' & Htail).
  assert (Hq' : all_chars no_query id' = true)
    by (apply (all_chars_impl id_char); [apply id_char_no_query|exact Hid']).
  assert (Hq : all_chars no_query id = true)
    by (apply (all_chars_impl id_char); [apply id_char_no_query|exact Hid]).
  assert (Hsame : ("v=" ++ id ++ "&" ++ rest)%string = ("v=" ++ id' ++ tail)%string).
  { apply (after_last_query before (a ++ "watch")).
    - simpl. rewrite all_chars_app, Hq. simpl. exact Hrest.
    - simpl. rewrite all_chars_app, Hq'. destruct Htail as [->| ->]; reflexivity.
    - rewrite append_assoc. exact Heq. }
  simpl in Hsame. injection Hsame as Hsame.
  apply (id_then_ampersand id' id tail rest Hid' Hid Htail). symmetry. exact Hsame.
Qed.

(** *** Where the YouTube pattern matches *)

Lemma run_Cat_Lit_query (l : string) (r : regex) (s : string) (caps : captures)
    (k : string -> captures -> option captures) :
  all_chars no_query l = false ->
  all_chars no_query s = true ->
  run (Cat (Lit l) r) s caps k = None.
Proof.
  intros Hl Hs. cbn [run]. destruct (strip_prefix l s) as [s'|] eqn:E; [|reflexivity].
  apply strip_prefix_Some in E. subst s.
  rewrite all_chars_app, Hl in Hs. discriminate Hs.
Qed.

Lemma YOUTUBE_ID_RE_short (id : string) :
  id <> "" ->
  all_chars id_char id = true ->
  re_match YOUTUBE_ID_RE ("https://youtu.be/" ++ id) = Some [("id", id)].
Proof.
  intros Hne Hid. unfold re_match, YOUTUBE_ID_RE. cbn [seq]. fold done.
  change ("https://youtu.be/" ++ id)%string
    with ("http" ++ "s" ++ "://" ++ "youtu.be" ++ "/" ++ id)%string.
  rewrite run_Cat_Lit. apply run_Cat_Opt_hit. rewrite run_Cat_Lit.
  rewrite run_Cat_Alt_right.
  2:{ rewrite !run_Cat_assoc. rewrite run_Cat_Opt_miss by reflexivity. reflexivity. }
  rewrite run_Cat_assoc. rewrite run_Cat_Lit.
  rewrite run_Cat_Alt_right.
  2:{ rewrite !run_Cat_assoc.
      match goal with
      | |- run (Cat ?a (Cat (Cat ?b ?l) ?r)) ?s ?c ?k = None =>
          change (run (Cat a b) s c (fun u c' => run (Cat l r) u c' k) = None)
      end.
      apply run_none with (q := no_query).
      - intros u c Hu. apply run_Cat_Lit_query; [reflexivity|exact Hu].
      - simpl. apply (all_chars_impl id_char); [apply id_char_no_query|exact Hid]. }
  rewrite run_Cat_Lit. cbn [run].
  pose proof (run_id_take id "" []
                (fun s2 c2 =>
                   match run Dollar s2 c2 done with
                   | Some x => Some x
                   | None => run (Lit "&") s2 c2 done
                   end) [("id", id)] Hne Hid I eq_refl) as H.
  rewrite append_nil_r in H. exact H.
Qed.

Lemma YOUTUBE_ID_RE_parameters (id rest : string) :
  id <> "" ->
  all_chars id_char id = true ->
  re_match YOUTUBE_ID_RE ("https://www.youtube.com/watch?v=" ++ id ++ "&" ++ rest)
  = Some [("id", id)].
Proof.
  intros Hne Hid. unfold re_match, YOUTUBE_ID_RE. cbn [seq]. fold done.
  change ("https://www.youtube.com/watch?v=" ++ id ++ "&" ++ rest)%string
    with ("http" ++ "s" ++ "://" ++ "www." ++ "youtube." ++ "com"
          ++ String "/" ("watch" ++ "?v=" ++ id ++ "&" ++ rest))%string.
  rewrite run_Cat_Lit. apply run_Cat_Opt_hit. rewrite run_Cat_Lit.
  apply run_Cat_Alt_left. rewrite ?run_Cat_assoc.
  apply run_Cat_Opt_hit. rewrite ?run_Cat_assoc. rewrite run_Cat_Lit.
  rewrite ?run_Cat_assoc. apply run_Cat_Plus; [reflexivity|].
  rewrite star_class_stop by reflexivity.
  change (String "/" ("watch" ++ "?v=" ++ id ++ "&" ++ rest))%string
    with ("/watch" ++ "?v=" ++ id ++ "&" ++ rest)%string.
  rewrite ?run_Cat_assoc. rewrite run_Cat_Lit.
  apply run_Cat_Alt_left. rewrite run_Cat_Lit.
  rewrite run_Cat_then. apply run_id_take; [exact Hne|exact Hid|reflexivity|].
  destruct rest; reflexivity.
Qed.

(** X9.  A short URL [https://youtu.be/<id>] resolves to its id without any
    request: the watch-URL pattern does not match it, the YouTube pattern
    does. *)
Theorem to_invidious_id_short_link (env : Env) (settings : Settings) (id : string)
    (s : State) :
  id <> "" ->
  all_chars id_char id = true ->
  re_match INVIDIOUS_ID_RE ("https://youtu.be/" ++ id) = None
  /\ to_invidious_id env settings ("https://youtu.be/" ++ id) s = (Ok (JStr id), s).
Proof.
  intros Hne Hid.
  assert (Hinv : re_match INVIDIOUS_ID_RE ("https://youtu.be/" ++ id) = None).
  { apply INVIDIOUS_ID_RE_needs_query. simpl.
    apply (all_chars_impl id_char); [apply id_char_no_query|exact Hid]. }
  split; [exact Hinv|].
  unfold to_invidious_id. rewrite Hinv, (YOUTUBE_ID_RE_short id Hne Hid). reflexivity.
Qed.

Lemma to_invidious_id_short_link_witness :
  re_match INVIDIOUS_ID_RE ("https://youtu.be/" ++ "dQw4w9WgXcQ") = None
  /\ to_invidious_id spotify_env sample_settings ("https://youtu.be/" ++ "dQw4w9WgXcQ")
       fresh_state
     = (Ok (JStr "dQw4w9WgXcQ"), fresh_state).
Proof.
  apply (to_invidious_id_short_link spotify_env sample_settings "dQw4w9WgXcQ" fresh_state).
  - discriminate.
  - reflexivity.
Defined.

(** X10.  A YouTube watch URL resolves to its id without any request, with
    or without further parameters after the id, as long as these hold no
    question mark; with parameters it is the YouTube pattern that gives
    the id, the watch-URL pattern does not match.  In particular the
    [yt_url] that [play] stores for an item resolves back to the id it was
    built from. *)
Theorem to_invidious_id_watch_url (env : Env) (settings : Settings) (id : string)
    (s : State) :
  id <> "" ->
  all_chars id_char id = true ->
  to_invidious_id env settings ("https://www.youtube.com/watch?v=" ++ id) s
  = (Ok (JStr id), s)
  /\ forall rest,
       all_chars no_query rest = true ->
       re_match INVIDIOUS_ID_RE
         ("https://www.youtube.com/watch?v=" ++ id ++ "&" ++ rest) = None
       /\ to_invidious_id env settings
            ("https://www.youtube.com/watch?v=" ++ id ++ "&" ++ rest) s
          = (Ok (JStr id), s).
Proof.
  intros Hne Hid. split.
  - unfold to_invidious_id.
    change ("https://www.youtube.com/watch?v=" ++ id)%string
      with ("https://www.youtube.com/" ++ "watch?v=" ++ id)%string.
    rewrite (INVIDIOUS_ID_RE_watch "https://www.youtube.com/" id); try assumption;
      [reflexivity|discriminate|reflexivity].
  - intros rest Hrest.
    assert (Hinv : re_match INVIDIOUS_ID_RE
                     ("https://www.youtube.com/watch?v=" ++ id ++ "&" ++ rest) = None).
    { apply (INVIDIOUS_ID_RE_parameters "https://www.youtube.com/watch" id rest);
        [reflexivity|exact Hid|exact Hrest]. }
    split; [exact Hinv|].
    unfold to_invidious_id.
    rewrite Hinv, (YOUTUBE_ID_RE_parameters id rest Hne Hid). reflexivity.
Qed.

Lemma to_invidious_id_watch_url_witness :
  to_invidious_id spotify_env sample_settings
    ("https://www.youtube.com/watch?v=" ++ "dQw4w9WgXcQ" ++ "&" ++ "t=42s") fresh_state
  = (Ok (JStr "dQw4w9WgXcQ"), fresh_state).
Proof.
  destruct (to_invidious_id_watch_url spotify_env sample_settings "dQw4w9WgXcQ"
              fresh_state) as [_ Hparams].
  - discriminate.
  - reflexivity.
  - destruct (Hparams "t=42s" eq_refl) as [_ H]. exact H.
Defined.

(** ** Invidious.get_video: requests and result *)



(** ** Invidious: the configured host *)

Lemma rstrip_spec (c : ascii) (s : string) :
  exists n, s = (rstrip c s ++ times c n)%string /\ ends_with c (rstrip c s) = false.
Proof.
  induction s as [|a s (n & Hs & He)]; simpl.
  - exists 0%nat. split; reflexivity.
  - destruct (rstrip c s) as [|b r] eqn:E.
    + destruct (Ascii.eqb_spec a c) as [->|Hne].
      * exists (S n). split; [simpl; f_equal; exact Hs|reflexivity].
      * exists n. split; [simpl; f_equal; exact Hs|].
        simpl. destruct (Ascii.eqb_spec a c); [contradiction|reflexivity].
    + exists n. split; [simpl; f_equal; exact Hs|exact He].
Qed.

(** X12.  A configured host loses the slashes at its end and nothing else,
    and is then used as it is, without any request; a host that is empty
    or made of slashes only counts as not configured and the host is
    looked up in the directory of instances. *)
Theorem configured_host (env : Env) (h : string) (s : State) :
  (exists n, h = (rstrip "/" h ++ times "/" n)%string)
  /\ ends_with "/" (rstrip "/" h) = false
  /\ (rstrip "/" h <> "" ->
      load env (Invidious_init (Some h)) s = (Ok (JStr (rstrip "/" h)), s))
  /\ (rstrip "/" h = "" ->
      load env (Invidious_init (Some h)) s = find_best_host env s).
Proof.
  destruct (rstrip_spec "/" h) as (n & Hn & He).
  split; [eauto|]. split; [exact He|].
  destruct h as [|a h].
  { simpl. split; [intros H; congruence|reflexivity]. }
  unfold Invidious_init, load.
  destruct (rstrip "/" (String a h)) as [|b r]; split; intros H;
    try reflexivity; congruence.
Qed.

(** ** max with a key: the first of the greatest *)

Section MaxBy.

Variable keep : json -> result bool.
Variable key : json -> result json.

Lemma max_loop_first (items : list json) :
  Forall (rated keep key) items ->
  forall (b0 : json) (n0 : Z),
  exists (b : json) (n : Z),
    max_loop keep key items (Some (b0, JNum n0)) = Ok (Some (b, JNum n))
    /\ ((b = b0 /\ n = n0
         /\ forall item r, In item items -> keep item = Ok true ->
                           key item = Ok (JNum r) -> r <= n0)
        \/ (n0 < n /\ first_greatest keep key items b n)).
Proof.
  induction 1 as [|item items (kept & rate & Hk & Hr) _ IH]; intros b0 n0.
  - exists b0, n0. split; [reflexivity|]. left. repeat split. intros ? ? [].
  - simpl. rewrite Hk. destruct kept.
    + rewrite Hr. simpl. destruct (Z.ltb_spec n0 rate) as [Hlt|Hge].
      * destruct (IH item rate) as (b & n & Hrun & Hcase).
        exists b, n. split; [exact Hrun|]. right.
        destruct Hcase as [(-> & -> & Hall)|(Hlt' & l1 & l2 & -> & Hb & Hn & H1 & H2)].
        -- split; [exact Hlt|]. exists [], items. repeat split; auto.
           intros ? ? [].
        -- split; [lia|]. exists (item :: l1), l2. repeat split; auto.
           intros it r [<-|Hin] Hkeep Hkey; [|eauto].
           rewrite Hr in Hkey. injection Hkey as <-. exact Hlt'.
      * destruct (IH b0 n0) as (b & n & Hrun & Hcase).
        exists b, n. split; [exact Hrun|].
        destruct Hcase as [(-> & -> & Hall)|(Hlt' & l1 & l2 & -> & Hb & Hn & H1 & H2)].
        -- left. repeat split. intros it r [<-|Hin] Hkeep Hkey; [|eauto].
           rewrite Hr in Hkey. injection Hkey as <-. exact Hge.
        -- right. split; [exact Hlt'|]. exists (item :: l1), l2. repeat split; auto.
           intros it r [<-|Hin] Hkeep Hkey; [|eauto].
           rewrite Hr in Hkey. injection Hkey as <-. lia.
    + destruct (IH b0 n0) as (b & n & Hrun & Hcase).
      exists b, n. split; [exact Hrun|].
      destruct Hcase as [(-> & -> & Hall)|(Hlt' & l1 & l2 & -> & Hb & Hn & H1 & H2)].
      * left. repeat split. intros it r [<-|Hin] Hkeep Hkey; [congruence|eauto].
      * right. split; [exact Hlt'|]. exists (item :: l1), l2. repeat split; auto.
        intros it r [<-|Hin] Hkeep Hkey; [congruence|eauto].
Qed.

Lemma max_by_first (items : list json) :
  Forall (rated keep key) items ->
  match max_by keep key items with
  | Ok best => exists n, first_greatest keep key items best n
  | Raise e =>
      e = ValueError "max() arg is an empty sequence"
      /\ Forall (fun item => keep item = Ok false) items
  end.
Proof.
  unfold max_by.
  induction 1 as [|item items (kept & rate & Hk & Hr) Hrest IH]; simpl.
  - auto.
  - rewrite Hk. destruct kept.
    + rewrite Hr. destruct (max_loop_first items Hrest item rate) as (b & n & Hrun & Hcase).
      rewrite Hrun. exists n.
      destruct Hcase as [(-> & -> & Hall)|(Hlt & l1 & l2 & -> & Hb & Hn & H1 & H2)].
      * exists [], items. repeat split; auto. intros ? ? [].
      * exists (item :: l1), l2. repeat split; auto.
        intros it r [<-|Hin] Hkeep Hkey; [|eauto].
        rewrite Hr in Hkey. injection Hkey as <-. exact Hlt.
    + destruct (max_loop keep key items None) as [[[best kbest]|]|e].
      * destruct IH as (n & l1 & l2 & -> & Hb & Hn & H1 & H2).
        exists n, (item :: l1), l2. repeat split; auto.
        intros it r [<-|Hin] Hkeep Hkey; [congruence|eauto].
      * destruct IH as [He Hall]. split; [exact He|]. constructor; assumption.
      * destruct IH as [He Hall]. split; [exact He|]. constructor; assumption.
Qed.

End MaxBy.



(** ** Invidious.find_best_host *)

Lemma usable_object (fields : list (string * json)) :
  usable (JObj fields) = Ok (qualifies (JObj fields)).
Proof.
  unfold qualifies, usable, get.
  destruct (assoc "stats" fields), (assoc "api" fields), (assoc "type" fields),
    (assoc "uri" fields); reflexivity.
Qed.

Lemma instances_list_directory (l : list (json * json)) :
  Forall (fun e => exists fields, snd e = JObj fields) l ->
  instances_list (map (fun e => JArr [fst e; snd e]) l)
  = Ok (filter qualifies (map snd l)).
Proof.
  induction 1 as [|[nm inst] l [fields Hobj] _ IH]; simpl; [reflexivity|].
  simpl in Hobj. subst inst. rewrite usable_object, IH. reflexivity.
Qed.

Lemma filter_split {A : Type} (f : A -> bool) (l : list A) :
  forall l1 x l2,
    filter f l = l1 ++ x :: l2 ->
    exists l1' l2',
      l = l1' ++ x :: l2' /\ filter f l1' = l1 /\ filter f l2' = l2 /\ f x = true.
Proof.
  induction l as [|a l IH]; intros l1 x l2 E; simpl in E.
  - destruct l1; discriminate E.
  - destruct (f a) eqn:Fa.
    + destruct l1 as [|b l1]; simpl in E.
      * injection E as -> E. exists [], l. simpl. auto.
      * injection E as -> E. destruct (IH _ _ _ E) as (l1' & l2' & -> & <- & <- & Fx).
        exists (b :: l1'), l2'. simpl. rewrite Fa. auto.
    + destruct (IH _ _ _ E) as (l1' & l2' & -> & <- & <- & Fx).
      exists (a :: l1'), l2'. simpl. rewrite Fa. auto.
Qed.

(** X14.  On a directory whose entries are pairs of a name and an instance
    object, the instances that qualify giving a number of users:
    [find_best_host] sends one request and returns the [uri] entry of the
    qualifying instance with the most users over half a year, the first of
    them in the directory when several have as many; an instance
    qualifies when its statistics are not null, its [api] and [uri] are
    true as conditions and its type is "https".  When no instance
    qualifies it raises the [ValueError] of [max]. *)
Theorem find_best_host_spec (env : Env) (s : State) (l : list (json * json)) :
  body (respond env (List.length (sent s)) instances_request) = directory l ->
  Forall (fun e => exists fields, snd e = JObj fields) l ->
  Forall (fun e => qualifies (snd e) = true ->
                   exists n, active_users (snd e) = Ok (JNum n)) l ->
  sent (snd (find_best_host env s)) = sent s ++ [instances_request]
  /\ (Forall (fun e => qualifies (snd e) = false) l ->
      fst (find_best_host env s) = Raise (ValueError "max() arg is an empty sequence"))
  /\ (Exists (fun e => qualifies (snd e) = true) l ->
      exists best n,
        first_greatest (fun i => Ok (qualifies i)) active_users (map snd l) best n
        /\ fst (find_best_host env s) = getitem best "uri").
Proof.
  intros Hbody Hobj Hnum.
  unfold find_best_host, bind, request, lift. rewrite Hbody.
  unfold directory. simpl iter. cbv iota beta.
  rewrite (instances_list_directory l Hobj).
  assert (Hrated : Forall (rated (fun _ => Ok true) active_users)
                     (filter qualifies (map snd l))).
  { rewrite Forall_forall in *. intros inst Hin.
    apply filter_In in Hin. destruct Hin as [Hin Hq].
    apply in_map_iff in Hin. destruct Hin as (e & <- & He).
    destruct (Hnum e He Hq) as [n Hn]. exists true, n. auto. }
  pose proof (max_by_first (fun _ => Ok true) active_users _ Hrated) as Hmax.
  destruct (max_by (fun _ : json => Ok true) active_users
              (filter qualifies (map snd l))) as [best|e].
  - destruct Hmax as (n & l1 & l2 & Hsplit & _ & Hn & H1 & H2).
    destruct (filter_split _ _ _ _ _ Hsplit) as (l1' & l2' & Heq & <- & <- & Hq).
    split; [destruct (getitem best "uri"); reflexivity|]. split.
    + intros Hnone. exfalso. rewrite Forall_forall in Hnone.
      assert (Hin : In best (map snd l))
        by (rewrite Heq; apply in_or_app; right; left; reflexivity).
      apply in_map_iff in Hin. destruct Hin as (e & <- & He).
      rewrite (Hnone e He) in Hq. discriminate Hq.
    + intros _. exists best, n. split.
      * exists l1', l2'. rewrite Hq. repeat split; auto.
        -- intros item r Hin Hkeep Hkey. injection Hkeep as Hkeep.
           apply (H1 item r); [apply filter_In; auto|reflexivity|exact Hkey].
        -- intros item r Hin Hkeep Hkey. injection Hkeep as Hkeep.
           apply (H2 item r); [apply filter_In; auto|reflexivity|exact Hkey].
      * destruct (getitem best "uri"); reflexivity.
  - destruct Hmax as [-> Hall]. split; [reflexivity|]. split; [reflexivity|].
    intros Hsome. exfalso.
    rewrite Exists_exists in Hsome. destruct Hsome as (e & He & Hq).
    rewrite Forall_forall in Hall.
    assert (Hin : In (snd e) (filter qualifies (map snd l)))
      by (apply filter_In; split; [apply in_map; exact He|exact Hq]).
    specialize (Hall _ Hin). discriminate Hall.
Qed.

Lemma find_best_host_spec_witness :
  exists best n,
    first_greatest (fun i => Ok (qualifies i)) active_users (map snd sample_directory)
      best n
    /\ fst (find_best_host directory_env fresh_state) = getitem best "uri".
Proof.
  destruct (find_best_host_spec directory_env fresh_state sample_directory)
    as (_ & _ & Hbest).
  - reflexivity.
  - repeat constructor; eexists; reflexivity.
  - repeat constructor; simpl; intros H; try discriminate H; eexists; reflexivity.
  - apply Hbest. apply Exists_cons_tl. apply Exists_cons_hd. reflexivity.
Defined.

Example find_best_host_run :
  fst (find_best_host directory_env fresh_state) = Ok (JStr "https://large.example").
Proof. reflexivity. Qed.

(** ** Translator.spotify_to_youtube_id: failures *)

Lemma raises_only_ret {A : Type} (P : exn -> Prop) (a : A) : raises_only P (ret a).
Proof. intros s e H. discriminate H. Qed.

Lemma raises_only_raise {A : Type} (P : exn -> Prop) (e : exn) :
  P e -> raises_only P (@raise A e).
Proof. intros He s e' H. injection H as <-. exact He. Qed.

Lemma raises_only_lift {A : Type} (P : exn -> Prop) (r : result A) :
  (forall e, r = Raise e -> P e) -> raises_only P (lift r).
Proof. intros Hr s e H. apply Hr. exact H. Qed.

Lemma raises_only_bind {A B : Type} (P : exn -> Prop) (m : M A) (k : A -> M B) :
  raises_only P m -> (forall a, raises_only P (k a)) -> raises_only P (bind m k).
Proof.
  intros Hm Hk s e. unfold bind. specialize (Hm s).
  destruct (m s) as [[a|e'] s']; simpl in *.
  - apply Hk.
  - intros H. injection H as <-. apply Hm. reflexivity.
Qed.

Lemma raises_only_weaken {A : Type} (P Q : exn -> Prop) (m : M A) :
  (forall e, P e -> Q e) -> raises_only P m -> raises_only Q m.
Proof. intros HPQ Hm s e H. apply HPQ. apply (Hm s e H). Qed.

Lemma getitem_raises (d : json) (k : string) (e : exn) :
  getitem d k = Raise e -> not_bad_response e.
Proof.
  unfold getitem. destruct d; try (intros H; injection H as <-; exact I).
  destruct (assoc k fields); [discriminate|]. intros H. injection H as <-. exact I.
Qed.

Lemma get_raises (d : json) (k : string) (e : exn) :
  get d k = Raise e -> not_bad_response e.
Proof.
  unfold get. destruct d; try (intros H; injection H as <-; exact I).
  destruct (assoc k fields); discriminate.
Qed.

Lemma iter_raises (v : json) (e : exn) : iter v = Raise e -> not_bad_response e.
Proof. destruct v; simpl; intros H; try discriminate H; injection H as <-; exact I. Qed.

Lemma artist_names_raises (artists : list json) (e : exn) :
  artist_names artists = Raise e -> not_bad_response e.
Proof.
  induction artists as [|a artists IH]; simpl; [discriminate|].
  destruct (getitem a "name") eqn:E.
  - destruct (artist_names artists); [discriminate|].
    intros H. injection H as <-. apply IH. reflexivity.
  - intros H. injection H as <-. apply (getitem_raises _ _ _ E).
Qed.

Lemma all_str_raises (vs : list json) (e : exn) :
  all_str vs = Raise e -> not_bad_response e.
Proof.
  induction vs as [|x vs IH]; simpl; [discriminate|].
  destruct x; try (intros H; injection H as <-; exact I).
  destruct (all_str vs); [discriminate|]. intros H. injection H as <-.
  apply IH. reflexivity.
Qed.

Lemma spotify_query_raises (data : json) (e : exn) :
  spotify_query data = Raise e -> not_bad_response e.
Proof.
  unfold spotify_query.
  destruct (getitem data "name") as [nm|e1] eqn:E1;
    [|intros H; injection H as <-; apply (getitem_raises _ _ _ E1)].
  destruct (str_add nm " by ") as [lhs|e2] eqn:E2.
  2:{ intros H. injection H as <-. unfold str_add in E2.
      destruct nm; try discriminate E2; injection E2 as <-; exact I. }
  destruct (getitem data "artists") as [ar|e3] eqn:E3;
    [|intros H; injection H as <-; apply (getitem_raises _ _ _ E3)].
  destruct (iter ar) as [items|e4] eqn:E4;
    [|intros H; injection H as <-; apply (iter_raises _ _ E4)].
  destruct (artist_names items) as [names|e5] eqn:E5;
    [|intros H; injection H as <-; apply (artist_names_raises _ _ E5)].
  unfold join. destruct (all_str names) as [ss|e6] eqn:E6; [discriminate|].
  intros H. injection H as <-. apply (all_str_raises _ _ E6).
Qed.

Lemma first_item_raises (search : json) (e : exn) :
  first_item search = Raise e -> not_bad_response e.
Proof.
  unfold first_item. destruct search as [| | |str|items|fields];
    try (intros H; injection H as <-; exact I).
  - destruct str; [intros H; injection H as <-; exact I|discriminate].
  - destruct items; [intros H; injection H as <-; exact I|discriminate].
Qed.

Lemma update_spotify_token_raises (env : Env) (settings : Settings) :
  raises_only not_bad_response (update_spotify_token env settings).
Proof.
  unfold update_spotify_token.
  apply raises_only_bind; [intros s e H; discriminate H|]. intros expires_at.
  apply raises_only_bind.
  { destruct expires_at; [|apply raises_only_ret].
    apply raises_only_bind; [intros s e H; discriminate H|].
    intros t. apply raises_only_ret. }
  intros early. destruct early; [apply raises_only_ret|].
  apply raises_only_bind; [intros s e H; discriminate H|]. intros response.
  cbv zeta.
  apply raises_only_bind; [apply raises_only_lift; apply get_raises|]. intros error.
  destruct (is_str error "invalid_client"); [apply raises_only_raise; exact I|].
  apply raises_only_bind; [apply raises_only_lift; apply getitem_raises|]. intros token.
  apply raises_only_bind; [intros s e H; discriminate H|]. intros _.
  apply raises_only_bind; [intros s e H; discriminate H|]. intros t.
  apply raises_only_bind; [apply raises_only_lift; apply getitem_raises|].
  intros expires_in.
  destruct (as_number expires_in); [intros s e H; discriminate H|].
  apply raises_only_raise. exact I.
Qed.

(** X15.  Whatever the upstream answers, the only [BadResponseError]s of
    [spotify_to_youtube_id] are "Invalid spotify token" and "Could not get
    track data": the third message of the source, with status and reason,
    is never raised, and neither the token exchange, nor the track
    metadata, nor the search result give rise to a [BadResponseError]. *)
Theorem spotify_to_youtube_id_raises (env : Env) (settings : Settings)
    (track_id : string) :
  raises_only track_error (spotify_to_youtube_id env settings track_id).
Proof.
  assert (Hweak : forall e, not_bad_response e -> track_error e)
    by (intros e H; right; right; exact H).
  unfold spotify_to_youtube_id.
  apply raises_only_bind.
  { apply (raises_only_weaken _ _ _ Hweak). apply update_spotify_token_raises. }
  intros _. apply raises_only_bind; [intros s e H; discriminate H|]. intros token.
  apply raises_only_bind; [intros s e H; discriminate H|]. intros response.
  destruct (status response =? 401) eqn:E401.
  { apply raises_only_raise. left. reflexivity. }
  destruct (status response =? 200) eqn:E200; simpl.
  2:{ apply raises_only_raise. right. left. reflexivity. }
  assert (Hok : ok response = true).
  { unfold ok. apply Z.eqb_eq in E200. rewrite E200. reflexivity. }
  rewrite Hok. simpl.
  apply raises_only_bind.
  { apply raises_only_lift. intros e H. apply Hweak. apply (spotify_query_raises _ _ H). }
  intros q. apply raises_only_bind.
  { unfold search_for. apply raises_only_bind; [intros s e H; discriminate H|].
    intros r. apply raises_only_ret. }
  intros search. apply raises_only_bind.
  { apply raises_only_lift. intros e H. apply Hweak. apply (first_item_raises _ _ H). }
  intros first. apply raises_only_lift. intros e H. apply Hweak.
  apply (getitem_raises _ _ _ H).
Qed.

(** X16.  When the track endpoint does not answer with status 200, the
    resolution ends there with a [BadResponseError], "Invalid spotify
    token" for status 401 and "Could not get track data" for any other
    status: no search is made, and the cached token and its expiry stay as
    the token update left them, also after a 401. *)
Theorem spotify_to_youtube_id_status (env : Env) (settings : Settings)
    (track_id : string) (s s1 : State) :
  update_spotify_token env settings s = (Ok tt, s1) ->
  let req := track_request track_id (_spotify_token s1) in
  let response := respond env (List.length (sent s1)) req in
  status response <> 200 ->
  spotify_to_youtube_id env settings track_id s
  = (Raise (BadResponseError
              (FLit (if status response =? 401
                     then "Invalid spotify token"
                     else "Could not get track data"))),
     mkState (sent s1 ++ [req]) (clock_reads s1) (_spotify_token s1)
       (_spotify_token_expires_at s1)).
Proof.
  intros Hupd req response Hstatus.
  unfold spotify_to_youtube_id, bind at 1. rewrite Hupd.
  unfold bind, read_token, request. fold (track_request track_id (_spotify_token s1)).
  fold req. fold response.
  destruct (status response =? 401); [reflexivity|].
  destruct (Z.eqb_spec (status response) 200) as [E|_]; [contradiction|reflexivity].
Qed.

Lemma spotify_to_youtube_id_status_witness :
  spotify_to_youtube_id
    (mkEnv (fun _ r => mkResponse 401 "Unauthorized" (url r) JNull)
       (fun _ => timedelta_seconds 1000))
    sample_settings "7x9" expired_state
  = (Raise (BadResponseError (FLit "Invalid spotify token")),
     mkState [track_request "7x9" (JStr "cached")] 1 (JStr "cached")
       (_spotify_token_expires_at expired_state)).
Proof.
  apply (spotify_to_youtube_id_status
           (mkEnv (fun _ r => mkResponse 401 "Unauthorized" (url r) JNull)
       (fun _ => timedelta_seconds 1000))
           sample_settings "7x9" expired_state
           (mkState [] 1 (JStr "cached") (_spotify_token_expires_at expired_state))).
  - reflexivity.
  - simpl. discriminate.
Defined.

Lemma spotify_to_youtube_id_raises_witness :
  track_error (BadResponseError (FLit "Invalid spotify token")).
Proof.
  apply (spotify_to_youtube_id_raises
           (mkEnv (fun _ r => mkResponse 401 "Unauthorized" (url r) JNull)
              (fun _ => timedelta_seconds 1000))
           sample_settings "7x9" expired_state).
  reflexivity.
Defined.

(** ** Translator.update_spotify_token: what an exchange leaves *)



(** ** play *)

Lemma players_set_get (ps : Players) (k : ChannelID) (p : ChannelPlayer) :
  players_get (players_set ps k p) k = Some p.
Proof.
  induction ps as [|[k0 p0] ps IH]; simpl.
  - rewrite Z.eqb_refl. reflexivity.
  - destruct (Z.eqb_spec k k0) as [->|Hne]; simpl.
    + rewrite Z.eqb_refl. reflexivity.
    + destruct (Z.eqb_spec k k0); [contradiction|exact IH].
Qed.

Lemma players_set_get_other (ps : Players) (k k' : ChannelID) (p : ChannelPlayer) :
  k' <> k -> players_get (players_set ps k p) k' = players_get ps k'.
Proof.
  intros Hne. induction ps as [|[k0 p0] ps IH]; simpl.
  - destruct (Z.eqb_spec k' k); [contradiction|reflexivity].
  - destruct (Z.eqb_spec k k0) as [->|Hk]; simpl.
    + destruct (Z.eqb_spec k' k0); [contradiction|reflexivity].
    + rewrite IH. reflexivity.
Qed.

Lemma players_set_keys (ps : Players) (k : ChannelID) (p : ChannelPlayer) :
  keys (players_set ps k p)
  = match players_get ps k with
    | Some _ => keys ps
    | None => keys ps ++ [k]
    end.
Proof.
  induction ps as [|[k0 p0] ps IH]; simpl; [reflexivity|].
  destruct (Z.eqb_spec k k0) as [->|Hk]; simpl; [reflexivity|].
  rewrite IH. destruct (players_get ps k); reflexivity.
Qed.

(** The start of [play]: the registry and the network are not touched,
    and no connection is made. *)
Lemma play_resume_step (tr : Transport) (b : Bot) (channel : ChannelID) :
  let resumed_b :=
    match players_get (registry b) channel with
    | None => (false, b)
    | Some player =>
        let b := did (Voice (IsPaused (connection player))) b in
        if is_paused (tr (connection player))
        then match queue player with
             | [] => (true, did (Resume (connection player)) b)
             | _ :: _ => (false, b)
             end
        else (false, b)
    end in
  registry (snd resumed_b) = registry b
  /\ network (snd resumed_b) = network b
  /\ replies (snd resumed_b) = replies b
  /\ exists more,
       voice (snd resumed_b) = voice b ++ more
       /\ forall ch, ~ In (Connect ch) more.
Proof.
  cbv zeta. destruct (players_get (registry b) channel) as [player|].
  - destruct (is_paused (tr (connection player))); [destruct (queue player)|];
      simpl; repeat split; eexists; (split; [try reflexivity|]).
    + rewrite <- app_assoc. reflexivity.
    + intros ch [H|[H|[]]]; discriminate H.
    + intros ch [H|[]]; discriminate H.
    + intros ch [H|[]]; discriminate H.
  - simpl. repeat split. exists []. split; [symmetry; apply app_nil_r|intros ch []].
Qed.

(** X18.  Unless the resolution of the input gives an item, [play] leaves
    the registry as it is and opens no voice connection: on a missing
    URL, on an input no pattern matches, and on any failure of the
    translator or of the upstream, be it answered with "Error: ..." or
    raised. *)
Theorem play_without_item (repr : json -> string) (env : Env) (settings : Settings)
    (tr : Transport) (connect : ChannelID -> result VoiceClient)
    (ctx : Context) (url : option string) (b : Bot) :
  (forall u found, url = Some u ->
     fst (resolution repr env settings u (network b)) <> Ok (Some found)) ->
  let out := play repr env settings tr connect ctx url b in
  registry (snd out) = registry b
  /\ exists more,
       voice (snd out) = voice b ++ more /\ forall ch, ~ In (Connect ch) more.
Proof.
  intros Hnone. cbv zeta. unfold play.
  destruct (in_voice_channel ctx) as [channel|].
  2:{ simpl. split; [reflexivity|]. exists []. split; [symmetry; apply app_nil_r|].
      intros ch []. }
  pose proof (play_resume_step tr b channel) as Hstep. cbv zeta in Hstep.
  set (resumed_b := match players_get (registry b) channel with
                    | None => (false, b)
                    | Some player => _
                    end) in *.
  destruct Hstep as (Hreg & Hnet & _ & Hvoice).
  cbv zeta. destruct url as [u|].
  2:{ destruct (fst resumed_b); simpl; auto. }
  specialize (Hnone u). rewrite Hnet.
  destruct (resolution repr env settings u (network b)) as [[[[[id video] audio]|]|e] s1].
  - exfalso. apply (Hnone (id, video, audio) eq_refl). reflexivity.
  - simpl. auto.
  - destruct e; simpl; auto.
Qed.

Lemma play_without_item_witness :
  registry (snd (play no_repr video_env sample_settings all_idle (fun _ => Ok 9%nat)
                   (member_in 7) (Some "not a link") (new_bot two_channels)))
  = registry (new_bot two_channels)
  /\ exists more,
       voice (snd (play no_repr video_env sample_settings all_idle (fun _ => Ok 9%nat)
                     (member_in 7) (Some "not a link") (new_bot two_channels)))
       = voice (new_bot two_channels) ++ more
       /\ forall ch, ~ In (Connect ch) more.
Proof.
  apply (play_without_item no_repr video_env sample_settings all_idle (fun _ => Ok 9%nat)
           (member_in 7) (Some "not a link") (new_bot two_channels)).
  intros u found Hu. injection Hu as <-. discriminate.
Defined.

(** What [play] does with an item the resolution gave. *)
Lemma play_item (repr : json -> string) (env : Env) (settings : Settings)
    (tr : Transport) (connect : ChannelID -> result VoiceClient)
    (ctx : Context) (url : string) (b : Bot) (channel : ChannelID)
    (video_id video : json) (audio_url : URL) (c : VoiceClient) :
  in_voice_channel ctx = Some channel ->
  fst (resolution repr env settings url (network b))
    = Ok (Some (video_id, video, audio_url)) ->
  (players_get (registry b) channel = None -> connect channel = Ok c) ->
  let out := play repr env settings tr connect ctx (Some url) b in
  let item := new_item repr url video_id video audio_url in
  let player :=
    match players_get (registry b) channel with
    | Some p => p
    | None => mkChannelPlayer c [] None false
    end in
  registry (snd out)
  = players_set (registry b) channel (set_queue (queue player ++ [item]) player)
  /\ fst out = match getitem video "title" with
               | Ok _ => Ok tt
               | Raise e => Raise e
               end.
Proof.
  intros Hctx Hres Hconn. cbv zeta. unfold play. rewrite Hctx.
  pose proof (play_resume_step tr b channel) as Hstep. cbv zeta in Hstep.
  set (resumed_b := match players_get (registry b) channel with
                    | None => (false, b)
                    | Some p => _
                    end) in *.
  destruct Hstep as (Hr & Hnet & _ & _).
  cbv zeta. rewrite Hnet.
  destruct (resolution repr env settings url (network b)) as [r s1].
  simpl in Hres. subst r. cbv beta iota zeta.
  simpl registry at 1. simpl registry at 1.
  unfold with_network at 1 2. simpl registry. rewrite Hr.
  destruct (players_get (registry b) channel) as [p|].
  - simpl. destruct (getitem video "title"); simpl; rewrite ?Hr; split; reflexivity.
  - rewrite (Hconn eq_refl). simpl.
    destruct (getitem video "title"); simpl; rewrite ?Hr; split; reflexivity.
Qed.

(** X19.  When the resolution gives an item, [play] puts it at the end of
    the pending sequence of the caller's channel and changes nothing else
    in the registry: a registered channel keeps its voice client, its item
    now playing, its loop flag and its place, a new channel is added at
    the end with the voice client just connected.  The reply is sent after
    that: when the metadata has no [title], the command raises with the
    item already in the queue. *)
Theorem play_enqueues (repr : json -> string) (env : Env) (settings : Settings)
    (tr : Transport) (connect : ChannelID -> result VoiceClient)
    (ctx : Context) (url : string) (b : Bot) (channel : ChannelID)
    (video_id video : json) (audio_url : URL) (c : VoiceClient) :
  in_voice_channel ctx = Some channel ->
  fst (resolution repr env settings url (network b))
    = Ok (Some (video_id, video, audio_url)) ->
  (players_get (registry b) channel = None -> connect channel = Ok c) ->
  let out := play repr env settings tr connect ctx (Some url) b in
  let item := new_item repr url video_id video audio_url in
  let player :=
    match players_get (registry b) channel with
    | Some p => p
    | None => mkChannelPlayer c [] None false
    end in
  registry (snd out)
  = players_set (registry b) channel (set_queue (queue player ++ [item]) player)
  /\ pending (registry (snd out)) channel = Some (queue player ++ [item])
  /\ (forall k, k <> channel ->
                players_get (registry (snd out)) k = players_get (registry b) k)
  /\ keys (registry (snd out))
     = match players_get (registry b) channel with
       | Some _ => keys (registry b)
       | None => keys (registry b) ++ [channel]
       end
  /\ fst out = match getitem video "title" with
               | Ok _ => Ok tt
               | Raise e => Raise e
               end.
Proof.
  intros Hctx Hres Hconn.
  destruct (play_item repr env settings tr connect ctx url b channel video_id video
              audio_url c Hctx Hres Hconn) as [Hreg Hfst].
  cbv zeta in *. rewrite Hreg.
  split; [reflexivity|]. split.
  - unfold pending. rewrite players_set_get. reflexivity.
  - split; [intros k Hk; apply players_set_get_other; exact Hk|].
    split; [apply players_set_keys|exact Hfst].
Qed.

Lemma play_enqueues_witness :
  pending (registry (snd (play no_repr video_env sample_settings all_idle
                            (fun _ => Ok 9%nat) (member_in 8)
                            (Some "https://youtu.be/abc123") (new_bot two_channels)))) 8
  = Some ([item "Z"]
          ++ [new_item no_repr "https://youtu.be/abc123" (JStr "abc123") video_with_audio
                "https://inv.example/videoplayback?itag=251"]).
Proof.
  destruct (play_enqueues no_repr video_env sample_settings all_idle (fun _ => Ok 9%nat)
              (member_in 8) "https://youtu.be/abc123" (new_bot two_channels) 8
              (JStr "abc123") video_with_audio
              "https://inv.example/videoplayback?itag=251" 9%nat
              eq_refl eq_refl (fun _ => eq_refl)) as (_ & Hpending & _).
  exact Hpending.
Defined.

Lemma players_get_None (ps : Players) (k : ChannelID) :
  players_get ps k = None -> ~ In k (keys ps).
Proof.
  induction ps as [|[k0 p0] ps IH]; simpl; [tauto|].
  destruct (Z.eqb_spec k k0) as [->|Hne]; [discriminate|].
  intros H [E|Hin]; [congruence|]. apply (IH H Hin).
Qed.

Lemma players_set_new (ps : Players) (k : ChannelID) (p : ChannelPlayer) :
  players_get ps k = None -> players_set ps k p = ps ++ [(k, p)].
Proof.
  induction ps as [|[k0 p0] ps IH]; simpl; [reflexivity|].
  destruct (Z.eqb_spec k k0) as [->|Hne]; [discriminate|].
  intros H. rewrite (IH H). reflexivity.
Qed.

Lemma NoDup_snoc {A : Type} (l : list A) (x : A) :
  ~ In x l -> NoDup l -> NoDup (l ++ [x]).
Proof.
  induction l as [|a l IH]; intros Hx Hnd; simpl.
  - constructor; [intros []|constructor].
  - inversion Hnd as [|? ? Ha Hl]; subst. constructor.
    + intros Hin. apply in_app_or in Hin. destruct Hin as [Hin|[E|[]]].
      * contradiction.
      * apply Hx. left. symmetry. exact E.
    + apply IH; [|exact Hl]. intros Hin. apply Hx. right. exact Hin.
Qed.

(** X20.  From the request to the sound: after a [play] that brought the
    item into the queue of a channel not yet registered, the next tick in
    which the new voice client is idle and nothing raises calls [play] on
    that voice client with the audio URL the resolution negotiated, and
    the item is the one now playing. *)
Theorem play_then_tick (repr : json -> string) (env : Env) (settings : Settings)
    (tr tr' : Transport) (connect : ChannelID -> result VoiceClient)
    (ctx : Context) (url : string) (b : Bot) (channel : ChannelID)
    (video_id video : json) (audio_url : URL) (c : VoiceClient) :
  in_voice_channel ctx = Some channel ->
  fst (resolution repr env settings url (network b))
    = Ok (Some (video_id, video, audio_url)) ->
  players_get (registry b) channel = None ->
  connect channel = Ok c ->
  NoDup (keys (registry b)) ->
  (forall k p, In (k, p) (registry b) -> connection p <> c) ->
  quiet tr' ->
  idle_on tr' c ->
  let after := registry (snd (play repr env settings tr connect ctx (Some url) b)) in
  exists t,
    play_queue tr' after = (Ok tt, t)
    /\ plays_on c (calls t) = [mkAudioSource audio_url reconnect_options]
    /\ players_get (players t) channel
       = Some (mkChannelPlayer c []
                 (Some (new_item repr url video_id video audio_url)) false).
Proof.
  intros Hctx Hres Hnew Hconn Hnd Hfresh Hquiet Hidle. cbv zeta.
  destruct (play_item repr env settings tr connect ctx url b channel video_id video
              audio_url c Hctx Hres (fun _ => Hconn)) as [Hreg _].
  cbv zeta in Hreg. rewrite Hnew in Hreg. simpl in Hreg.
  rewrite (players_set_new _ _ _ Hnew) in Hreg. rewrite Hreg.
  set (item := new_item repr url video_id video audio_url).
  set (p0 := set_queue [item] (mkChannelPlayer c [] None false)).
  destruct (play_queue_idle tr' (registry b ++ [(channel, p0)]) channel p0)
    as (t & Hrun & _ & _ & Hcase).
  - exact Hquiet.
  - exact Hidle.
  - unfold keys. rewrite map_app. simpl.
    apply NoDup_snoc; [apply (players_get_None _ _ Hnew)|exact Hnd].
  - intros k' p' Hin Hk'. apply in_app_or in Hin. destruct Hin as [Hin|[E|[]]].
    + apply (Hfresh k' p' Hin).
    + injection E as <- _. contradiction.
  - rewrite <- (players_set_new _ _ p0 Hnew). apply players_set_get.
  - exists t. split; [exact Hrun|]. simpl in Hcase. destruct Hcase as [Hget Hplays].
    split; [exact Hplays|exact Hget].
Qed.

Lemma play_then_tick_witness :
  exists t,
    play_queue all_idle
      (registry (snd (play no_repr video_env sample_settings all_idle
                        (fun _ => Ok 5%nat) (member_in 9)
                        (Some "https://youtu.be/abc123") (new_bot two_channels))))
    = (Ok tt, t)
    /\ plays_on 5%nat (calls t)
       = [mkAudioSource "https://inv.example/videoplayback?itag=251" reconnect_options]
    /\ players_get (players t) 9
       = Some (mkChannelPlayer 5%nat []
                 (Some (new_item no_repr "https://youtu.be/abc123" (JStr "abc123")
                          video_with_audio "https://inv.example/videoplayback?itag=251"))
                 false).
Proof.
  apply (play_then_tick no_repr video_env sample_settings all_idle all_idle
           (fun _ => Ok 5%nat) (member_in 9) "https://youtu.be/abc123"
           (new_bot two_channels) 9 (JStr "abc123") video_with_audio
           "https://inv.example/videoplayback?itag=251" 5%nat).
  - reflexivity.
  - reflexivity.
  - reflexivity.
  - reflexivity.
  - simpl. constructor.
    + simpl. intros [H|[]]. discriminate H.
    + constructor; [intros []|constructor].
  - intros k p [H|[H|[]]]; injection H as _ <-; simpl; discriminate.
  - intros c. split; reflexivity.
  - split; reflexivity.
Defined.
